(** * Virtual-Memory-Simulator: the page table and its eviction policies

    A shallow embedding of [vmsim.py]: the classes [Page],
    [PageTableEntry], [PageTable] (with its three subclasses
    [OptimalTable], [LRUTable], [SecondChanceTable]) and
    [VirtualMemorySimulator], followed by the properties of the
    replacement policies.

    Python integers are [Z]; a Python list is a [list], indexed the way
    Python does it ([getitem]); the dict [trace_indices] is a [gmap];
    objects mutated in place (the entries of [self.table]) are named by
    their position in the list; exceptions are the [Raise] results of a
    small error monad. *)

From Stdlib Require Import ZArith Lia Bool String.
From stdpp Require Import base tactics option list gmap strings fin_maps sorting.

Local Open Scope Z_scope.

(** ** Exceptions and results *)

(** The exceptions the program can raise.  [OutOfFuel] is not a Python
    exception: it marks a [while] loop cut short by the bound on its
    iterations (see [run_loop]); the two loops of the program are given
    bounds they never reach ([findFirstElementGreaterThan_terminates],
    [second_chance_evict_terminates]). *)
Inductive exn : Type :=
| ValueError
| RuntimeError
| IndexError
| KeyError
| AttributeError
| ZeroDivisionError
| OutOfFuel.

Inductive result (A : Type) : Type :=
| Ok (a : A)
| Raise (e : exn).
Arguments Ok {A} a.
Arguments Raise {A} e.

Definition bind {A B : Type} (c : result A) (k : A -> result B) : result B :=
  match c with
  | Ok a => k a
  | Raise e => Raise e
  end.

Notation "'let*' x ':=' c 'in' k" := (bind c (fun x => k))
  (at level 10, x name, c at level 100, k at level 200).
Notation "'let*' ' p ':=' c 'in' k" :=
  (bind c (fun x => match x with p => k end))
  (at level 10, p pattern, c at level 100, k at level 200).

(** A [while] loop is a function of the number of iterations it may
    still run; [None] says the loop was still running when they were
    used up. *)
Definition run_loop {A : Type} (o : option (result A)) : result A :=
  match o with
  | Some r => r
  | None => Raise OutOfFuel
  end.

(** ** Python primitives *)

(** [a >> n]: a negative shift count raises [ValueError]. *)
Definition rshift (a n : Z) : result Z :=
  if n <? 0 then Raise ValueError else Ok (Z.shiftr a n).

(** [l[i]]: a negative index counts from the end; out of range raises
    [IndexError]. *)
Definition getitem {A : Type} (l : list A) (i : Z) : result A :=
  let n := Z.of_nat (length l) in
  let j := if i <? 0 then i + n else i in
  if (j <? 0) || (n <=? j) then Raise IndexError
  else match l !! Z.to_nat j with
       | Some x => Ok x
       | None => Raise IndexError
       end.

(** [a % b]: the sign of the result is that of [b]; [b = 0] raises. *)
Definition pymod (a b : Z) : result Z :=
  if b =? 0 then Raise ZeroDivisionError else Ok (a mod b).

(** [max(l)]: raises [ValueError] on the empty list. *)
Definition pymax (l : list Z) : result Z :=
  match l with
  | [] => Raise ValueError
  | x :: rest => Ok (foldl Z.max x rest)
  end.

(** [l.index(x)]: the first position holding [x]. *)
Fixpoint pyindex (l : list Z) (x : Z) : result nat :=
  match l with
  | [] => Raise ValueError
  | y :: rest => if y =? x then Ok 0%nat else (let* i := pyindex rest x in Ok (S i))
  end.

(** [[f(x) for x in l]] where [f] may raise. *)
Fixpoint mapM {A B : Type} (f : A -> result B) (l : list A) : result (list B) :=
  match l with
  | [] => Ok []
  | x :: rest => let* y := f x in let* ys := mapM f rest in Ok (y :: ys)
  end.

(** [[x for x in l if f(x)]] where [f] may raise. *)
Fixpoint filterM {A : Type} (f : A -> result bool) (l : list A) : result (list A) :=
  match l with
  | [] => Ok []
  | x :: rest => let* b := f x in let* ys := filterM f rest in Ok (if b then x :: ys else ys)
  end.

(** ** class Page *)

Module Page.

Record t : Type := mk { offset : Z; page_number : Z }.

(** [__init__] *)
Definition init (address offset_bits : Z) : result t :=
  let* pn := rshift address offset_bits in
  Ok {| offset := offset_bits; page_number := pn |}.

Definition getPageNumber (self : t) : Z := page_number self.

Definition contains (self : t) (address : Z) : result bool :=
  let* a := rshift address (offset self) in
  Ok (page_number self =? a).

End Page.

(** ** class PageTableEntry *)

Module PageTableEntry.

Record t : Type := mk {
  offset : Z;
  page : option Page.t;
  dirty : bool;
  most_recent_access : Z;
  num_accesses : Z;
  second_chance : bool
}.

(** [__init__] *)
Definition init (offset_bits : Z) : t :=
  {| offset := offset_bits; page := None; dirty := false;
     most_recent_access := 0; num_accesses := 0; second_chance := false |}.

Definition getPage (self : t) : option Page.t := page self.

Definition setPage (self : t) (address : Z) : result t :=
  let* p := Page.init address (offset self) in
  Ok {| offset := offset self; page := Some p; dirty := dirty self;
        most_recent_access := most_recent_access self;
        num_accesses := num_accesses self; second_chance := false |}.

Definition hasPage (self : t) : bool :=
  match page self with
  | Some _ => true
  | None => false
  end.

Definition isDirty (self : t) : bool := dirty self.

Definition hasSecondChance (self : t) : bool := second_chance self.

Definition losesChance (self : t) : t :=
  {| offset := offset self; page := page self; dirty := dirty self;
     most_recent_access := most_recent_access self;
     num_accesses := num_accesses self; second_chance := false |}.

Definition load (self : t) (access_index : Z) : t :=
  {| offset := offset self; page := page self; dirty := dirty self;
     most_recent_access := access_index;
     num_accesses := num_accesses self + 1;
     second_chance := second_chance self |}.

Definition store (self : t) (access_index : Z) : t :=
  {| offset := offset self; page := page self; dirty := true;
     most_recent_access := access_index;
     num_accesses := num_accesses self;
     second_chance := second_chance self |}.

Definition access (self : t) (access_type : string) (access_index : Z) : result t :=
  if String.eqb access_type "l"%string then Ok (load self access_index)
  else if String.eqb access_type "s"%string then Ok (store self access_index)
  else Raise ValueError.

Definition clear (self : t) : t :=
  {| offset := offset self; page := None; dirty := false;
     most_recent_access := 0; num_accesses := 0;
     second_chance := second_chance self |}.

(** [pte.second_chance = True], the assignment [PageTable.query]
    makes on a hit. *)
Definition set_second_chance (self : t) : t :=
  {| offset := offset self; page := page self; dirty := dirty self;
     most_recent_access := most_recent_access self;
     num_accesses := num_accesses self; second_chance := true |}.

End PageTableEntry.

(** ** class PageTable and its subclasses *)

(** The class of a table object decides which [evict] a call to
    [self.evict(index)] reaches. *)
Inductive table_class : Type := OptimalTable | LRUTable | SecondChanceTable.

Module PageTable.

(** The attributes of a table object.  [round_robin_index] is the
    attribute [SecondChanceTable.__init__] adds; the other classes
    never read or write it. *)
Record t : Type := mk {
  cls : table_class;
  size : Z;
  table : list PageTableEntry.t;
  page_faults : Z;
  writes_to_disk : Z;
  trace_indices : gmap Z (list Z);
  round_robin_index : Z
}.

(** [__init__] of the three subclasses: [super().__init__], and
    [round_robin_index = -1]. *)
Definition init (c : table_class) (num_frames page_size : Z)
    (trace_indices : gmap Z (list Z)) : t :=
  {| cls := c; size := num_frames;
     table := replicate (Z.to_nat num_frames) (PageTableEntry.init page_size);
     page_faults := 0; writes_to_disk := 0;
     trace_indices := trace_indices; round_robin_index := -1 |}.

Definition with_table (self : t) (tbl : list PageTableEntry.t) : t :=
  {| cls := cls self; size := size self; table := tbl;
     page_faults := page_faults self; writes_to_disk := writes_to_disk self;
     trace_indices := trace_indices self;
     round_robin_index := round_robin_index self |}.

Definition with_page_faults (self : t) (n : Z) : t :=
  {| cls := cls self; size := size self; table := table self;
     page_faults := n; writes_to_disk := writes_to_disk self;
     trace_indices := trace_indices self;
     round_robin_index := round_robin_index self |}.

Definition with_writes_to_disk (self : t) (n : Z) : t :=
  {| cls := cls self; size := size self; table := table self;
     page_faults := page_faults self; writes_to_disk := n;
     trace_indices := trace_indices self;
     round_robin_index := round_robin_index self |}.

Definition with_round_robin_index (self : t) (i : Z) : t :=
  {| cls := cls self; size := size self; table := table self;
     page_faults := page_faults self; writes_to_disk := writes_to_disk self;
     trace_indices := trace_indices self;
     round_robin_index := i |}.

(** The entry objects are named by their position in [self.table]. *)
Definition entry_at (self : t) (i : nat) : result PageTableEntry.t :=
  match table self !! i with
  | Some e => Ok e
  | None => Raise IndexError
  end.

(** [getTableEntryByAddress]: the position of the first entry that
    holds the page of [address], scanning from position [i]. *)
Fixpoint scan_for_address (tbl : list PageTableEntry.t) (address : Z) (i : nat)
    : result (option nat) :=
  match tbl with
  | [] => Ok None
  | entry :: rest =>
      match PageTableEntry.getPage entry with
      | Some p =>
          let* b := Page.contains p address in
          if b then Ok (Some i) else scan_for_address rest address (S i)
      | None => scan_for_address rest address (S i)
      end
  end.

Definition getTableEntryByAddress (self : t) (address : Z) : result (option nat) :=
  scan_for_address (table self) address 0%nat.

(** [tableIsFull] *)
Definition tableIsFull (self : t) : bool :=
  forallb PageTableEntry.hasPage (table self).

(** [load]: the first entry without a page receives the page of
    [address]; the result is the table and the position of that
    entry. *)
Fixpoint load_scan (tbl : list PageTableEntry.t) (address : Z) (i : nat)
    : result (list PageTableEntry.t * nat) :=
  match tbl with
  | [] => Raise RuntimeError
  | entry :: rest =>
      if negb (PageTableEntry.hasPage entry) then
        let* e := PageTableEntry.setPage entry address in
        Ok (e :: rest, i)
      else
        let* ' (rest', j) := load_scan rest address (S i) in
        Ok (entry :: rest', j)
  end.

Definition load (self : t) (address : Z) : result (t * nat) :=
  let* ' (tbl, i) := load_scan (table self) address 0%nat in
  Ok (with_table self tbl, i).

(** [clearEntry], on the entry at position [i]. *)
Definition clearEntry (self : t) (i : nat) : result t :=
  let* entry := entry_at self i in
  let self1 :=
    if PageTableEntry.isDirty entry
    then with_writes_to_disk self (writes_to_disk self + 1)
    else self in
  Ok (with_table self1 (<[i := PageTableEntry.clear entry]> (table self1))).

(** [findFirstElementGreaterThan]: the [while] loop, then the
    function. *)
Fixpoint search_loop (fuel : nat) (array : list Z) (index l r ans : Z)
    : option (result Z) :=
  match fuel with
  | O => None
  | S fuel' =>
      if l <=? r then
        let mid := l + (r - l) / 2 in
        match getitem array mid with
        | Raise e => Some (Raise e)
        | Ok a =>
            if a <=? index
            then search_loop fuel' array index (mid + 1) r ans
            else search_loop fuel' array index l (mid - 1) mid
        end
      else Some (Ok ans)
  end.

Definition findFirstElementGreaterThan (array : list Z) (index : Z) : result Z :=
  run_loop (search_loop (S (length array)) array index
              0 (Z.of_nat (length array) - 1) (-1)).

(** [self.trace_indices[page_table_entry.getPage().getPageNumber()]] *)
Definition page_used_at (self : t) (page_table_entry : PageTableEntry.t)
    : result (list Z) :=
  match PageTableEntry.getPage page_table_entry with
  | None => Raise AttributeError
  | Some p =>
      match trace_indices self !! Page.getPageNumber p with
      | None => Raise KeyError
      | Some l => Ok l
      end
  end.

Definition entryNextUsedAt (self : t) (page_table_entry : PageTableEntry.t)
    (index : Z) : result Z :=
  let* used_at := page_used_at self page_table_entry in
  let* first_element_greater_than := findFirstElementGreaterThan used_at index in
  if first_element_greater_than =? -1 then Raise ValueError
  else
    let* i := findFirstElementGreaterThan used_at index in
    getitem used_at i.

Definition entryIsNotUsedAgain (self : t) (page_table_entry : PageTableEntry.t)
    (index : Z) : result bool :=
  let* used_at := page_used_at self page_table_entry in
  let* last := getitem used_at (-1) in
  Ok (last <? index).

(** The entries of [self.table], each with its position: a reference
    to an entry object. *)
Definition entries (self : t) : list (nat * PageTableEntry.t) :=
  imap pair (table self).

(** The scan both [OptimalTable.evict] and [LRUTable.evict] make:
    [least_recently_used = first], then every later entry with a
    strictly smaller [most_recent_access] replaces it. *)
Definition lru_scan (first : nat * PageTableEntry.t)
    (rest : list (nat * PageTableEntry.t)) : nat * PageTableEntry.t :=
  foldl (fun least_recently_used entry =>
           if PageTableEntry.most_recent_access entry.2
              <? PageTableEntry.most_recent_access least_recently_used.2
           then entry else least_recently_used)
        first rest.

(** *** class OptimalTable(PageTable) *)

Module OptimalTable.

(** The position of the entry [evict] clears. *)
Definition victim (self : t) (index : Z) : result nat :=
  let* never_used_again :=
    filterM (fun e => entryIsNotUsedAgain self e.2 index) (entries self) in
  match never_used_again with
  | first :: rest => Ok (lru_scan first rest).1
  | [] =>
      let* next_used := mapM (fun e => entryNextUsedAt self e index) (table self) in
      let* m := pymax next_used in
      pyindex next_used m
  end.

Definition evict (self : t) (index : Z) : result t :=
  let* victim := victim self index in
  clearEntry self victim.

End OptimalTable.

(** *** class LRUTable(PageTable) *)

Module LRUTable.

(** The position of the entry [evict] clears. *)
Definition victim (self : t) : result nat :=
  match entries self with
  | [] => Raise IndexError
  | first :: rest => Ok (lru_scan first rest).1
  end.

Definition evict (self : t) (index : Z) : result t :=
  let* victim := victim self in
  clearEntry self victim.

End LRUTable.

(** *** class SecondChanceTable(PageTable) *)

Module SecondChanceTable.

(** The [while] loop of [evict], then the method. *)
Fixpoint evict_loop (fuel : nat) (self : t) : option (result t) :=
  match fuel with
  | O => None
  | S fuel' =>
      match pymod (round_robin_index self + 1) (size self) with
      | Raise e => Some (Raise e)
      | Ok i =>
          let self1 := with_round_robin_index self i in
          match getitem (table self1) i with
          | Raise e => Some (Raise e)
          | Ok entry =>
              let pos :=
                Z.to_nat (if i <? 0 then i + Z.of_nat (length (table self1))
                          else i) in
              if PageTableEntry.hasSecondChance entry then
                evict_loop fuel'
                  (with_table self1
                     (<[pos := PageTableEntry.losesChance entry]> (table self1)))
              else Some (clearEntry self1 pos)
          end
      end
  end.

Definition evict (self : t) (index : Z) : result t :=
  run_loop (evict_loop (S (length (table self))) self).

End SecondChanceTable.

(** *** The methods of [PageTable] that call [self.evict] *)

(** [self.evict(index)], by the class of [self]. *)
Definition evict (self : t) (index : Z) : result t :=
  match cls self with
  | OptimalTable => OptimalTable.evict self index
  | LRUTable => LRUTable.evict self index
  | SecondChanceTable => SecondChanceTable.evict self index
  end.

Definition evictAndLoad (self : t) (address index : Z) : result (t * nat) :=
  if tableIsFull self then
    let* self1 := evict self index in
    load self1 address
  else load self address.

Definition query (self : t) (address : Z) (access_type : string) (index : Z)
    : result t :=
  let* pte := getTableEntryByAddress self address in
  match pte with
  | Some i =>
      let* entry := entry_at self i in
      let* entry1 := PageTableEntry.access entry access_type index in
      Ok (with_table self
            (<[i := PageTableEntry.set_second_chance entry1]> (table self)))
  | None =>
      let* ' (self1, i) := evictAndLoad self address index in
      let* entry := entry_at self1 i in
      let* entry1 := PageTableEntry.access entry access_type index in
      let self2 := with_table self1 (<[i := entry1]> (table self1)) in
      Ok (with_page_faults self2 (page_faults self2 + 1))
  end.

End PageTable.

(** ** class VirtualMemorySimulator *)

(** A record of the trace file, split at its blank: the access type
    and the address (already read as a hexadecimal number). *)
Abbreviation mem_access := (string * Z)%type.

Module VirtualMemorySimulator.

Record t : Type := mk {
  source_file : list mem_access;
  offset_bits : Z;
  mem_accesses : Z;
  page_table : PageTable.t
}.

Record statistics : Type := mk_statistics {
  memory_accesses : Z;
  page_faults : Z;
  writes_to_disk : Z
}.

(** The loop of [__init__] from position [index] on: count the
    records and, for ['opt'], append each position to the list of its
    page. *)
Fixpoint index_trace (opt : bool) (offset_bits : Z) (file : list mem_access)
    (index : Z) (mem_accesses : Z) (trace_indices : gmap Z (list Z))
    : result (Z * gmap Z (list Z)) :=
  match file with
  | [] => Ok (mem_accesses, trace_indices)
  | (_, address) :: rest =>
      if opt then
        let* page_number := rshift address offset_bits in
        let trace_indices1 :=
          match trace_indices !! page_number with
          | Some l => <[page_number := l ++ [index]]> trace_indices
          | None => <[page_number := [index]]> trace_indices
          end in
        index_trace opt offset_bits rest (index + 1) (mem_accesses + 1) trace_indices1
      else
        index_trace opt offset_bits rest (index + 1) (mem_accesses + 1) trace_indices
  end.

Definition createPageTable (num_frames offset_bits : Z) (eviction_type : string)
    (trace_indices : gmap Z (list Z)) : result PageTable.t :=
  if String.eqb eviction_type "opt"%string then
    Ok (PageTable.init OptimalTable num_frames offset_bits trace_indices)
  else if String.eqb eviction_type "lru"%string then
    Ok (PageTable.init LRUTable num_frames offset_bits trace_indices)
  else if String.eqb eviction_type "second"%string then
    Ok (PageTable.init SecondChanceTable num_frames offset_bits trace_indices)
  else Raise ValueError.

(** [__init__] *)
Definition init (trace_file : list mem_access) (num_frames : Z)
    (eviction_type : string) (offset_bits : Z) : result t :=
  let* ' (mem_accesses, trace_indices) :=
    index_trace (String.eqb eviction_type "opt"%string) offset_bits trace_file 0 0 ∅ in
  let* page_table := createPageTable num_frames offset_bits eviction_type trace_indices in
  Ok {| source_file := trace_file; offset_bits := offset_bits;
        mem_accesses := mem_accesses; page_table := page_table |}.

(** The loop of [run] from position [index] on. *)
Fixpoint replay (file : list mem_access) (index : Z) (page_table : PageTable.t)
    : result PageTable.t :=
  match file with
  | [] => Ok page_table
  | (access_type, address) :: rest =>
      let* page_table1 := PageTable.query page_table address access_type index in
      replay rest (index + 1) page_table1
  end.

Definition run (self : t) : result statistics :=
  let* page_table1 := replay (source_file self) 0 (page_table self) in
  Ok {| memory_accesses := mem_accesses self;
        page_faults := PageTable.page_faults page_table1;
        writes_to_disk := PageTable.writes_to_disk page_table1 |}.

(** The main program: build the simulator, run it. *)
Definition simulate (trace_file : list mem_access) (num_frames : Z)
    (mode : string) (offset_bits : Z) : result statistics :=
  let* simulator := init trace_file num_frames mode offset_bits in
  run simulator.

End VirtualMemorySimulator.

(** * The vocabulary of the properties *)

(** ** Entries, frames and the invariant of a table *)

Abbreviation mra := PageTableEntry.most_recent_access.

(** The page number an entry holds, if any. *)
Definition page_number_of (e : PageTableEntry.t) : option Z :=
  Page.getPageNumber <$> PageTableEntry.getPage e.

(** The page numbers in memory, in the order of their frames. *)
Definition resident (self : PageTable.t) : list Z :=
  omap page_number_of (PageTable.table self).

(** The page number in each frame. *)
Definition frames (self : PageTable.t) : list (option Z) :=
  page_number_of <$> PageTable.table self.

(** The entry [setPage] makes of [e] for page [q]. *)
Definition loaded (q : Z) (e : PageTableEntry.t) : PageTableEntry.t :=
  {| PageTableEntry.offset := PageTableEntry.offset e;
     PageTableEntry.page := Some (Page.mk (PageTableEntry.offset e) q);
     PageTableEntry.dirty := PageTableEntry.dirty e;
     PageTableEntry.most_recent_access := PageTableEntry.most_recent_access e;
     PageTableEntry.num_accesses := PageTableEntry.num_accesses e;
     PageTableEntry.second_chance := false |}.

(** An entry without a page, as an eviction leaves it: of [e] it keeps
    the offset width; [flag] is its second-chance flag. *)
Definition freed (e : PageTableEntry.t) (flag : bool) : PageTableEntry.t :=
  {| PageTableEntry.offset := PageTableEntry.offset e;
     PageTableEntry.page := None;
     PageTableEntry.dirty := false;
     PageTableEntry.most_recent_access := 0;
     PageTableEntry.num_accesses := 0;
     PageTableEntry.second_chance := flag |}.

(** The entry [e] with its second-chance flag not set, and nothing
    else changed. *)
Definition unflagged (e : PageTableEntry.t) : PageTableEntry.t :=
  {| PageTableEntry.offset := PageTableEntry.offset e;
     PageTableEntry.page := PageTableEntry.page e;
     PageTableEntry.dirty := PageTableEntry.dirty e;
     PageTableEntry.most_recent_access := PageTableEntry.most_recent_access e;
     PageTableEntry.num_accesses := PageTableEntry.num_accesses e;
     PageTableEntry.second_chance := false |}.

(** An entry as [__init__] and [setPage] leave it: its page, if any,
    has the offset width of the entry; without a page, every other
    attribute has its initial value. *)
Definition entry_ok (off : Z) (e : PageTableEntry.t) : Prop :=
  PageTableEntry.offset e = off /\
  match PageTableEntry.page e with
  | Some p => Page.offset p = off
  | None =>
      PageTableEntry.dirty e = false /\
      PageTableEntry.most_recent_access e = 0 /\
      PageTableEntry.num_accesses e = 0 /\
      PageTableEntry.second_chance e = false
  end.

(** The offset widths alone, which also hold inside a query. *)
Definition entry_offsets (off : Z) (e : PageTableEntry.t) : Prop :=
  PageTableEntry.offset e = off /\
  forall p, PageTableEntry.page e = Some p -> Page.offset p = off.

(** The invariant of a table between two queries. *)
Definition table_ok (off n : Z) (self : PageTable.t) : Prop :=
  PageTable.size self = n /\
  length (PageTable.table self) = Z.to_nat n /\
  Forall (entry_ok off) (PageTable.table self) /\
  NoDup (resident self).

(** What an eviction does to the table: the entry at position [v] is
    cleared, and no other entry changes, except that the second-chance
    scan may have set its flag to false. *)
Definition evicted (self : PageTable.t) (v : nat) (self1 : PageTable.t) : Prop :=
  exists e e0,
    PageTable.table self !! v = Some e /\
    (e0 = e \/ e0 = PageTableEntry.losesChance e) /\
    (PageTable.cls self = SecondChanceTable -> e0 = PageTableEntry.losesChance e) /\
    PageTable.table self1 !! v = Some (PageTableEntry.clear e0) /\
    length (PageTable.table self1) = length (PageTable.table self) /\
    (forall p, p <> v ->
       PageTable.table self1 !! p = PageTable.table self !! p \/
       PageTable.table self1 !! p
         = PageTableEntry.losesChance <$> PageTable.table self !! p) /\
    PageTable.writes_to_disk self1
      = PageTable.writes_to_disk self + (if PageTableEntry.dirty e then 1 else 0) /\
    PageTable.page_faults self1 = PageTable.page_faults self /\
    PageTable.cls self1 = PageTable.cls self /\
    PageTable.size self1 = PageTable.size self /\
    PageTable.trace_indices self1 = PageTable.trace_indices self.

(** Every attribute of an entry without a page has its initial
    value. *)
Definition free_entries_default (pt : PageTable.t) : Prop :=
  forall e, e ∈ PageTable.table pt -> PageTableEntry.page e = None ->
    PageTableEntry.dirty e = false /\
    PageTableEntry.most_recent_access e = 0 /\
    PageTableEntry.num_accesses e = 0 /\
    PageTableEntry.second_chance e = false.

(** ** The least-recently-used scan *)

(** The order of the entries in [self.table]. *)
Definition by_position (a b : nat * PageTableEntry.t) : Prop :=
  (a.1 < b.1)%nat.

(** ** The second-chance scan *)

(** The table has as many entries as [self.size] says, and at least
    one: what [__init__] builds from a positive number of frames. *)
Definition sized (self : PageTable.t) : Prop :=
  PageTable.size self = Z.of_nat (length (PageTable.table self)) /\
  (0 < length (PageTable.table self))%nat.

(** The position the cursor reaches with its [j+1]-th advance. *)
Definition cursor (self : PageTable.t) (j : nat) : nat :=
  Z.to_nat ((PageTable.round_robin_index self + 1 + Z.of_nat j)
            mod PageTable.size self).

(** The second-chance flag of the entry at position [p]. *)
Definition chance (self : PageTable.t) (p : nat) : bool :=
  match PageTable.table self !! p with
  | Some e => PageTableEntry.hasSecondChance e
  | None => false
  end.

(** The number of entries whose flag is set. *)
Definition chances (tbl : list PageTableEntry.t) : nat :=
  length (filter (fun e => PageTableEntry.second_chance e = true) tbl).

(** What a scan that skips [k] entries and then clears one leaves
    behind. *)
Definition scan_outcome (self : PageTable.t) (k : nat) (self' : PageTable.t) : Prop :=
  (k <= length (PageTable.table self))%nat /\
  (forall j, (j < k)%nat -> chance self (cursor self j) = true) /\
  ((k < length (PageTable.table self))%nat -> chance self (cursor self k) = false) /\
  PageTable.round_robin_index self' = Z.of_nat (cursor self k) /\
  length (PageTable.table self') = length (PageTable.table self) /\
  (exists e,
     PageTable.table self !! cursor self k = Some e /\
     PageTable.table self' !! cursor self k
       = Some (PageTableEntry.clear (PageTableEntry.losesChance e)) /\
     PageTable.writes_to_disk self'
       = PageTable.writes_to_disk self + (if PageTableEntry.dirty e then 1 else 0)) /\
  (forall j, (j < k)%nat -> cursor self j <> cursor self k ->
     PageTable.table self' !! cursor self j
       = PageTableEntry.losesChance <$> PageTable.table self !! cursor self j) /\
  (forall p, p <> cursor self k -> (forall j, (j < k)%nat -> cursor self j <> p) ->
     PageTable.table self' !! p = PageTable.table self !! p) /\
  PageTable.cls self' = PageTable.cls self /\
  PageTable.size self' = PageTable.size self /\
  PageTable.page_faults self' = PageTable.page_faults self /\
  PageTable.trace_indices self' = PageTable.trace_indices self.

(** ** Runs *)

(** A record whose access type [PageTableEntry.access] accepts. *)
Definition valid_access (r : mem_access) : Prop :=
  r.1 = "l"%string \/ r.1 = "s"%string.

(** The tables a run goes through between two queries: the one
    [__init__] builds, and the one each query of [run] leaves. *)
Definition between_queries (file : list mem_access) (num_frames : Z)
    (mode : string) (offset_bits : Z) (pt : PageTable.t) : Prop :=
  exists sim done rest,
    VirtualMemorySimulator.init file num_frames mode offset_bits = Ok sim /\
    file = done ++ rest /\
    VirtualMemorySimulator.replay done 0 (VirtualMemorySimulator.page_table sim)
      = Ok pt.

(** The tables a run goes through inside a query, where [evict] has
    returned and [load] has not yet been called. *)
Definition after_eviction (file : list mem_access) (num_frames : Z)
    (mode : string) (offset_bits : Z) (pt1 : PageTable.t) : Prop :=
  exists sim done access_type address rest pt,
    VirtualMemorySimulator.init file num_frames mode offset_bits = Ok sim /\
    file = done ++ (access_type, address) :: rest /\
    VirtualMemorySimulator.replay done 0 (VirtualMemorySimulator.page_table sim)
      = Ok pt /\
    PageTable.getTableEntryByAddress pt address = Ok None /\
    PageTable.tableIsFull pt = true /\
    PageTable.evict pt (Z.of_nat (length done)) = Ok pt1.

(** ** The index of future accesses *)

(** The page of a record. *)
Definition page_of (off : Z) (r : mem_access) : Z := Z.shiftr r.2 off.

(** The positions, counted from [index], of the records of [file]
    whose page is [q]. *)
Fixpoint occurrences (off q : Z) (file : list mem_access) (index : Z) : list Z :=
  match file with
  | [] => []
  | r :: rest =>
      if page_of off r =? q
      then index :: occurrences off q rest (index + 1)
      else occurrences off q rest (index + 1)
  end.

(** An entry whose page is never used again: the last position
    recorded for its page is not after [index]. *)
Definition never_used_again (pt : PageTable.t) (index : Z)
    (e : PageTableEntry.t) : Prop :=
  exists used last,
    PageTable.page_used_at pt e = Ok used /\
    getitem used (-1) = Ok last /\
    last <= index.

(** The positions at which the page of an entry is accessed. *)
Definition used_at (off : Z) (file : list mem_access) (e : PageTableEntry.t)
    : list Z :=
  match page_number_of e with
  | Some q => occurrences off q file 0
  | None => []
  end.

(** The value of [entryIsNotUsedAgain] at [index]. *)
Definition never_again (off index : Z) (file : list mem_access)
    (e : PageTableEntry.t) : bool :=
  match last (used_at off file e) with
  | Some x => x <? index
  | None => false
  end.

(** The value of [entryNextUsedAt] at [index]. *)
Definition next_use (off index : Z) (file : list mem_access)
    (e : PageTableEntry.t) : Z :=
  match list_find (fun x => index < x) (used_at off file e) with
  | Some (_, x) => x
  | None => 0
  end.

(** ** Demand paging *)

(** The number of pages of [X] that occur in [w]. *)
Definition seen_in (w X : list Z) : nat :=
  length (filter (fun x => x ∈ w) X).

(** 1 when [p] occurs in [w], 0 otherwise. *)
Definition occurs (w : list Z) (p : Z) : nat :=
  if decide (p ∈ w) then 1%nat else 0%nat.

(** A run of any policy that loads a page only when it is accessed
    and misses, keeping at most [k] pages: the pages in memory before
    the accesses [s], and the number of misses. *)
Inductive demand_run (k : nat) : list Z -> list Z -> nat -> Prop :=
| demand_nil T : demand_run k T [] 0
| demand_hit T p s c :
    p ∈ T -> demand_run k T s c -> demand_run k T (p :: s) c
| demand_miss T T' p s c :
    p ∉ T -> p ∈ T' -> T' ⊆ p :: T -> NoDup T' -> (length T' <= k)%nat ->
    demand_run k T' s c -> demand_run k T (p :: s) (S c).

(** [f] is accessed no sooner than any page of [R] in [s]: every
    prefix of [s] that has [f] has all of [R]. *)
Definition furthest (f : Z) (R s : list Z) : Prop :=
  forall m, f ∈ take m s -> forall x, x ∈ R -> x ∈ take m s.

(** A run that, on a miss with all [k] frames taken, replaces a page
    accessed furthest in the future. *)
Inductive furthest_run (k : nat) : list Z -> list Z -> nat -> Prop :=
| furthest_nil S0 : furthest_run k S0 [] 0
| furthest_hit S0 p s c :
    p ∈ S0 -> furthest_run k S0 s c -> furthest_run k S0 (p :: s) c
| furthest_free S0 S' p s c :
    p ∉ S0 -> (length S0 < k)%nat -> S' ≡ₚ p :: S0 ->
    furthest_run k S' s c -> furthest_run k S0 (p :: s) (S c)
| furthest_evict S0 S' f R p s c :
    p ∉ S0 -> length S0 = k -> S0 ≡ₚ f :: R -> furthest f R s ->
    S' ≡ₚ p :: R ->
    furthest_run k S' s c -> furthest_run k S0 (p :: s) (S c).

(** ** Runs, record by record *)

(** The table a run has reached when the records [done] of the trace
    have been replayed. *)
Definition replayed (file : list mem_access) (num_frames : Z) (mode : string)
    (offset_bits : Z) (done : list mem_access) (pt : PageTable.t) : Prop :=
  exists sim rest,
    VirtualMemorySimulator.init file num_frames mode offset_bits = Ok sim /\
    file = done ++ rest /\
    VirtualMemorySimulator.replay done 0 (VirtualMemorySimulator.page_table sim)
      = Ok pt.

(** Position [i] is the last of [pages] that holds [q]. *)
Definition last_access_at (pages : list Z) (q : Z) (i : nat) : Prop :=
  pages !! i = Some q /\ forall j, (i < j)%nat -> pages !! j <> Some q.

(** The number of store records. *)
Definition stores (file : list mem_access) : nat :=
  length (filter (fun r => r.1 = "s"%string) file).

(** The number of dirty entries. *)
Definition dirty_entries (tbl : list PageTableEntry.t) : nat :=
  length (filter (fun e => PageTableEntry.dirty e = true) tbl).

(** The number of distinct pages the records access. *)
Definition distinct_pages (off : Z) (file : list mem_access) : nat :=
  length (remove_dups (page_of off <$> file)).

(** The number of records whose page is not the page of the record
    before them, the first record after [previous]. *)
Fixpoint page_changes (previous : option Z) (pages : list Z) : nat :=
  match pages with
  | [] => 0
  | p :: rest =>
      ((if decide (previous = Some p) then 0 else 1)
       + page_changes (Some p) rest)%nat
  end.

(** ** Termination *)

(** A computation whose [while] loops ended within the bound on
    their iterations: it returned or raised a Python exception. *)
Definition terminates {A : Type} (r : result A) : Prop :=
  r <> Raise OutOfFuel.

(** ** Example tables and traces *)

(** The trace of the scenario of the specification. *)
Definition scenario : list mem_access :=
  [("l"%string, 0x1000); ("l"%string, 0x2000); ("l"%string, 0x3000);
   ("l"%string, 0x1000)].

(** A load, a hit on it, and a miss. *)
Definition hit_then_miss : list mem_access :=
  [("l"%string, 0x1000); ("l"%string, 0x1000); ("l"%string, 0x2000)].

(** The table [hit_then_miss] leaves, with one frame under LRU, when
    [evict] returns inside the third query. *)
Definition freed_table : PageTable.t :=
  {| PageTable.cls := LRUTable; PageTable.size := 1;
     PageTable.table := [ PageTableEntry.mk 12 None false 0 0 true ];
     PageTable.page_faults := 1; PageTable.writes_to_disk := 0;
     PageTable.trace_indices := ∅; PageTable.round_robin_index := -1 |}.

(** The table [scenario] leaves, with two frames under LRU, after its
    first two records. *)
Definition two_loaded : PageTable.t :=
  {| PageTable.cls := LRUTable; PageTable.size := 2;
     PageTable.table :=
       [ PageTableEntry.mk 12 (Some (Page.mk 12 1)) false 0 1 false;
         PageTableEntry.mk 12 (Some (Page.mk 12 2)) false 1 1 false ];
     PageTable.page_faults := 2; PageTable.writes_to_disk := 0;
     PageTable.trace_indices := ∅; PageTable.round_robin_index := -1 |}.

(** A full table with two entries sharing the smallest
    [most_recent_access]. *)
Definition lru_example : PageTable.t :=
  {| PageTable.cls := LRUTable; PageTable.size := 3;
     PageTable.table :=
       [ PageTableEntry.mk 12 (Some (Page.mk 12 7)) false 5 1 false;
         PageTableEntry.mk 12 (Some (Page.mk 12 8)) true 2 0 true;
         PageTableEntry.mk 12 (Some (Page.mk 12 9)) false 2 1 false ];
     PageTable.page_faults := 3; PageTable.writes_to_disk := 0;
     PageTable.trace_indices := ∅; PageTable.round_robin_index := -1 |}.

(** A table whose only page is accessed at positions 2, 5, 9 and 11. *)
Definition opt_example : PageTable.t :=
  {| PageTable.cls := OptimalTable; PageTable.size := 1;
     PageTable.table :=
       [ PageTableEntry.mk 12 (Some (Page.mk 12 7)) false 5 1 false ];
     PageTable.page_faults := 1; PageTable.writes_to_disk := 0;
     PageTable.trace_indices := {[ 7 := [2; 5; 9; 11] ]};
     PageTable.round_robin_index := -1 |}.

(** A full table with the cursor on its second entry and two flags set. *)
Definition second_chance_example : PageTable.t :=
  {| PageTable.cls := SecondChanceTable; PageTable.size := 3;
     PageTable.table :=
       [ PageTableEntry.mk 12 (Some (Page.mk 12 7)) false 5 1 true;
         PageTableEntry.mk 12 (Some (Page.mk 12 8)) true 2 0 false;
         PageTableEntry.mk 12 (Some (Page.mk 12 9)) false 4 1 true ];
     PageTable.page_faults := 3; PageTable.writes_to_disk := 0;
     PageTable.trace_indices := ∅; PageTable.round_robin_index := 1 |}.

(** Two stores to one page, each followed by a load of another page. *)
Definition stores_example : list mem_access :=
  [("s"%string, 0x1000); ("l"%string, 0x2000); ("s"%string, 0x1004);
   ("l"%string, 0x3000)].

(** A full table on which every flag is set, with the cursor on its
    first entry. *)
Definition all_flagged_example : PageTable.t :=
  {| PageTable.cls := SecondChanceTable; PageTable.size := 2;
     PageTable.table :=
       [ PageTableEntry.mk 12 (Some (Page.mk 12 7)) false 5 1 true;
         PageTableEntry.mk 12 (Some (Page.mk 12 8)) true 6 0 true ];
     PageTable.page_faults := 2; PageTable.writes_to_disk := 0;
     PageTable.trace_indices := ∅; PageTable.round_robin_index := 0 |}.

(** * Properties *)

(** ** The error monad *)

Lemma bind_Ok {A B : Type} (c : result A) (k : A -> result B) (b : B) :
  bind c k = Ok b -> exists a, c = Ok a /\ k a = Ok b.
Proof. destruct c as [a|e]; simpl; [eauto | discriminate]. Qed.

Tactic Notation "inv_bind" hyp(H) "as" simple_intropattern(a) simple_intropattern(Ha) :=
  apply bind_Ok in H as (a & Ha & H).

Lemma getitem_nat {A : Type} (l : list A) (i : nat) (x : A) :
  l !! i = Some x -> getitem l (Z.of_nat i) = Ok x.
Proof.
  intros Hl. pose proof (lookup_lt_Some _ _ _ Hl) as Hlt.
  unfold getitem.
  destruct (Z.ltb_spec (Z.of_nat i) 0) as [?|_]; [lia|].
  destruct (Z.ltb_spec (Z.of_nat i) 0) as [?|_]; [lia|].
  destruct (Z.leb_spec (Z.of_nat (length l)) (Z.of_nat i)) as [?|_]; [lia|].
  simpl. rewrite Nat2Z.id, Hl. reflexivity.
Qed.

Lemma getitem_Ok {A : Type} (l : list A) (i : Z) (x : A) :
  0 <= i -> getitem l i = Ok x -> l !! Z.to_nat i = Some x.
Proof.
  intros Hi. unfold getitem.
  destruct (Z.ltb_spec i 0) as [?|_]; [lia|].
  destruct (_ || _); [discriminate|].
  destruct (l !! Z.to_nat i); [|discriminate]. congruence.
Qed.

(** ** The least-recently-used scan *)

Lemma lru_scan_snoc first rest x :
  PageTable.lru_scan first (rest ++ [x]) =
  if mra x.2 <? mra (PageTable.lru_scan first rest).2
  then x else PageTable.lru_scan first rest.
Proof. unfold PageTable.lru_scan. rewrite foldl_snoc. reflexivity. Qed.

(** The scan returns the candidate with the smallest
    [most_recent_access]; among several, the one at the earliest
    position. *)
Lemma lru_scan_spec first rest :
  StronglySorted by_position (first :: rest) ->
  PageTable.lru_scan first rest ∈ first :: rest /\
  forall c, c ∈ first :: rest ->
    mra (PageTable.lru_scan first rest).2 <= mra c.2 /\
    ((c.1 < (PageTable.lru_scan first rest).1)%nat ->
     mra (PageTable.lru_scan first rest).2 < mra c.2).
Proof.
  induction rest as [|x rest IH] using rev_ind; intros Hs.
  - simpl. split; [left|].
    intros c Hc. apply list_elem_of_singleton in Hc as ->. lia.
  - change (first :: rest ++ [x]) with ((first :: rest) ++ [x]) in *.
    apply StronglySorted_app in Hs as (Hlt & Hs & _).
    destruct (IH Hs) as (Hin & Hmin).
    rewrite lru_scan_snoc.
    destruct (Z.ltb_spec (mra x.2) (mra (PageTable.lru_scan first rest).2))
      as [Hx|Hx].
    + split; [apply elem_of_app; right; left|].
      intros c [Hc| ->%list_elem_of_singleton]%elem_of_app; [|lia].
      destruct (Hmin c Hc). lia.
    + split; [apply elem_of_app; left; exact Hin|].
      intros c [Hc| ->%list_elem_of_singleton]%elem_of_app; [auto|].
      split; [lia|]. intros Hpos.
      assert (by_position (PageTable.lru_scan first rest) x) as Hb.
      { apply Hlt; [exact Hin | left]. }
      unfold by_position in Hb. lia.
Qed.

Lemma imap_pair_sorted (l : list PageTableEntry.t) (k : nat) :
  StronglySorted by_position (imap (fun i => pair (k + i)%nat) l).
Proof.
  revert k. induction l as [|x l IH]; intros k; simpl; [constructor|].
  constructor.
  - erewrite imap_ext; [apply (IH (S k))|].
    intros i y _. simpl. f_equal. lia.
  - apply Forall_forall. intros c (i & y & -> & _)%elem_of_lookup_imap_1.
    unfold by_position. simpl. lia.
Qed.

Lemma entries_sorted self : StronglySorted by_position (PageTable.entries self).
Proof. apply (imap_pair_sorted (PageTable.table self) 0). Qed.

Lemma elem_of_entries self i e :
  (i, e) ∈ PageTable.entries self <-> PageTable.table self !! i = Some e.
Proof.
  unfold PageTable.entries. rewrite elem_of_lookup_imap. split.
  - intros (j & y & Heq & Hl). congruence.
  - intros Hl. eauto.
Qed.

Lemma entries_nil self :
  PageTable.entries self = [] -> PageTable.table self = [].
Proof.
  unfold PageTable.entries. destruct (PageTable.table self); [done|].
  discriminate.
Qed.

(** ** C3: the LRU policy *)

(** What [clearEntry] does to the table: the entry at position [v]
    is left without a page and with its other attributes reset, its
    flag apart; no other entry changes; [writes_to_disk] counts the
    entry if it was dirty. *)
Lemma clearEntry_freed self v e :
  PageTable.table self !! v = Some e ->
  exists self1,
    PageTable.clearEntry self v = Ok self1 /\
    PageTable.table self1
      = <[v := freed e (PageTableEntry.second_chance e)]> (PageTable.table self) /\
    frames self1 = <[v := None]> (frames self) /\
    PageTable.writes_to_disk self1
      = PageTable.writes_to_disk self
        + (if PageTableEntry.dirty e then 1 else 0) /\
    PageTable.page_faults self1 = PageTable.page_faults self /\
    PageTable.cls self1 = PageTable.cls self /\
    PageTable.size self1 = PageTable.size self /\
    PageTable.trace_indices self1 = PageTable.trace_indices self /\
    PageTable.round_robin_index self1 = PageTable.round_robin_index self.
Proof.
  intros He. unfold PageTable.clearEntry, PageTable.entry_at. rewrite He. simpl.
  unfold PageTableEntry.isDirty.
  eexists. split; [reflexivity|].
  destruct (PageTableEntry.dirty e); simpl;
    (split; [reflexivity|]);
    (split; [unfold frames; simpl; rewrite list_fmap_insert; reflexivity|]);
    repeat split; lia.
Qed.

(** C3.  [LRUTable.evict] on a non-empty table (a full one in
    particular) evicts the entry with the smallest
    [most_recent_access]; when several entries share that smallest
    value, it evicts the one at the earliest position in [self.table].
    Evicting the entry at position [v] leaves the table with that
    entry without a page, its other attributes reset (its flag
    apart), and every other entry as it was; [writes_to_disk] grows by
    one when the entry was dirty. *)
Theorem lru_evicts_first_minimum (self : PageTable.t) (index : Z) :
  PageTable.table self <> [] ->
  exists v e self1,
    PageTable.LRUTable.victim self = Ok v /\
    PageTable.LRUTable.evict self index = PageTable.clearEntry self v /\
    PageTable.table self !! v = Some e /\
    (forall j e', PageTable.table self !! j = Some e' ->
       mra e <= mra e' /\ ((j < v)%nat -> mra e < mra e')) /\
    PageTable.LRUTable.evict self index = Ok self1 /\
    PageTable.table self1
      = <[v := freed e (PageTableEntry.second_chance e)]> (PageTable.table self) /\
    frames self1 = <[v := None]> (frames self) /\
    PageTable.writes_to_disk self1
      = PageTable.writes_to_disk self
        + (if PageTableEntry.dirty e then 1 else 0) /\
    PageTable.page_faults self1 = PageTable.page_faults self.
Proof.
  intros Hne. unfold PageTable.LRUTable.evict, PageTable.LRUTable.victim.
  pose proof (entries_sorted self) as Hs.
  destruct (PageTable.entries self) as [|first rest] eqn:He.
  { apply entries_nil in He. contradiction. }
  destruct (lru_scan_spec first rest Hs) as (Hin & Hmin).
  destruct (PageTable.lru_scan first rest) as [v e] eqn:Hr.
  rewrite <- He in Hin, Hmin. apply elem_of_entries in Hin.
  destruct (clearEntry_freed self v e Hin)
    as (self1 & Hclear & Htbl & Hfr & Hw & Hpf & _).
  exists v, e, self1. simpl.
  split; [reflexivity|]. split; [reflexivity|]. split; [exact Hin|].
  split.
  { intros j e' Hj. apply elem_of_entries in Hj. apply (Hmin _ Hj). }
  auto.
Qed.

Lemma lru_evicts_first_minimum_witness :
  exists v e self1,
    PageTable.LRUTable.victim lru_example = Ok v /\
    PageTable.LRUTable.evict lru_example 6 = PageTable.clearEntry lru_example v /\
    PageTable.table lru_example !! v = Some e /\
    (forall j e', PageTable.table lru_example !! j = Some e' ->
       mra e <= mra e' /\ ((j < v)%nat -> mra e < mra e')) /\
    PageTable.LRUTable.evict lru_example 6 = Ok self1 /\
    PageTable.table self1
      = <[v := freed e (PageTableEntry.second_chance e)]>
          (PageTable.table lru_example) /\
    frames self1 = <[v := None]> (frames lru_example) /\
    PageTable.writes_to_disk self1
      = PageTable.writes_to_disk lru_example
        + (if PageTableEntry.dirty e then 1 else 0) /\
    PageTable.page_faults self1 = PageTable.page_faults lru_example.
Proof. apply (lru_evicts_first_minimum lru_example 6). discriminate. Defined.

(** ** C7: the scenario of the specification *)

(** C7.  With 12 offset bits and 2 frames, the trace [l 0x1000],
    [l 0x2000], [l 0x3000], [l 0x1000] gives 4 page faults and no write
    to disk under LRU, and 3 page faults and no write to disk under
    OPT: there the access at index 2 evicts page 2 (the frames then
    hold pages 1 and 3) and the last access finds its page at
    position 0. *)
Theorem scenario_statistics :
  VirtualMemorySimulator.simulate scenario 2 "lru" 12
    = Ok (VirtualMemorySimulator.mk_statistics 4 4 0) /\
  VirtualMemorySimulator.simulate scenario 2 "opt" 12
    = Ok (VirtualMemorySimulator.mk_statistics 4 3 0) /\
  exists sim pt,
    VirtualMemorySimulator.init scenario 2 "opt" 12 = Ok sim /\
    VirtualMemorySimulator.replay (take 3 scenario) 0
      (VirtualMemorySimulator.page_table sim) = Ok pt /\
    omap PageTableEntry.page (PageTable.table pt) = [Page.mk 12 1; Page.mk 12 3] /\
    PageTable.page_faults pt = 3 /\
    PageTable.getTableEntryByAddress pt 0x1000 = Ok (Some 0%nat).
Proof.
  split; [vm_compute; reflexivity|]. split; [vm_compute; reflexivity|].
  eexists _, _. split; [vm_compute; reflexivity|].
  split; [vm_compute; reflexivity|]. vm_compute. auto.
Qed.

(** ** C8: the binary search and the next-use lookup *)

Lemma sorted_lookup_lt (array : list Z) (i j : nat) (x y : Z) :
  StronglySorted Z.lt array ->
  array !! i = Some x -> array !! j = Some y -> (i < j)%nat -> x < y.
Proof.
  intros Hs. revert i j. induction Hs as [|a l Hs IH Hall]; intros i j Hi Hj Hlt.
  - rewrite lookup_nil in Hi. discriminate.
  - destruct j as [|j]; [lia|]. destruct i as [|i]; simpl in *.
    + injection Hi as ->. rewrite Forall_forall in Hall.
      apply Hall. eapply list_elem_of_lookup_2, Hj.
    + apply (IH i j Hi Hj). lia.
Qed.

Lemma sorted_lookup_le (array : list Z) (i j : nat) (x y : Z) :
  StronglySorted Z.lt array ->
  array !! i = Some x -> array !! j = Some y -> (i <= j)%nat -> x <= y.
Proof.
  intros Hs Hi Hj Hle. destruct (decide (i = j)) as [->|Hne].
  - rewrite Hi in Hj. injection Hj as ->. lia.
  - pose proof (sorted_lookup_lt array i j x y Hs Hi Hj). lia.
Qed.

(** What the loop computes on the window [l..r] of a sorted array:
    the first position of the window whose element exceeds [index],
    or the incoming [ans] when the window has none; and the number of
    iterations it needs is bounded by the width of the window. *)
Lemma search_loop_spec (array : list Z) (index : Z) :
  StronglySorted Z.lt array ->
  forall (fuel : nat) (l r ans : Z),
    0 <= l <= r + 1 -> r < Z.of_nat (length array) ->
    r - l + 1 < Z.of_nat fuel ->
    exists res,
      PageTable.search_loop fuel array index l r ans = Some (Ok res) /\
      ((res = ans /\
        forall i x, l <= Z.of_nat i <= r -> array !! i = Some x -> x <= index) \/
       (l <= res <= r /\
        exists x, array !! Z.to_nat res = Some x /\ index < x /\
          forall i y, l <= Z.of_nat i < res -> array !! i = Some y -> y <= index)).
Proof.
  intros Hs. induction fuel as [|fuel IH]; intros l r ans Hl Hr Hfuel; [lia|].
  simpl. destruct (Z.leb_spec l r) as [Hlr|Hlr].
  - set (mid := l + (r - l) / 2).
    assert (l <= mid <= r) as Hmid.
    { unfold mid. pose proof (Z.div_pos (r - l) 2).
      pose proof (Z.mul_div_le (r - l) 2). lia. }
    destruct (lookup_lt_is_Some_2 array (Z.to_nat mid)) as [a Ha]; [lia|].
    assert (getitem array mid = Ok a) as ->.
    { rewrite <- (Z2Nat.id mid) by lia. apply getitem_nat, Ha. }
    destruct (Z.leb_spec a index) as [Hai|Hai].
    + destruct (IH (mid + 1) r ans) as (res & -> & Hres); [lia..|].
      exists res. split; [reflexivity|].
      assert (forall i x, l <= Z.of_nat i <= mid -> array !! i = Some x -> x <= index)
        as Hlow.
      { intros i x Hi Hx.
        pose proof (sorted_lookup_le array i (Z.to_nat mid) x a Hs Hx Ha). lia. }
      destruct Hres as [(-> & Hall)|(Hin & x & Hx & Hgt & Hbelow)].
      * left. split; [reflexivity|]. intros i x Hi Hx.
        destruct (Z.le_gt_cases (Z.of_nat i) mid); [eapply Hlow; eauto; lia|].
        eapply Hall; eauto; lia.
      * right. split; [lia|]. exists x. split; [exact Hx|]. split; [exact Hgt|].
        intros i y Hi Hy.
        destruct (Z.le_gt_cases (Z.of_nat i) mid); [eapply Hlow; eauto; lia|].
        eapply Hbelow; eauto; lia.
    + destruct (IH l (mid - 1) mid) as (res & -> & Hres); [lia..|].
      exists res. split; [reflexivity|]. right.
      destruct Hres as [(-> & Hall)|(Hin & x & Hx & Hgt & Hbelow)].
      * split; [lia|]. exists a. split; [exact Ha|]. split; [lia|].
        intros i y Hi Hy. eapply Hall; eauto; lia.
      * split; [lia|]. exists x. eauto.
  - exists ans. split; [reflexivity|]. left. split; [reflexivity|].
    intros i x Hi. lia.
Qed.

Lemma search_loop_mono (array : list Z) (index : Z) (fuel fuel' : nat)
    (l r ans : Z) (res : result Z) :
  (fuel <= fuel')%nat ->
  PageTable.search_loop fuel array index l r ans = Some res ->
  PageTable.search_loop fuel' array index l r ans = Some res.
Proof.
  revert fuel' l r ans. induction fuel as [|fuel IH]; intros fuel' l r ans Hle;
    [discriminate|].
  destruct fuel' as [|fuel']; [lia|]. simpl.
  destruct (l <=? r); [|auto].
  destruct (getitem array (l + (r - l) / 2)) as [a|e]; [|auto].
  destruct (a <=? index); apply IH; lia.
Qed.

Lemma getitem_Raise {A : Type} (l : list A) (i : Z) (e : exn) :
  getitem l i = Raise e -> e = IndexError.
Proof.
  unfold getitem. destruct (_ || _); [congruence|].
  destruct (l !! _); congruence.
Qed.

(** The loop of the search stops on every array, sorted or not: each
    iteration narrows the window. *)
Lemma search_loop_terminates (array : list Z) (index : Z) :
  forall (fuel : nat) (l r ans : Z),
    (0 < fuel)%nat -> r - l + 1 < Z.of_nat fuel ->
    exists res,
      PageTable.search_loop fuel array index l r ans = Some res /\
      res <> Raise OutOfFuel.
Proof.
  induction fuel as [|fuel IH]; intros l r ans Hpos Hfuel; [lia|].
  simpl. destruct (Z.leb_spec l r) as [Hlr|Hlr];
    [|exists (Ok ans); split; [reflexivity|discriminate]].
  assert (l <= l + (r - l) / 2 <= r) as Hmid.
  { pose proof (Z.div_pos (r - l) 2). pose proof (Z.mul_div_le (r - l) 2). lia. }
  destruct (getitem array (l + (r - l) / 2)) as [a|e] eqn:Hget.
  - destruct (a <=? index); apply IH; lia.
  - exists (Raise e). split; [reflexivity|].
    apply getitem_Raise in Hget as ->. discriminate.
Qed.

Lemma findFirstElementGreaterThan_terminates (array : list Z) (index : Z) :
  PageTable.findFirstElementGreaterThan array index <> Raise OutOfFuel.
Proof.
  unfold PageTable.findFirstElementGreaterThan.
  destruct (search_loop_terminates array index (S (length array)) 0
              (Z.of_nat (length array) - 1) (-1)) as (res & -> & Hres); [lia..|].
  exact Hres.
Qed.

(** [S (length array)] iterations are enough for the search on any
    sorted array, and more change nothing. *)
Lemma search_loop_fuel (array : list Z) (index : Z) :
  StronglySorted Z.lt array ->
  forall fuel, (length array < fuel)%nat ->
    PageTable.search_loop fuel array index 0 (Z.of_nat (length array) - 1) (-1)
    = Some (PageTable.findFirstElementGreaterThan array index).
Proof.
  intros Hs fuel Hfuel. unfold PageTable.findFirstElementGreaterThan.
  destruct (search_loop_spec array index Hs (S (length array)) 0
              (Z.of_nat (length array) - 1) (-1)) as (res & Heq & _); [lia..|].
  rewrite Heq. simpl. eapply search_loop_mono; [|exact Heq]. lia.
Qed.

Lemma findFirstElementGreaterThan_spec (array : list Z) (index : Z) :
  StronglySorted Z.lt array ->
  PageTable.findFirstElementGreaterThan array index =
  Ok (match list_find (fun x => index < x) array with
      | Some (i, _) => Z.of_nat i
      | None => -1
      end).
Proof.
  intros Hs. unfold PageTable.findFirstElementGreaterThan.
  destruct (search_loop_spec array index Hs (S (length array)) 0
              (Z.of_nat (length array) - 1) (-1))
    as (res & -> & Hres); [lia..|].
  simpl. f_equal.
  destruct Hres as [(-> & Hall)|(Hin & x & Hx & Hgt & Hbelow)].
  - assert (list_find (fun x => index < x) array = None) as ->; [|reflexivity].
    apply list_find_None, Forall_lookup. intros i x Hx.
    pose proof (lookup_lt_Some _ _ _ Hx).
    assert (x <= index); [|lia]. eapply Hall; eauto. lia.
  - assert (list_find (fun x => index < x) array = Some (Z.to_nat res, x)) as ->;
      [|lia].
    apply list_find_Some. split; [exact Hx|]. split; [exact Hgt|].
    intros j y Hy Hj. assert (y <= index); [|lia]. eapply Hbelow; eauto. lia.
Qed.

Lemma entryNextUsedAt_sorted (self : PageTable.t) (entry : PageTableEntry.t)
    (array : list Z) (index : Z) :
  PageTable.page_used_at self entry = Ok array ->
  StronglySorted Z.lt array ->
  match list_find (fun x => index < x) array with
  | Some (i, x) =>
      PageTable.findFirstElementGreaterThan array index = Ok (Z.of_nat i) /\
      PageTable.entryNextUsedAt self entry index = Ok x /\
      x ∈ array /\ index < x /\
      forall y, y ∈ array -> index < y -> x <= y
  | None =>
      (forall y, y ∈ array -> y <= index) /\
      PageTable.findFirstElementGreaterThan array index = Ok (-1) /\
      PageTable.entryNextUsedAt self entry index = Raise ValueError
  end.
Proof.
  intros Hused Hs. unfold PageTable.entryNextUsedAt. rewrite Hused. simpl.
  rewrite (findFirstElementGreaterThan_spec array index Hs). simpl.
  destruct (list_find (fun x => index < x) array) as [[i x]|] eqn:Hfind.
  - apply list_find_Some in Hfind as (Hx & Hgt & Hbelow).
    split; [reflexivity|].
    destruct (Z.eqb_spec (Z.of_nat i) (-1)) as [?|_]; [lia|].
    split; [apply getitem_nat, Hx|].
    split; [eapply list_elem_of_lookup_2, Hx|]. split; [exact Hgt|].
    intros y [j Hy]%list_elem_of_lookup Hy'.
    destruct (Nat.le_gt_cases i j) as [Hij|Hij].
    + eapply (sorted_lookup_le array i j); eauto.
    + specialize (Hbelow j y Hy Hij). lia.
  - apply list_find_None in Hfind. rewrite Forall_forall in Hfind.
    split; [|split; reflexivity].
    intros y Hy. specialize (Hfind y Hy). lia.
Qed.

(** C8.  On a strictly ascending occurrence list the binary search
    returns the position of the first element greater than [index],
    and [-1] when there is none; the next-use lookup then returns that
    element, which is the smallest element greater than [index], and
    raises [ValueError] when there is none. *)
Theorem next_use_lookup (self : PageTable.t) (entry : PageTableEntry.t)
    (array : list Z) (index : Z) :
  PageTable.page_used_at self entry = Ok array ->
  StronglySorted Z.lt array ->
  match list_find (fun x => index < x) array with
  | Some (i, x) =>
      PageTable.findFirstElementGreaterThan array index = Ok (Z.of_nat i) /\
      PageTable.entryNextUsedAt self entry index = Ok x /\
      x ∈ array /\ index < x /\
      forall y, y ∈ array -> index < y -> x <= y
  | None =>
      (forall y, y ∈ array -> y <= index) /\
      PageTable.findFirstElementGreaterThan array index = Ok (-1) /\
      PageTable.entryNextUsedAt self entry index = Raise ValueError
  end.
Proof. apply entryNextUsedAt_sorted. Qed.

Lemma next_use_lookup_witness :
  PageTable.findFirstElementGreaterThan [2; 5; 9; 11] 5 = Ok 2 /\
  PageTable.entryNextUsedAt opt_example
    (PageTableEntry.mk 12 (Some (Page.mk 12 7)) false 5 1 false) 5 = Ok 9 /\
  9 ∈ [2; 5; 9; 11] /\ 5 < 9 /\
  forall y, y ∈ [2; 5; 9; 11] -> 5 < y -> 9 <= y.
Proof.
  apply (next_use_lookup opt_example
           (PageTableEntry.mk 12 (Some (Page.mk 12 7)) false 5 1 false)
           [2; 5; 9; 11] 5).
  - reflexivity.
  - repeat (constructor; [|repeat (constructor; try lia)]). constructor.
Defined.

(** ** C2 and C10: the second-chance scan *)

Lemma cursor_lt self j : sized self -> (cursor self j < length (PageTable.table self))%nat.
Proof.
  intros [Hsize Hpos]. unfold cursor. rewrite Hsize.
  pose proof (Z.mod_pos_bound
    (PageTable.round_robin_index self + 1 + Z.of_nat j)
    (Z.of_nat (length (PageTable.table self)))). lia.
Qed.

Lemma cursor_step self j tbl :
  sized self ->
  cursor (PageTable.with_table
            (PageTable.with_round_robin_index self (Z.of_nat (cursor self 0))) tbl) j
  = cursor self (S j).
Proof.
  intros [Hsize Hpos]. unfold cursor. simpl. f_equal.
  rewrite Z2Nat.id by (apply Z.mod_pos_bound; lia).
  rewrite Z.add_0_r.
  replace (PageTable.round_robin_index self + 1 + Z.of_nat (S j))
    with ((PageTable.round_robin_index self + 1) + (1 + Z.of_nat j)) by lia.
  rewrite <- (Z.add_mod_idemp_l (PageTable.round_robin_index self + 1)) by lia.
  f_equal. lia.
Qed.

(** Within one lap the cursor does not come back to where it started. *)
Lemma cursor_apart self j :
  sized self -> (0 < j < length (PageTable.table self))%nat ->
  cursor self j <> cursor self 0.
Proof.
  intros [Hsize Hpos] Hj. unfold cursor. rewrite Hsize.
  set (n := Z.of_nat (length (PageTable.table self))).
  set (a := PageTable.round_robin_index self + 1).
  rewrite Z.add_0_r.
  replace (a + Z.of_nat j) with (a mod n + Z.of_nat j + n * (a / n))
    by (pose proof (Z.div_mod a n); lia).
  rewrite Z.mul_comm, Z_mod_plus_full.
  pose proof (Z.mod_pos_bound a n).
  pose proof (Z.mod_pos_bound (a mod n + Z.of_nat j) n).
  intros Heq. apply Z2Nat.inj in Heq; [|lia..].
  destruct (Z.lt_ge_cases (a mod n + Z.of_nat j) n) as [Hlt|Hge].
  - rewrite Z.mod_small in Heq by lia. lia.
  - replace (a mod n + Z.of_nat j)
      with ((a mod n + Z.of_nat j - n) + 1 * n) in Heq at 1 by lia.
    rewrite Z_mod_plus_full, Z.mod_small in Heq by lia. lia.
Qed.

Lemma cursor_lap self :
  sized self -> cursor self (length (PageTable.table self)) = cursor self 0.
Proof.
  intros [Hsize Hpos]. unfold cursor. rewrite Hsize, Z.add_0_r. f_equal.
  set (n := Z.of_nat (length (PageTable.table self))).
  replace (PageTable.round_robin_index self + 1 + n)
    with (PageTable.round_robin_index self + 1 + 1 * n) by lia.
  apply Z_mod_plus_full.
Qed.

Lemma chances_insert tbl i e e' :
  tbl !! i = Some e ->
  PageTableEntry.second_chance e = true ->
  PageTableEntry.second_chance e' = false ->
  (chances (<[i := e']> tbl) < chances tbl)%nat.
Proof.
  intros Hi He He'. unfold chances.
  rewrite insert_take_drop by (eapply lookup_lt_Some, Hi).
  rewrite <- (take_drop_middle tbl i e Hi) at 3.
  rewrite !filter_app, !length_app.
  rewrite filter_cons_False by congruence.
  rewrite filter_cons_True by exact He. simpl. lia.
Qed.

(** One iteration of the loop, on an entry whose flag is set... *)
Lemma second_chance_loop_skip fuel self e :
  sized self ->
  PageTable.table self !! cursor self 0 = Some e ->
  PageTableEntry.second_chance e = true ->
  PageTable.SecondChanceTable.evict_loop (S fuel) self =
  PageTable.SecondChanceTable.evict_loop fuel
    (PageTable.with_table
       (PageTable.with_round_robin_index self (Z.of_nat (cursor self 0)))
       (<[cursor self 0 := PageTableEntry.losesChance e]> (PageTable.table self))).
Proof.
  intros [Hsize Hpos] He Hflag. simpl. unfold pymod.
  destruct (Z.eqb_spec (PageTable.size self) 0) as [?|_]; [lia|].
  unfold cursor in *. rewrite Z.add_0_r in *.
  set (i := (PageTable.round_robin_index self + 1) mod PageTable.size self) in *.
  assert (0 <= i) by (apply Z.mod_pos_bound; lia).
  simpl. rewrite <- (Z2Nat.id i) at 1 by lia.
  rewrite (getitem_nat _ _ _ He).
  unfold PageTableEntry.hasSecondChance. rewrite Hflag.
  destruct (Z.ltb_spec i 0) as [?|_]; [lia|].
  rewrite Z2Nat.id by lia. reflexivity.
Qed.

(** ... and on an entry whose flag is not set. *)
Lemma second_chance_loop_clear fuel self e :
  sized self ->
  PageTable.table self !! cursor self 0 = Some e ->
  PageTableEntry.second_chance e = false ->
  PageTable.SecondChanceTable.evict_loop (S fuel) self =
  Some (PageTable.clearEntry
          (PageTable.with_round_robin_index self (Z.of_nat (cursor self 0)))
          (cursor self 0)).
Proof.
  intros [Hsize Hpos] He Hflag. simpl. unfold pymod.
  destruct (Z.eqb_spec (PageTable.size self) 0) as [?|_]; [lia|].
  unfold cursor in *. rewrite Z.add_0_r in *.
  set (i := (PageTable.round_robin_index self + 1) mod PageTable.size self) in *.
  assert (0 <= i) by (apply Z.mod_pos_bound; lia).
  simpl. rewrite <- (Z2Nat.id i) at 1 by lia.
  rewrite (getitem_nat _ _ _ He).
  unfold PageTableEntry.hasSecondChance. rewrite Hflag.
  destruct (Z.ltb_spec i 0) as [?|_]; [lia|].
  rewrite Z2Nat.id by lia. reflexivity.
Qed.

Lemma clear_losesChance e :
  PageTableEntry.second_chance e = false ->
  PageTableEntry.clear (PageTableEntry.losesChance e) = PageTableEntry.clear e.
Proof. intros He. unfold PageTableEntry.clear. simpl. rewrite He. reflexivity. Qed.

Lemma chance_insert_other self i p e tbl' :
  p <> i ->
  chance (PageTable.with_table self (<[i := e]> (PageTable.table tbl'))) p
  = chance tbl' p.
Proof.
  intros Hne. unfold chance. simpl. rewrite list_lookup_insert_ne by congruence.
  reflexivity.
Qed.

Lemma second_chance_loop_spec (m : nat) :
  forall self, sized self -> (chances (PageTable.table self) < m)%nat ->
  exists k self',
    scan_outcome self k self' /\
    (forall fuel, (fuel <= k)%nat ->
       PageTable.SecondChanceTable.evict_loop fuel self = None) /\
    (forall fuel, (k < fuel)%nat ->
       PageTable.SecondChanceTable.evict_loop fuel self = Some (Ok self')).
Proof.
  induction m as [|m IH]; intros self Hsized Hm; [lia|].
  pose proof (cursor_lt self 0 Hsized) as Hlt.
  destruct (lookup_lt_is_Some_2 _ _ Hlt) as [e He].
  destruct (PageTableEntry.second_chance e) eqn:Hflag.
  - (* the entry under the cursor is skipped *)
    set (self1 := PageTable.with_table
       (PageTable.with_round_robin_index self (Z.of_nat (cursor self 0)))
       (<[cursor self 0 := PageTableEntry.losesChance e]> (PageTable.table self))).
    assert (sized self1) as Hsized1.
    { destruct Hsized as [Hs Hp]. split; simpl; rewrite length_insert; auto. }
    assert (forall j, cursor self1 j = cursor self (S j)) as Hcur.
    { intros j. apply cursor_step, Hsized. }
    assert (chance self1 (cursor self 0) = false) as Hcleared.
    { unfold chance, self1. simpl. rewrite list_lookup_insert_eq by exact Hlt.
      reflexivity. }
    assert (forall p, p <> cursor self 0 ->
              PageTable.table self1 !! p = PageTable.table self !! p) as Hother.
    { intros p Hp. unfold self1. simpl. apply list_lookup_insert_ne. congruence. }
    destruct (IH self1 Hsized1) as (k1 & self' & Hout & Hnone & Hsome).
    { pose proof (chances_insert (PageTable.table self) (cursor self 0) e
                    (PageTableEntry.losesChance e) He Hflag eq_refl).
      unfold self1. simpl. lia. }
    destruct Hout as (Hk1 & Hskip & Hstop & Hrr & Hlen & (ev & Hev & Hev' & Hw)
                      & Hpassed & Hrest & Hcls & Hsize & Hpf & Hti).
    assert (length (PageTable.table self1) = length (PageTable.table self)) as Hlen1.
    { unfold self1. simpl. apply length_insert. }
    assert (k1 < length (PageTable.table self))%nat as Hk1'.
    { destruct (decide (k1 = length (PageTable.table self))) as [->|]; [|lia].
      specialize (Hskip (length (PageTable.table self) - 1)%nat).
      rewrite Hcur in Hskip.
      replace (S (length (PageTable.table self) - 1)) with (length (PageTable.table self))
        in Hskip by lia.
      rewrite (cursor_lap self Hsized), Hcleared in Hskip.
      assert (false = true); [apply Hskip; lia | discriminate]. }
    assert (forall j, (j < k1)%nat -> cursor self (S j) <> cursor self 0) as Hapart.
    { intros j Hj. apply cursor_apart; [exact Hsized | lia]. }
    exists (S k1), self'. split; [|split].
    + unfold scan_outcome. rewrite Hcur in *. rewrite Hlen1 in *.
      split; [lia|]. split.
      { intros [|j] Hj.
        - unfold chance. rewrite He. exact Hflag.
        - specialize (Hskip j). rewrite Hcur in Hskip.
          unfold chance in *. rewrite <- Hother; [apply Hskip; lia|].
          apply Hapart. lia. }
      split.
      { intros Hk. unfold chance in *. rewrite <- Hother; [apply Hstop; lia|].
        apply cursor_apart; [exact Hsized | lia]. }
      split; [exact Hrr|]. split; [exact Hlen|]. split.
      { destruct (decide (cursor self (S k1) = cursor self 0)) as [Heq|Hne].
        - exists e. rewrite Heq in *. split; [exact He|].
          unfold self1 in Hev. simpl in Hev.
          rewrite list_lookup_insert_eq in Hev by exact Hlt.
          injection Hev as <-. split; [exact Hev'|exact Hw].
        - exists ev. rewrite Hother in Hev by exact Hne. auto. }
      split.
      { intros [|j] Hj Hne.
        - rewrite Hrest; [| congruence |].
          + unfold self1. simpl. rewrite list_lookup_insert_eq by exact Hlt.
            rewrite He. reflexivity.
          + intros j' Hj'. rewrite Hcur. apply Hapart, Hj'.
        - specialize (Hpassed j). rewrite Hcur in Hpassed.
          rewrite Hpassed; [|lia|exact Hne].
          rewrite Hother; [reflexivity|]. apply Hapart. lia. }
      split.
      { intros p Hp Hnot. rewrite Hrest; [| exact Hp |].
        - apply Hother. intros ->. apply (Hnot 0%nat); [lia|reflexivity].
        - intros j Hj. rewrite Hcur. apply Hnot. lia. }
      auto.
    + intros [|fuel] Hfuel; [reflexivity|].
      rewrite (second_chance_loop_skip fuel self e Hsized He Hflag).
      apply Hnone. lia.
    + intros [|fuel] Hfuel; [lia|].
      rewrite (second_chance_loop_skip fuel self e Hsized He Hflag).
      apply Hsome. lia.
  - (* the entry under the cursor is cleared *)
    exists 0%nat.
    set (self0 := PageTable.with_round_robin_index self (Z.of_nat (cursor self 0))).
    set (self' := PageTable.with_table
           (if PageTableEntry.isDirty e
            then PageTable.with_writes_to_disk self0 (PageTable.writes_to_disk self0 + 1)
            else self0)
           (<[cursor self 0 := PageTableEntry.clear e]> (PageTable.table self))).
    assert (PageTable.clearEntry self0 (cursor self 0) = Ok self') as Hclear.
    { unfold PageTable.clearEntry, PageTable.entry_at, self', self0. simpl.
      rewrite He. simpl. destruct (PageTableEntry.isDirty e); reflexivity. }
    exists self'. split; [|split].
    + unfold scan_outcome, self', self0. split; [lia|]. split; [intros j Hj; lia|].
      split; [intros _; unfold chance; rewrite He; exact Hflag|].
      split; [destruct (PageTableEntry.isDirty e); reflexivity|].
      split; [simpl; apply length_insert|].
      split.
      { exists e. split; [exact He|]. split.
        - simpl. rewrite list_lookup_insert_eq by exact Hlt.
          rewrite clear_losesChance by exact Hflag. reflexivity.
        - unfold PageTableEntry.isDirty.
          destruct (PageTableEntry.dirty e); simpl; lia. }
      split; [intros j Hj; lia|].
      split.
      { intros p Hp _. simpl. apply list_lookup_insert_ne. congruence. }
      destruct (PageTableEntry.isDirty e); simpl; auto.
    + intros fuel Hfuel. assert (fuel = 0%nat) as -> by lia. reflexivity.
    + intros [|fuel] Hfuel; [lia|].
      rewrite (second_chance_loop_clear fuel self e Hsized He Hflag).
      fold self0. rewrite Hclear. reflexivity.
Qed.

Lemma chances_le tbl : (chances tbl <= length tbl)%nat.
Proof. unfold chances. apply length_filter. Qed.

Lemma getitem_position {A : Type} (l : list A) (i : Z) (x : A) :
  getitem l i = Ok x ->
  l !! Z.to_nat (if i <? 0 then i + Z.of_nat (length l) else i) = Some x.
Proof.
  unfold getitem. destruct (_ || _); [discriminate|].
  destruct (l !! _) as [y|]; [|discriminate]. congruence.
Qed.

(** The loop of the scan stops on every table, whatever [size] and the
    cursor are: every iteration that does not stop sets one flag to
    false. *)
Lemma second_chance_loop_terminates (fuel : nat) :
  forall self, (chances (PageTable.table self) < fuel)%nat ->
  exists res,
    PageTable.SecondChanceTable.evict_loop fuel self = Some res /\
    res <> Raise OutOfFuel.
Proof.
  induction fuel as [|fuel IH]; intros self Hfuel; [lia|].
  simpl. unfold pymod.
  destruct (PageTable.size self =? 0);
    [exists (Raise ZeroDivisionError); split; [reflexivity|discriminate]|].
  set (i := (PageTable.round_robin_index self + 1) mod PageTable.size self).
  simpl. destruct (getitem (PageTable.table self) i) as [entry|e] eqn:Hget.
  - apply getitem_position in Hget.
    unfold PageTableEntry.hasSecondChance.
    destruct (PageTableEntry.second_chance entry) eqn:Hflag.
    + apply IH. simpl.
      pose proof (chances_insert _ _ entry (PageTableEntry.losesChance entry)
                    Hget Hflag eq_refl). lia.
    + eexists. split; [reflexivity|].
      unfold PageTable.clearEntry, PageTable.entry_at. simpl. rewrite Hget.
      simpl. discriminate.
  - exists (Raise e). split; [reflexivity|].
    apply getitem_Raise in Hget as ->. discriminate.
Qed.

Lemma second_chance_evict_terminates self index :
  PageTable.SecondChanceTable.evict self index <> Raise OutOfFuel.
Proof.
  unfold PageTable.SecondChanceTable.evict.
  destruct (second_chance_loop_terminates (S (length (PageTable.table self))) self)
    as (res & -> & Hres); [|exact Hres].
  pose proof (chances_le (PageTable.table self)). lia.
Qed.

Lemma second_chance_evict_spec self index :
  sized self ->
  exists k self',
    scan_outcome self k self' /\
    PageTable.SecondChanceTable.evict self index = Ok self' /\
    (forall fuel, (fuel <= k)%nat ->
       PageTable.SecondChanceTable.evict_loop fuel self = None) /\
    (forall fuel, (k < fuel)%nat ->
       PageTable.SecondChanceTable.evict_loop fuel self = Some (Ok self')).
Proof.
  intros Hsized.
  destruct (second_chance_loop_spec (S (length (PageTable.table self))) self Hsized)
    as (k & self' & Hout & Hnone & Hsome).
  { pose proof (chances_le (PageTable.table self)). lia. }
  exists k, self'. split; [exact Hout|]. split; [|auto].
  unfold PageTable.SecondChanceTable.evict. rewrite Hsome; [reflexivity|].
  destruct Hout as (Hk & _). lia.
Qed.

Lemma cursor_succ self j :
  sized self ->
  Z.of_nat (cursor self (S j)) = (Z.of_nat (cursor self j) + 1) mod PageTable.size self.
Proof.
  intros [Hsize Hpos]. unfold cursor.
  rewrite !Z2Nat.id by (apply Z.mod_pos_bound; lia).
  rewrite Z.add_mod_idemp_l by lia. f_equal. lia.
Qed.

Lemma load_keeps_cursor self address self1 i :
  PageTable.load self address = Ok (self1, i) ->
  PageTable.round_robin_index self1 = PageTable.round_robin_index self.
Proof.
  unfold PageTable.load. intros H. inv_bind H as [tbl j] Hscan.
  injection H as <- <-. reflexivity.
Qed.

(** A query that evicts nothing leaves the cursor where it is. *)
Lemma query_keeps_cursor self address access_type index self1 :
  PageTable.query self address access_type index = Ok self1 ->
  PageTable.tableIsFull self = false \/
  PageTable.getTableEntryByAddress self address <> Ok None ->
  PageTable.round_robin_index self1 = PageTable.round_robin_index self.
Proof.
  unfold PageTable.query. intros H Hno. inv_bind H as [i|] Hfind.
  - inv_bind H as entry Hentry. inv_bind H as entry1 Haccess.
    injection H as <-. reflexivity.
  - destruct Hno as [Hfull|Hhit]; [|contradiction].
    inv_bind H as [self2 i] Hload. inv_bind H as entry Hentry.
    inv_bind H as entry1 Haccess. injection H as <-. simpl.
    unfold PageTable.evictAndLoad in Hload. rewrite Hfull in Hload.
    eapply load_keeps_cursor, Hload.
Qed.

(** A position is one of the first [k] the cursor reaches, or none
    of them. *)
Lemma cursor_passed self k p :
  (exists j, (j < k)%nat /\ cursor self j = p) \/
  (forall j, (j < k)%nat -> cursor self j <> p).
Proof.
  destruct (existsb (fun j => Nat.eqb (cursor self j) p) (seq 0 k)) eqn:Hex.
  - left. apply existsb_exists in Hex as (j & Hj & Heq).
    apply in_seq in Hj. apply Nat.eqb_eq in Heq. exists j. split; [lia|exact Heq].
  - right. intros j Hj Heq.
    assert (existsb (fun j => Nat.eqb (cursor self j) p) (seq 0 k) = true);
      [|congruence].
    apply existsb_exists. exists j. split; [apply in_seq; lia|].
    apply Nat.eqb_eq, Heq.
Qed.

(** Apart from the entry the scan clears, every entry is left as it
    was or with its flag taken away. *)
Lemma scan_outcome_others self k self' p :
  scan_outcome self k self' -> p <> cursor self k ->
  PageTable.table self' !! p = PageTable.table self !! p \/
  PageTable.table self' !! p = unflagged <$> PageTable.table self !! p.
Proof.
  intros (_ & _ & _ & _ & _ & _ & Hpassed & Hrest & _) Hp.
  destruct (cursor_passed self k p) as [(j & Hj & <-)|Hnot].
  - right. apply Hpassed; auto.
  - left. apply Hrest; auto.
Qed.

(** The scan takes the page of one frame, the one it stops at. *)
Lemma scan_outcome_frames self k self' :
  scan_outcome self k self' ->
  frames self' = <[cursor self k := None]> (frames self).
Proof.
  intros Hout.
  pose proof Hout as (_ & _ & _ & _ & _ & (e & He & He' & _) & _).
  unfold frames. apply list_eq. intros p. rewrite list_lookup_fmap.
  destruct (decide (p = cursor self k)) as [->|Hne].
  - rewrite He', list_lookup_insert_eq
      by (rewrite length_fmap; eapply lookup_lt_Some, He).
    reflexivity.
  - rewrite list_lookup_insert_ne by congruence. rewrite list_lookup_fmap.
    destruct (scan_outcome_others self k self' p Hout Hne) as [-> | ->];
      [reflexivity|].
    destruct (PageTable.table self !! p); reflexivity.
Qed.

(** C2.  [SecondChanceTable.evict] on a table of [size >= 1] entries
    moves the cursor one position at a time, modulo [size]; a new table
    has its first scan start at position 0, and queries that evict
    nothing do not move the cursor.  The scan passes [k] entries whose
    flag is set; each of them keeps its page and its other attributes
    and has its flag set to false.  It evicts the first entry it meets
    whose flag is not set: the entry under the cursor after [k] more
    advances, which is the first one found without a flag, or, when
    every entry had its flag set ([k = size]), the entry the scan
    started from, met again after a lap.  The entry evicted is left
    without a page, with its attributes reset and its flag not set (and
    [writes_to_disk] counts it if it was dirty); the frames of the table
    are those it had, that one emptied; the entries the scan did not
    reach are untouched. *)
Theorem second_chance_scan (self : PageTable.t) (index : Z) :
  sized self ->
  (forall j, Z.of_nat (cursor self (S j))
             = (Z.of_nat (cursor self j) + 1) mod PageTable.size self) /\
  (PageTable.round_robin_index self = -1 -> cursor self 0 = 0%nat) /\
  (forall num_frames page_size ti,
     PageTable.round_robin_index
       (PageTable.init SecondChanceTable num_frames page_size ti) = -1) /\
  (forall address access_type i self1,
     PageTable.query self address access_type i = Ok self1 ->
     PageTable.tableIsFull self = false \/
     PageTable.getTableEntryByAddress self address <> Ok None ->
     PageTable.round_robin_index self1 = PageTable.round_robin_index self) /\
  exists k self',
    PageTable.SecondChanceTable.evict self index = Ok self' /\
    (k <= length (PageTable.table self))%nat /\
    (forall j, (j < k)%nat -> chance self (cursor self j) = true) /\
    ((k < length (PageTable.table self))%nat -> chance self (cursor self k) = false) /\
    (forall j, (j < k)%nat -> cursor self j <> cursor self k ->
       PageTable.table self' !! cursor self j
         = unflagged <$> PageTable.table self !! cursor self j) /\
    (exists e,
       PageTable.table self !! cursor self k = Some e /\
       PageTable.table self' !! cursor self k = Some (freed e false) /\
       PageTable.writes_to_disk self'
         = PageTable.writes_to_disk self
           + (if PageTableEntry.dirty e then 1 else 0)) /\
    (forall p, p <> cursor self k -> (forall j, (j < k)%nat -> cursor self j <> p) ->
       PageTable.table self' !! p = PageTable.table self !! p) /\
    PageTable.round_robin_index self' = Z.of_nat (cursor self k) /\
    frames self' = <[cursor self k := None]> (frames self) /\
    length (PageTable.table self') = length (PageTable.table self) /\
    PageTable.page_faults self' = PageTable.page_faults self.
Proof.
  intros Hsized.
  split; [intros j; apply cursor_succ, Hsized|].
  split.
  { intros Hrr. unfold cursor. rewrite Hrr. simpl.
    destruct Hsized as [Hs Hp]. rewrite Z.mod_0_l by lia. reflexivity. }
  split; [reflexivity|].
  split; [intros address access_type i self1; apply query_keeps_cursor|].
  destruct (second_chance_evict_spec self index Hsized)
    as (k & self' & Hout & Hev & _).
  pose proof (scan_outcome_frames self k self' Hout) as Hfr.
  destruct Hout as (Hk & Hskip & Hstop & Hrr & Hlen & (ev & Hev1 & Hev' & Hw)
                    & Hpassed & Hrest & _ & _ & Hpf & _).
  exists k, self'.
  split; [exact Hev|]. split; [exact Hk|]. split; [exact Hskip|].
  split; [exact Hstop|]. split; [exact Hpassed|].
  split; [exists ev; split; [exact Hev1|]; split; [exact Hev'|exact Hw]|].
  split; [exact Hrest|]. split; [exact Hrr|]. split; [exact Hfr|].
  split; [exact Hlen|exact Hpf].
Qed.

Lemma second_chance_example_sized : sized second_chance_example.
Proof. split; [reflexivity | simpl; lia]. Defined.

Lemma second_chance_scan_witness :
  sized second_chance_example /\
  exists k self',
    PageTable.SecondChanceTable.evict second_chance_example 7 = Ok self' /\
    (k <= 3)%nat /\
    PageTable.round_robin_index self' = Z.of_nat (cursor second_chance_example k) /\
    frames self'
      = <[cursor second_chance_example k := None]> (frames second_chance_example).
Proof.
  split; [exact second_chance_example_sized|].
  destruct (second_chance_scan second_chance_example 7 second_chance_example_sized)
    as (_ & _ & _ & _ & k & self' & Hev & Hk & _ & _ & _ & _ & _ & Hrr & Hfr & _).
  exists k, self'. auto.
Defined.

(** C10.  On a table of [size = n >= 1] entries, in any state, the
    loop of [SecondChanceTable.evict] stops after [k + 1] advances of
    the cursor for some [k <= n], so within [n + 1] advances.  It
    empties exactly one frame: the entry at one position [v] is left
    without a page, with its attributes reset and its flag not set, and
    the frames of the table are those it had with that one emptied (on
    a full table, that frame held a page); every other entry is as it
    was, or as it was with its flag set to false.  Where the loop takes
    [n + 1] advances, every flag has been set to false by the lap. *)
Theorem second_chance_terminates (self : PageTable.t) (index : Z) :
  sized self ->
  exists k self' v e,
    (k <= length (PageTable.table self))%nat /\
    (forall fuel, (fuel <= k)%nat ->
       PageTable.SecondChanceTable.evict_loop fuel self = None) /\
    (forall fuel, (k < fuel)%nat ->
       PageTable.SecondChanceTable.evict_loop fuel self = Some (Ok self')) /\
    PageTable.SecondChanceTable.evict_loop (S (length (PageTable.table self))) self
      = Some (Ok self') /\
    PageTable.SecondChanceTable.evict self index = Ok self' /\
    PageTable.table self !! v = Some e /\
    PageTable.table self' !! v = Some (freed e false) /\
    PageTable.writes_to_disk self'
      = PageTable.writes_to_disk self + (if PageTableEntry.dirty e then 1 else 0) /\
    (forall p, p <> v ->
       PageTable.table self' !! p = PageTable.table self !! p \/
       PageTable.table self' !! p = unflagged <$> PageTable.table self !! p) /\
    frames self' = <[v := None]> (frames self) /\
    length (PageTable.table self') = length (PageTable.table self) /\
    (PageTable.tableIsFull self = true ->
     exists q, frames self !! v = Some (Some q) /\ frames self' !! v = Some None) /\
    (k = length (PageTable.table self) ->
     forall p e', PageTable.table self' !! p = Some e' ->
       PageTableEntry.second_chance e' = false).
Proof.
  intros Hsized.
  destruct (second_chance_evict_spec self index Hsized)
    as (k & self' & Hout & Hev & Hnone & Hsome).
  pose proof (scan_outcome_frames self k self' Hout) as Hfr.
  pose proof (fun p => scan_outcome_others self k self' p Hout) as Hothers.
  destruct Hout as (Hk & Hskip & Hstop & Hrr & Hlen & (e & He & He' & Hw)
                    & Hpassed & Hrest & _).
  exists k, self', (cursor self k), e.
  split; [exact Hk|]. split; [exact Hnone|]. split; [exact Hsome|].
  split; [apply Hsome; lia|]. split; [exact Hev|]. split; [exact He|].
  split; [exact He'|]. split; [exact Hw|]. split; [exact Hothers|].
  split; [exact Hfr|]. split; [exact Hlen|]. split.
  { intros Hfull. unfold PageTable.tableIsFull in Hfull.
    rewrite forallb_forall in Hfull.
    assert (PageTableEntry.hasPage e = true) as Hpage.
    { apply Hfull, list_elem_of_In. eapply list_elem_of_lookup_2, He. }
    unfold PageTableEntry.hasPage in Hpage.
    destruct (PageTableEntry.page e) as [pg|] eqn:Hpg; [|discriminate].
    exists (Page.getPageNumber pg). unfold frames.
    rewrite !list_lookup_fmap, He, He'. simpl.
    unfold page_number_of, PageTableEntry.getPage. rewrite Hpg. auto. }
  intros -> p e' Hp.
  destruct (decide (p = cursor self (length (PageTable.table self)))) as [->|Hne].
  { rewrite He' in Hp. injection Hp as <-. reflexivity. }
  destruct (cursor_passed self (length (PageTable.table self)) p)
    as [(j & Hj & <-)|Hnot].
  - rewrite Hpassed in Hp by auto.
    destruct (PageTable.table self !! cursor self j); [|discriminate].
    injection Hp as <-. reflexivity.
  - (* every position is met within a lap *)
    exfalso.
    assert (p < length (PageTable.table self))%nat as Hp'.
    { rewrite <- Hlen. eapply lookup_lt_Some, Hp. }
    destruct Hsized as [Hs Hpos].
    set (n := Z.of_nat (length (PageTable.table self))) in *.
    set (j := Z.to_nat ((Z.of_nat p - (PageTable.round_robin_index self + 1)) mod n)).
    pose proof (Z.mod_pos_bound
                  (Z.of_nat p - (PageTable.round_robin_index self + 1)) n) as Hb.
    apply (Hnot j); [unfold j; lia|].
    unfold cursor, j. rewrite Hs. fold n. rewrite Z2Nat.id by lia.
    rewrite Z.add_mod_idemp_r by lia.
    replace (PageTable.round_robin_index self + 1 +
             (Z.of_nat p - (PageTable.round_robin_index self + 1)))
      with (Z.of_nat p) by lia.
    rewrite Z.mod_small by lia. apply Nat2Z.id.
Qed.

Lemma second_chance_terminates_witness :
  exists k self' v,
    (k <= 3)%nat /\
    PageTable.SecondChanceTable.evict_loop 4 second_chance_example = Some (Ok self') /\
    PageTable.SecondChanceTable.evict second_chance_example 7 = Ok self' /\
    frames self' = <[v := None]> (frames second_chance_example).
Proof.
  destruct (second_chance_terminates second_chance_example 7 second_chance_example_sized)
    as (k & self' & v & e & Hk & _ & _ & Hloop & Hev & _ & _ & _ & _ & Hfr & _).
  exists k, self', v. auto.
Defined.

(** ** The frames of a table, and what a query does to them *)

Lemma rshift_Ok a n : 0 <= n -> rshift a n = Ok (Z.shiftr a n).
Proof. intros Hn. unfold rshift. destruct (Z.ltb_spec n 0); [lia|reflexivity]. Qed.

Lemma rshift_Ok_inv a n r : rshift a n = Ok r -> 0 <= n /\ r = Z.shiftr a n.
Proof.
  unfold rshift. destruct (Z.ltb_spec n 0); [discriminate|].
  intros [= <-]. auto.
Qed.

Lemma setPage_Ok e address :
  0 <= PageTableEntry.offset e ->
  PageTableEntry.setPage e address
  = Ok (loaded (Z.shiftr address (PageTableEntry.offset e)) e).
Proof.
  intros Hoff. unfold PageTableEntry.setPage, Page.init.
  rewrite rshift_Ok by exact Hoff. reflexivity.
Qed.

Lemma list_find_cons {A : Type} (P : A -> Prop) `{!forall x, Decision (P x)}
    (x : A) (l : list A) :
  list_find P (x :: l)
  = if decide (P x) then Some (0%nat, x) else prod_map S id <$> list_find P l.
Proof. reflexivity. Qed.

Lemma page_number_of_Some e q :
  page_number_of e = Some q <->
  exists p, PageTableEntry.page e = Some p /\ Page.page_number p = q.
Proof.
  unfold page_number_of, PageTableEntry.getPage, Page.getPageNumber.
  destruct (PageTableEntry.page e) as [p|]; simpl.
  - split; [intros [= <-]; eauto|]. intros (p' & [= <-] & <-). reflexivity.
  - split; [discriminate|]. intros (p' & [=] & _).
Qed.

Lemma page_number_of_None e :
  page_number_of e = None <-> PageTableEntry.page e = None.
Proof.
  unfold page_number_of, PageTableEntry.getPage.
  destruct (PageTableEntry.page e); simpl; split; congruence.
Qed.

Lemma scan_for_address_spec off tbl address i0 :
  0 <= off -> Forall (entry_offsets off) tbl ->
  PageTable.scan_for_address tbl address i0
  = Ok ((fun x => (i0 + x.1)%nat) <$>
        list_find (fun e => page_number_of e = Some (Z.shiftr address off)) tbl).
Proof.
  intros Hoff Hok. revert i0.
  induction Hok as [|e tbl [Hoffe He] Hok IH]; intros i0; [reflexivity|].
  rewrite list_find_cons. cbn [PageTable.scan_for_address].
  unfold PageTableEntry.getPage.
  destruct (decide (page_number_of e = Some (Z.shiftr address off))) as [Hd|Hd].
  - apply page_number_of_Some in Hd as (p & Hp & Hq). rewrite Hp in *.
    unfold Page.contains. rewrite (He p eq_refl), rshift_Ok by exact Hoff. simpl.
    rewrite Hq, Z.eqb_refl. simpl. do 2 f_equal. lia.
  - assert (PageTable.scan_for_address tbl address (S i0)
            = Ok ((fun x => (i0 + x.1)%nat) <$>
                  (prod_map S id <$>
                   list_find (fun e => page_number_of e = Some (Z.shiftr address off)) tbl)))
      as Hrest.
    { rewrite IH. destruct (list_find _ tbl) as [[i x]|]; simpl; [|reflexivity].
      do 2 f_equal. lia. }
    destruct (PageTableEntry.page e) as [p|] eqn:Hp; [|exact Hrest].
    unfold Page.contains. rewrite (He p eq_refl), rshift_Ok by exact Hoff. simpl.
    destruct (Z.eqb_spec (Page.page_number p) (Z.shiftr address off)) as [Heq|Hne];
      [|exact Hrest].
    exfalso. apply Hd, page_number_of_Some. eauto.
Qed.

Lemma load_scan_spec off tbl address i0 :
  0 <= off -> Forall (entry_offsets off) tbl ->
  PageTable.load_scan tbl address i0
  = match list_find (fun e => PageTableEntry.page e = None) tbl with
    | Some (i, e) => Ok (<[i := loaded (Z.shiftr address off) e]> tbl, (i0 + i)%nat)
    | None => Raise RuntimeError
    end.
Proof.
  intros Hoff Hok. revert i0.
  induction Hok as [|e tbl [Hoffe He] Hok IH]; intros i0; [reflexivity|].
  rewrite list_find_cons. cbn [PageTable.load_scan].
  unfold PageTableEntry.hasPage.
  destruct (decide (PageTableEntry.page e = None)) as [Hd|Hd].
  - rewrite Hd. simpl. rewrite setPage_Ok by lia. simpl.
    rewrite Hoffe. do 2 f_equal. lia.
  - destruct (PageTableEntry.page e) as [p|] eqn:Hp; [|congruence]. simpl.
    rewrite IH. destruct (list_find _ tbl) as [[i x]|]; simpl; [|reflexivity].
    do 2 f_equal. lia.
Qed.

Lemma load_scan_not_RuntimeError tbl address i0 :
  Exists (fun e => PageTableEntry.page e = None) tbl ->
  PageTable.load_scan tbl address i0 <> Raise RuntimeError.
Proof.
  intros Hex. revert i0. induction Hex as [e tbl He|e tbl Hex IH]; intros i0; simpl.
  - unfold PageTableEntry.hasPage. rewrite He. simpl.
    unfold PageTableEntry.setPage, Page.init, rshift.
    destruct (_ <? 0); simpl; discriminate.
  - destruct (negb (PageTableEntry.hasPage e)).
    + unfold PageTableEntry.setPage, Page.init, rshift.
      destruct (_ <? 0); simpl; discriminate.
    + specialize (IH (S i0)).
      destruct (PageTable.load_scan tbl address (S i0)) as [[tbl' j]|err]; simpl;
        [discriminate|congruence].
Qed.

Lemma tableIsFull_false self :
  PageTable.tableIsFull self = false <->
  Exists (fun e => PageTableEntry.page e = None) (PageTable.table self).
Proof.
  unfold PageTable.tableIsFull.
  induction (PageTable.table self) as [|e tbl IH]; simpl.
  - split; [discriminate|]. intros H. inversion H.
  - unfold PageTableEntry.hasPage at 1.
    destruct (PageTableEntry.page e) as [p|] eqn:Hp; simpl.
    + rewrite IH. split; [intros H; right; exact H|].
      intros H. inversion H; subst; [congruence|assumption].
    + split; [intros _; left; exact Hp|reflexivity].
Qed.

Lemma tableIsFull_true self :
  PageTable.tableIsFull self = true <->
  Forall (fun e => PageTableEntry.page e <> None) (PageTable.table self).
Proof.
  unfold PageTable.tableIsFull.
  induction (PageTable.table self) as [|e tbl IH]; simpl.
  - split; [constructor|reflexivity].
  - unfold PageTableEntry.hasPage at 1.
    destruct (PageTableEntry.page e) as [p|] eqn:Hp; simpl.
    + rewrite IH. split; [intros H; constructor; [congruence|exact H]|].
      intros H. inversion H; subst; assumption.
    + split; [discriminate|]. intros H. inversion H; subst. congruence.
Qed.

Lemma clearEntry_Ok self v self1 :
  PageTable.clearEntry self v = Ok self1 ->
  exists e,
    PageTable.table self !! v = Some e /\
    self1 = PageTable.with_table
              (if PageTableEntry.dirty e
               then PageTable.with_writes_to_disk self (PageTable.writes_to_disk self + 1)
               else self)
              (<[v := PageTableEntry.clear e]> (PageTable.table self)).
Proof.
  unfold PageTable.clearEntry, PageTable.entry_at. intros H.
  destruct (PageTable.table self !! v) as [e|]; [|discriminate].
  simpl in H. injection H as <-. exists e. split; [reflexivity|].
  unfold PageTableEntry.isDirty. destruct (PageTableEntry.dirty e); reflexivity.
Qed.

Lemma entry_ok_offsets off e : entry_ok off e -> entry_offsets off e.
Proof.
  intros [Hoff Hp]. split; [exact Hoff|]. intros p Heq. rewrite Heq in Hp. exact Hp.
Qed.

Lemma table_ok_offsets off n self :
  table_ok off n self -> Forall (entry_offsets off) (PageTable.table self).
Proof.
  intros (_ & _ & Hok & _). eapply Forall_impl; [exact Hok|].
  intros e. apply entry_ok_offsets.
Qed.

Lemma clearEntry_evicted self v self1 :
  PageTable.cls self <> SecondChanceTable ->
  PageTable.clearEntry self v = Ok self1 -> evicted self v self1.
Proof.
  intros Hcls (e & He & ->)%clearEntry_Ok.
  pose proof (lookup_lt_Some _ _ _ He) as Hlt.
  exists e, e. split; [exact He|]. split; [left; reflexivity|].
  split; [contradiction|].
  destruct (PageTableEntry.dirty e); simpl;
    (split; [apply list_lookup_insert_eq, Hlt|]);
    (split; [apply length_insert|]);
    (split; [intros p Hp; left; apply list_lookup_insert_ne; congruence|]);
    repeat split; lia.
Qed.

Lemma second_chance_loop_nonempty fuel self self1 :
  PageTable.SecondChanceTable.evict_loop fuel self = Some (Ok self1) ->
  PageTable.table self <> [].
Proof.
  intros H Hnil. destruct fuel as [|fuel]; [discriminate|]. simpl in H.
  destruct (pymod _ _) as [i|err]; [|discriminate].
  simpl in H. rewrite Hnil in H. unfold getitem in H. simpl in H.
  destruct (i <? 0); simpl in H.
  - destruct (_ || _); discriminate.
  - destruct (_ || _); discriminate.
Qed.

Lemma evict_evicted off n self index self1 :
  table_ok off n self ->
  PageTable.evict self index = Ok self1 ->
  exists v, evicted self v self1.
Proof.
  intros (Hsize & Hlen & _) H. unfold PageTable.evict in H.
  destruct (PageTable.cls self) eqn:Hcls.
  - unfold PageTable.OptimalTable.evict in H. inv_bind H as v Hv.
    exists v. apply clearEntry_evicted; [congruence|exact H].
  - unfold PageTable.LRUTable.evict in H. inv_bind H as v Hv.
    exists v. apply clearEntry_evicted; [congruence|exact H].
  - assert (sized self) as Hsized.
    { unfold PageTable.SecondChanceTable.evict in H.
      destruct (PageTable.SecondChanceTable.evict_loop _ self) as [r|] eqn:Hloop;
        [|discriminate].
      simpl in H. subst r. apply second_chance_loop_nonempty in Hloop.
      unfold sized. destruct (PageTable.table self) as [|e0 tbl]; [contradiction|].
      simpl in *. split; lia. }
    destruct (second_chance_evict_spec self index Hsized)
      as (k & self' & Hout & Hev & _).
    rewrite Hev in H. injection H as <-.
    destruct Hout as (Hk & Hskip & Hstop & Hrr & Hlen' & (e & He & He' & Hw)
                      & Hpassed & Hrest & Hc & Hs & Hpf & Hti).
    exists (cursor self k), e, (PageTableEntry.losesChance e).
    split; [exact He|]. split; [right; reflexivity|]. split; [reflexivity|].
    split; [exact He'|]. split; [exact Hlen'|]. split; [|auto].
    intros p Hp.
    destruct (existsb (fun j => Nat.eqb (cursor self j) p) (seq 0 k)) eqn:Hex.
    + right. apply existsb_exists in Hex as (j & Hj & Heq).
      apply in_seq in Hj. apply Nat.eqb_eq in Heq. subst p.
      apply Hpassed; [lia|exact Hp].
    + left. apply Hrest; [exact Hp|]. intros j Hj Heq.
      assert (existsb (fun j => Nat.eqb (cursor self j) p) (seq 0 k) = true);
        [|congruence].
      apply existsb_exists. exists j. split; [apply in_seq; lia|].
      apply Nat.eqb_eq, Heq.
Qed.

Lemma access_Ok e access_type index e1 :
  PageTableEntry.access e access_type index = Ok e1 ->
  e1 = PageTableEntry.load e index \/ e1 = PageTableEntry.store e index.
Proof.
  unfold PageTableEntry.access.
  destruct (String.eqb access_type "l"); [intros [= <-]; auto|].
  destruct (String.eqb access_type "s"); [intros [= <-]; auto|discriminate].
Qed.

Lemma access_page e access_type index e1 :
  PageTableEntry.access e access_type index = Ok e1 ->
  PageTableEntry.page e1 = PageTableEntry.page e /\
  PageTableEntry.offset e1 = PageTableEntry.offset e /\
  PageTableEntry.second_chance e1 = PageTableEntry.second_chance e.
Proof. intros [-> | ->]%access_Ok; auto. Qed.

Lemma evicted_offsets off self v self1 :
  Forall (entry_offsets off) (PageTable.table self) ->
  evicted self v self1 ->
  Forall (entry_offsets off) (PageTable.table self1).
Proof.
  intros Hok (e & e0 & He & He0 & _ & Hv & Hlen & Hrest & _).
  rewrite Forall_lookup in Hok. apply Forall_lookup. intros p x Hx.
  destruct (decide (p = v)) as [->|Hne].
  - rewrite Hv in Hx. injection Hx as <-.
    destruct (Hok v e He) as [Ho _].
    split; [destruct He0 as [-> | ->]; exact Ho|]. discriminate.
  - destruct (Hrest p Hne) as [Heq|Heq]; rewrite Heq in Hx.
    + eapply Hok, Hx.
    + destruct (PageTable.table self !! p) as [y|] eqn:Hy; [|discriminate].
      injection Hx as <-. destruct (Hok p y Hy) as [Ho Hp]. split; assumption.
Qed.

(** After an eviction from a full table the cleared entry is the first
    one without a page. *)
Lemma evicted_first_free self v self1 :
  PageTable.tableIsFull self = true ->
  evicted self v self1 ->
  exists e,
    list_find (fun e => PageTableEntry.page e = None) (PageTable.table self1)
    = Some (v, e) /\
    PageTable.table self1 !! v = Some e /\
    PageTableEntry.page e = None /\
    PageTableEntry.dirty e = false /\
    PageTableEntry.most_recent_access e = 0 /\
    PageTableEntry.num_accesses e = 0.
Proof.
  intros Hfull (e & e0 & He & He0 & _ & Hv & Hlen & Hrest & _).
  apply tableIsFull_true in Hfull. rewrite Forall_lookup in Hfull.
  exists (PageTableEntry.clear e0). split; [|auto 10].
  apply list_find_Some. split; [exact Hv|]. split; [reflexivity|].
  intros j y Hy Hj.
  destruct (Hrest j) as [Heq|Heq]; [lia| |]; rewrite Heq in Hy.
  - eapply Hfull, Hy.
  - destruct (PageTable.table self !! j) as [x|] eqn:Hx; [|discriminate].
    injection Hy as <-. simpl. eapply Hfull, Hx.
Qed.

Lemma query_cases off n self address access_type index self' :
  table_ok off n self -> 0 <= off ->
  PageTable.query self address access_type index = Ok self' ->
  (exists i e e1,
     list_find (fun e => page_number_of e = Some (Z.shiftr address off))
       (PageTable.table self) = Some (i, e) /\
     PageTableEntry.access e access_type index = Ok e1 /\
     self' = PageTable.with_table self
               (<[i := PageTableEntry.set_second_chance e1]> (PageTable.table self)))
  \/
  (list_find (fun e => page_number_of e = Some (Z.shiftr address off))
     (PageTable.table self) = None /\
   exists self1 i e e1,
     (PageTable.tableIsFull self = false /\ self1 = self \/
      PageTable.tableIsFull self = true /\
      PageTable.evict self index = Ok self1 /\ evicted self i self1) /\
     list_find (fun e => PageTableEntry.page e = None) (PageTable.table self1)
       = Some (i, e) /\
     PageTableEntry.access (loaded (Z.shiftr address off) e) access_type index = Ok e1 /\
     self' = PageTable.with_page_faults
               (PageTable.with_table self1 (<[i := e1]> (PageTable.table self1)))
               (PageTable.page_faults self1 + 1)).
Proof.
  intros Hok Hoff H. pose proof (table_ok_offsets off n self Hok) as Hoffs.
  unfold PageTable.query, PageTable.getTableEntryByAddress in H.
  rewrite (scan_for_address_spec off) in H by assumption.
  destruct (list_find _ (PageTable.table self)) as [[i e]|] eqn:Hfind; simpl in H.
  - left. pose proof Hfind as (He & _)%list_find_Some.
    unfold PageTable.entry_at in H. rewrite He in H. simpl in H.
    inv_bind H as e1 Hacc. injection H as <-. eauto 10.
  - right. split; [reflexivity|].
    inv_bind H as [self2 i] Hload. inv_bind H as e2 He2. inv_bind H as e1 Hacc.
    injection H as <-.
    unfold PageTable.evictAndLoad in Hload.
    assert (exists self1,
      (PageTable.tableIsFull self = false /\ self1 = self \/
       PageTable.tableIsFull self = true /\
       PageTable.evict self index = Ok self1 /\ exists v, evicted self v self1) /\
      PageTable.load self1 address = Ok (self2, i)) as (self1 & Hcase & Hload1).
    { destruct (PageTable.tableIsFull self) eqn:Hfull.
      - inv_bind Hload as self1 Hev. exists self1. split; [|exact Hload].
        right. split; [reflexivity|]. split; [exact Hev|].
        eapply evict_evicted; eauto.
      - exists self. auto. }
    assert (Forall (entry_offsets off) (PageTable.table self1)) as Hoffs1.
    { destruct Hcase as [(_ & ->)|(_ & _ & v & Hv)]; [exact Hoffs|].
      eapply evicted_offsets; eauto. }
    unfold PageTable.load in Hload1.
    rewrite (load_scan_spec off) in Hload1 by assumption.
    destruct (list_find _ (PageTable.table self1)) as [[j e]|] eqn:Hfree;
      [|discriminate].
    simpl in Hload1. injection Hload1 as <- <-.
    pose proof Hfree as (He & _)%list_find_Some.
    pose proof (lookup_lt_Some _ _ _ He) as Hlt.
    unfold PageTable.entry_at in He2. simpl in He2.
    rewrite list_lookup_insert_eq in He2 by exact Hlt. injection He2 as <-.
    exists self1, j, e, e1. split.
    { destruct Hcase as [Hc|(Hfull & Hev & v & Hv)]; [left; exact Hc|].
      right. split; [exact Hfull|]. split; [exact Hev|].
      destruct (evicted_first_free self v self1 Hfull Hv) as (e' & Hfree' & _).
      rewrite Hfree in Hfree'. injection Hfree' as -> ->. exact Hv. }
    split; [exact Hfree|]. split; [exact Hacc|].
    simpl. rewrite list_insert_insert_eq. reflexivity.
Qed.

Lemma resident_frames self : resident self = omap id (frames self).
Proof.
  unfold resident, frames.
  induction (PageTable.table self) as [|e tbl IH]; [reflexivity|].
  csimpl. destruct (page_number_of e); csimpl; rewrite IH; reflexivity.
Qed.

Lemma elem_of_resident self q :
  q ∈ resident self <-> Some q ∈ frames self.
Proof.
  unfold resident, frames. rewrite list_elem_of_omap, list_elem_of_fmap.
  split; intros (e & H1 & H2); exists e; auto.
Qed.

Lemma omap_id_insert (fr : list (option Z)) (i : nat) (o o' : option Z) :
  fr !! i = Some o ->
  exists R,
    omap id fr ≡ₚ option_list o ++ R /\
    omap id (<[i := o']> fr) ≡ₚ option_list o' ++ R.
Proof.
  intros Hi. exists (omap id (take i fr) ++ omap id (drop (S i) fr)).
  rewrite insert_take_drop by (eapply lookup_lt_Some, Hi).
  rewrite <- (take_drop_middle fr i o Hi) at 1.
  rewrite !omap_app. simpl.
  split.
  - destruct o; simpl; [symmetry; apply Permutation_middle|reflexivity].
  - destruct o'; simpl; [symmetry; apply Permutation_middle|reflexivity].
Qed.

Lemma length_resident self : (length (resident self) <= length (PageTable.table self))%nat.
Proof.
  unfold resident. induction (PageTable.table self) as [|e tbl IH]; csimpl; [lia|].
  destruct (page_number_of e); csimpl; lia.
Qed.

Lemma resident_full self :
  PageTable.tableIsFull self = true ->
  length (resident self) = length (PageTable.table self).
Proof.
  intros Hfull%tableIsFull_true. unfold resident.
  induction Hfull as [|e tbl He Hfull IH]; [reflexivity|]. csimpl.
  destruct (page_number_of e) eqn:Hpn; csimpl; [lia|].
  apply page_number_of_None in Hpn. contradiction.
Qed.

Lemma resident_not_full self :
  PageTable.tableIsFull self = false ->
  (length (resident self) < length (PageTable.table self))%nat.
Proof.
  intros Hfull%tableIsFull_false. unfold resident.
  induction Hfull as [e tbl He|e tbl Hfull IH]; csimpl.
  - apply page_number_of_None in He. rewrite He.
    pose proof (length_resident (PageTable.with_table
      (PageTable.init LRUTable 0 0 ∅) tbl)) as Hle.
    unfold resident in Hle. simpl in Hle. lia.
  - destruct (page_number_of e); csimpl; lia.
Qed.

Lemma frames_evicted self v self1 :
  evicted self v self1 -> frames self1 = <[v := None]> (frames self).
Proof.
  intros (e & e0 & He & He0 & _ & Hv & Hlen & Hrest & _).
  unfold frames. apply list_eq. intros p.
  rewrite list_lookup_fmap.
  destruct (decide (p = v)) as [->|Hne].
  - rewrite Hv, list_lookup_insert_eq by
      (rewrite length_fmap; eapply lookup_lt_Some, He).
    reflexivity.
  - rewrite list_lookup_insert_ne by congruence. rewrite list_lookup_fmap.
    destruct (Hrest p Hne) as [-> | ->]; [reflexivity|].
    destruct (PageTable.table self !! p); reflexivity.
Qed.

Lemma page_number_of_access e access_type index e1 :
  PageTableEntry.access e access_type index = Ok e1 ->
  page_number_of e1 = page_number_of e.
Proof.
  intros (Hp & _)%access_page. unfold page_number_of, PageTableEntry.getPage.
  rewrite Hp. reflexivity.
Qed.

(** What a query does to the frames and the counters: a hit changes
    neither; a miss puts the page in one frame, the first free one or
    the one the policy evicts, and counts one page fault. *)
Lemma query_frames off n self address access_type index self' :
  table_ok off n self -> 0 <= off ->
  PageTable.query self address access_type index = Ok self' ->
  (Some (Z.shiftr address off) ∈ frames self /\
   frames self' = frames self /\
   PageTable.page_faults self' = PageTable.page_faults self /\
   PageTable.writes_to_disk self' = PageTable.writes_to_disk self)
  \/
  ((Some (Z.shiftr address off) ∉ frames self) /\
   PageTable.page_faults self' = PageTable.page_faults self + 1 /\
   exists i,
     frames self' = <[i := Some (Z.shiftr address off)]> (frames self) /\
     (PageTable.tableIsFull self = false /\
      frames self !! i = Some None /\
      PageTable.writes_to_disk self' = PageTable.writes_to_disk self
      \/
      PageTable.tableIsFull self = true /\
      exists self1,
        PageTable.evict self index = Ok self1 /\ evicted self i self1 /\
        PageTable.writes_to_disk self' = PageTable.writes_to_disk self1)).
Proof.
  intros Hok Hoff H.
  destruct (query_cases off n self address access_type index self' Hok Hoff H)
    as [(i & e & e1 & Hfind & Hacc & ->)
       |(Hfind & self1 & i & e & e1 & Hcase & Hfree & Hacc & ->)].
  - left. apply list_find_Some in Hfind as (He & Hq & _).
    split.
    { unfold frames. apply list_elem_of_fmap. exists e.
      split; [congruence|]. eapply list_elem_of_lookup_2, He. }
    split; [|split; reflexivity].
    unfold frames. simpl. rewrite list_fmap_insert.
    apply list_insert_id. rewrite list_lookup_fmap, He. simpl. f_equal.
    rewrite <- (page_number_of_access _ _ _ _ Hacc). reflexivity.
  - right. apply list_find_None in Hfind. rewrite Forall_forall in Hfind.
    split.
    { unfold frames. intros (e' & Heq & Hin)%list_elem_of_fmap.
      apply (Hfind e' Hin). congruence. }
    apply list_find_Some in Hfree as (He & Hnone & _).
    assert (page_number_of e1 = Some (Z.shiftr address off)) as Hpn.
    { rewrite (page_number_of_access _ _ _ _ Hacc). reflexivity. }
    destruct Hcase as [(Hfull & ->)|(Hfull & Hev & Hv)].
    + split; [reflexivity|]. exists i. split.
      { unfold frames. simpl. rewrite list_fmap_insert, Hpn. reflexivity. }
      left. split; [exact Hfull|]. split; [|reflexivity].
      unfold frames. rewrite list_lookup_fmap, He. simpl. f_equal.
      apply page_number_of_None, Hnone.
    + split.
      { simpl. destruct Hv as (_ & _ & _ & _ & _ & _ & _ & _ & _ & -> & _).
        reflexivity. }
      exists i. split.
      { unfold frames at 1. simpl. rewrite list_fmap_insert, Hpn.
        fold (frames self1). rewrite (frames_evicted _ _ _ Hv).
        apply list_insert_insert_eq. }
      right. split; [exact Hfull|]. exists self1. auto.
Qed.

Lemma entry_ok_losesChance off e :
  entry_ok off e -> entry_ok off (PageTableEntry.losesChance e).
Proof.
  intros [Ho Hp]. split; [exact Ho|]. simpl.
  destruct (PageTableEntry.page e); [exact Hp|]. tauto.
Qed.

Lemma frames_insert_resident (self self' : PageTable.t) i q o :
  frames self !! i = Some o ->
  frames self' = <[i := Some q]> (frames self) ->
  exists R,
    resident self ≡ₚ option_list o ++ R /\ resident self' ≡ₚ q :: R.
Proof.
  intros Hi Hfr. rewrite !resident_frames, Hfr.
  destruct (omap_id_insert (frames self) i o (Some q) Hi) as (R & H1 & H2).
  exists R. auto.
Qed.

(** A query keeps the invariant of the table. *)
Lemma query_table_ok off n self address access_type index self' :
  table_ok off n self -> 0 <= off ->
  PageTable.query self address access_type index = Ok self' ->
  table_ok off n self'.
Proof.
  intros Hok Hoff H.
  pose proof (query_frames off n self address access_type index self' Hok Hoff H)
    as Hfr.
  destruct (query_cases off n self address access_type index self' Hok Hoff H)
    as [(i & e & e1 & Hfind & Hacc & ->)
       |(Hfind & self1 & i & e & e1 & Hcase & Hfree & Hacc & ->)].
  - destruct Hok as (Hsize & Hlen & Hents & Hnd).
    split; [exact Hsize|]. split; [simpl; rewrite length_insert; exact Hlen|].
    split.
    + simpl. apply Forall_insert; [exact Hents|].
      apply list_find_Some in Hfind as (He & Hq & _).
      apply page_number_of_Some in Hq as (p & Hp & _).
      rewrite Forall_lookup in Hents. destruct (Hents i e He) as [Ho Hpo].
      rewrite Hp in Hpo.
      apply access_page in Hacc as (Hp1 & Ho1 & _).
      split; simpl; [congruence|]. rewrite Hp1, Hp. exact Hpo.
    + destruct Hfr as [(_ & Hfr & _)|(Hnot & _)].
      * rewrite resident_frames, Hfr, <- resident_frames. exact Hnd.
      * exfalso. apply Hnot. apply list_find_Some in Hfind as (He & Hq & _).
        unfold frames. apply list_elem_of_fmap. exists e.
        split; [congruence|]. eapply list_elem_of_lookup_2, He.
  - pose proof Hok as (Hsize & Hlen & Hents & Hnd).
    apply list_find_Some in Hfree as (He & Hnone & _).
    assert (PageTable.size self1 = n /\
            length (PageTable.table self1) = Z.to_nat n /\
            PageTableEntry.offset e = off /\
            forall p x, p <> i -> PageTable.table self1 !! p = Some x -> entry_ok off x)
      as (Hsize1 & Hlen1 & Hoe & Hents1).
    { rewrite Forall_lookup in Hents.
      destruct Hcase as [(_ & ->)|(_ & _ & Hv)].
      - split; [exact Hsize|]. split; [exact Hlen|].
        split; [apply (Hents i e He)|]. intros p x _ Hx. apply (Hents p x Hx).
      - destruct Hv as (ev & e0 & Hev & He0 & _ & Hv & Hlen' & Hrest & _ & _ & _ & Hs & _).
        split; [congruence|]. split; [congruence|]. split.
        + rewrite Hv in He. injection He as <-. simpl.
          destruct (Hents i ev Hev) as [Ho _]. destruct He0 as [-> | ->]; exact Ho.
        + intros p x Hp Hx. destruct (Hrest p Hp) as [Heq|Heq]; rewrite Heq in Hx.
          * apply (Hents p x Hx).
          * destruct (PageTable.table self !! p) as [y|] eqn:Hy; [|discriminate].
            injection Hx as <-. apply entry_ok_losesChance, (Hents p y Hy). }
    split; [exact Hsize1|]. split; [simpl; rewrite length_insert; exact Hlen1|].
    split.
    + simpl. apply Forall_lookup. intros p x Hx.
      destruct (decide (p = i)) as [->|Hne].
      * rewrite list_lookup_insert_eq in Hx by (eapply lookup_lt_Some, He).
        injection Hx as <-.
        apply access_page in Hacc as (Hp1 & Ho1 & _). simpl in *.
        split; [congruence|]. rewrite Hp1. simpl. exact Hoe.
      * rewrite list_lookup_insert_ne in Hx by congruence. eapply Hents1; eauto.
    + destruct Hfr as [(Hin & _)|(Hnot & _ & j & Hfr & Hj)].
      { exfalso. apply list_find_None in Hfind. rewrite Forall_forall in Hfind.
        unfold frames in Hin. apply list_elem_of_fmap in Hin as (e' & Heq & Hin).
        apply (Hfind e' Hin). congruence. }
      assert (exists o, frames self !! j = Some o) as (o & Ho).
      { destruct Hj as [(_ & Hj & _)|(_ & self2 & _ & (ev & e0 & Hev & _) & _)]; [eauto|].
        unfold frames. rewrite list_lookup_fmap, Hev. simpl. eauto. }
      destruct (frames_insert_resident self _ j _ o Ho Hfr) as (R & HR & HR').
      rewrite HR'. rewrite HR in Hnd. apply NoDup_cons. split.
      * intros Hin. apply Hnot, elem_of_resident. rewrite HR.
        apply elem_of_app. right. exact Hin.
      * apply NoDup_app in Hnd as (_ & _ & Hnd). exact Hnd.
Qed.

(** ** Replays *)

Lemma init_table_ok c n off ti : table_ok off n (PageTable.init c n off ti).
Proof.
  split; [reflexivity|]. split; [apply length_replicate|]. split.
  - apply Forall_forall. intros e ->%elem_of_replicate_inv.
    split; [reflexivity|]. simpl. auto.
  - unfold resident. simpl. induction (Z.to_nat n) as [|k IH]; [constructor|].
    exact IH.
Qed.

(** With a negative offset width no query succeeds: the first shift
    raises [ValueError], unless the table has no frame, where the
    eviction raises. *)
Lemma scan_for_address_negative off tbl address i0 r :
  off < 0 -> Forall (entry_offsets off) tbl ->
  PageTable.scan_for_address tbl address i0 = Ok r ->
  Forall (fun e => PageTableEntry.page e = None) tbl.
Proof.
  intros Hoff Hok. revert i0.
  induction Hok as [|e tbl [Hoffe He] Hok IH]; intros i0 H; [constructor|].
  simpl in H. unfold PageTableEntry.getPage in H.
  destruct (PageTableEntry.page e) as [p|] eqn:Hp.
  - unfold Page.contains, rshift in H. rewrite (He p eq_refl) in H.
    destruct (Z.ltb_spec off 0); [discriminate|lia].
  - constructor; [exact Hp|]. eapply IH, H.
Qed.

Lemma scan_for_address_free tbl address i0 :
  Forall (fun e => PageTableEntry.page e = None) tbl ->
  PageTable.scan_for_address tbl address i0 = Ok None.
Proof.
  intros Hfree. revert i0.
  induction Hfree as [|e tbl He Hfree IH]; intros i0; [reflexivity|].
  simpl. unfold PageTableEntry.getPage. rewrite He. apply IH.
Qed.

Lemma query_offset off n self address access_type index self' :
  table_ok off n self ->
  PageTable.query self address access_type index = Ok self' -> 0 <= off.
Proof.
  intros Hok H. destruct (Z.le_gt_cases 0 off) as [|Hneg]; [assumption|exfalso].
  pose proof (table_ok_offsets off n self Hok) as Hoffs.
  unfold PageTable.query, PageTable.getTableEntryByAddress in H.
  inv_bind H as r Hscan.
  pose proof (scan_for_address_negative off _ _ _ _ Hneg Hoffs Hscan) as Hfree.
  destruct r as [i|].
  - rewrite (scan_for_address_free _ _ _ Hfree) in Hscan. discriminate.
  - inv_bind H as [self1 i] Hload. clear H.
    unfold PageTable.evictAndLoad in Hload.
    destruct (PageTable.tableIsFull self) eqn:Hfull.
    + inv_bind Hload as self2 Hev.
      destruct (evict_evicted off n self index self2 Hok Hev)
        as (v & e & e0 & He & _).
      apply tableIsFull_true in Hfull. rewrite Forall_lookup in Hfull, Hfree.
      apply (Hfull v e He), (Hfree v e He).
    + apply tableIsFull_false in Hfull. unfold PageTable.load in Hload.
      inv_bind Hload as [tbl j] Hscan'. clear Hload.
      destruct (PageTable.table self) as [|e tbl0]; [inversion Hfull|].
      apply Forall_cons in Hfree as [He _]. apply Forall_cons in Hoffs as [[Ho _] _].
      simpl in Hscan'. unfold PageTableEntry.hasPage in Hscan'.
      rewrite He in Hscan'. simpl in Hscan'.
      unfold PageTableEntry.setPage, Page.init, rshift in Hscan'.
      rewrite Ho in Hscan'. destruct (Z.ltb_spec off 0); [discriminate|lia].
Qed.

Lemma replay_app done rest index pt :
  VirtualMemorySimulator.replay (done ++ rest) index pt
  = let* pt1 := VirtualMemorySimulator.replay done index pt in
    VirtualMemorySimulator.replay rest (index + Z.of_nat (length done)) pt1.
Proof.
  revert index pt. induction done as [|[ty a] done IH]; intros index pt.
  - simpl. rewrite Z.add_0_r. reflexivity.
  - cbn [app VirtualMemorySimulator.replay].
    destruct (PageTable.query pt a ty index) as [pt1|err]; [|reflexivity].
    simpl bind. rewrite IH. simpl length.
    replace (index + 1 + Z.of_nat (length done))
      with (index + Z.of_nat (S (length done))) by lia.
    reflexivity.
Qed.

Lemma query_keeps off n self address access_type index self' :
  table_ok off n self ->
  PageTable.query self address access_type index = Ok self' ->
  PageTable.cls self' = PageTable.cls self /\
  PageTable.trace_indices self' = PageTable.trace_indices self.
Proof.
  intros Hok H. pose proof (query_offset _ _ _ _ _ _ _ Hok H) as Hoff.
  destruct (query_cases off n self address access_type index self' Hok Hoff H)
    as [(i & e & e1 & Hfind & Hacc & ->)
       |(Hfind & self1 & i & e & e1 & Hcase & Hfree & Hacc & ->)].
  - auto.
  - simpl. destruct Hcase as [(_ & ->)|(_ & _ & Hv)]; [auto|].
    destruct Hv as (ev & e0 & _ & _ & _ & _ & _ & _ & _ & _ & Hc & _ & Hti). auto.
Qed.

(** The counters along one query. *)
Lemma query_counters off n self address access_type index self' :
  table_ok off n self ->
  PageTable.query self address access_type index = Ok self' ->
  PageTable.page_faults self <= PageTable.page_faults self'
    <= PageTable.page_faults self + 1 /\
  PageTable.writes_to_disk self <= PageTable.writes_to_disk self' /\
  PageTable.writes_to_disk self' - PageTable.writes_to_disk self
    <= PageTable.page_faults self' - PageTable.page_faults self.
Proof.
  intros Hok H. pose proof (query_offset _ _ _ _ _ _ _ Hok H) as Hoff.
  destruct (query_frames off n self address access_type index self' Hok Hoff H)
    as [(_ & _ & Hpf & Hw)|(_ & Hpf & i & _ & Hcase)]; [lia|].
  destruct Hcase as [(_ & _ & Hw)|(_ & self1 & _ & Hv & Hw)]; [lia|].
  destruct Hv as (ev & e0 & _ & _ & _ & _ & _ & _ & Hw1 & _).
  destruct (PageTableEntry.dirty ev); lia.
Qed.

Lemma replay_counters off n file index pt pt' :
  table_ok off n pt ->
  VirtualMemorySimulator.replay file index pt = Ok pt' ->
  table_ok off n pt' /\
  PageTable.cls pt' = PageTable.cls pt /\
  PageTable.trace_indices pt' = PageTable.trace_indices pt /\
  PageTable.page_faults pt <= PageTable.page_faults pt'
    <= PageTable.page_faults pt + Z.of_nat (length file) /\
  PageTable.writes_to_disk pt <= PageTable.writes_to_disk pt' /\
  PageTable.writes_to_disk pt' - PageTable.writes_to_disk pt
    <= PageTable.page_faults pt' - PageTable.page_faults pt.
Proof.
  revert index pt. induction file as [|[ty a] file IH]; intros index pt Hok H.
  - injection H as <-. split; [exact Hok|]. do 2 (split; [reflexivity|]).
    simpl. lia.
  - simpl in H. inv_bind H as pt1 Hq.
    pose proof (query_offset _ _ _ _ _ _ _ Hok Hq) as Hoff.
    pose proof (query_table_ok _ _ _ _ _ _ _ Hok Hoff Hq) as Hok1.
    pose proof (query_counters _ _ _ _ _ _ _ Hok Hq) as Hc.
    pose proof (query_keeps _ _ _ _ _ _ _ Hok Hq) as [Hcls Hti].
    destruct (IH _ _ Hok1 H) as (Hok' & Hcls' & Hti' & Hpf & Hw & Hwf).
    split; [exact Hok'|]. split; [congruence|]. split; [congruence|].
    simpl length. lia.
Qed.

Lemma index_trace_count opt off file index m ti m' ti' :
  VirtualMemorySimulator.index_trace opt off file index m ti = Ok (m', ti') ->
  m' = m + Z.of_nat (length file).
Proof.
  revert index m ti. induction file as [|[ty a] file IH]; intros index m ti H.
  - injection H as <- <-. simpl. lia.
  - simpl in H. destruct opt.
    + inv_bind H as q Hq. apply IH in H. simpl length. lia.
    + apply IH in H. simpl length. lia.
Qed.

Lemma createPageTable_Ok n off mode ti pt :
  VirtualMemorySimulator.createPageTable n off mode ti = Ok pt ->
  exists c,
    pt = PageTable.init c n off ti /\
    (c = OptimalTable <-> mode = "opt"%string) /\
    (c = LRUTable <-> mode = "lru"%string) /\
    (c = SecondChanceTable <-> mode = "second"%string).
Proof.
  unfold VirtualMemorySimulator.createPageTable.
  destruct (String.eqb_spec mode "opt") as [->|H1].
  { intros [= <-]. exists OptimalTable. repeat split; congruence. }
  destruct (String.eqb_spec mode "lru") as [->|H2].
  { intros [= <-]. exists LRUTable. repeat split; congruence. }
  destruct (String.eqb_spec mode "second") as [->|H3]; [|discriminate].
  intros [= <-]. exists SecondChanceTable. repeat split; congruence.
Qed.

Lemma init_Ok file n mode off sim :
  VirtualMemorySimulator.init file n mode off = Ok sim ->
  exists c ti,
    VirtualMemorySimulator.index_trace (String.eqb mode "opt") off file 0 0 ∅
      = Ok (Z.of_nat (length file), ti) /\
    VirtualMemorySimulator.source_file sim = file /\
    VirtualMemorySimulator.mem_accesses sim = Z.of_nat (length file) /\
    VirtualMemorySimulator.page_table sim = PageTable.init c n off ti /\
    (c = OptimalTable <-> mode = "opt"%string) /\
    (c = LRUTable <-> mode = "lru"%string) /\
    (c = SecondChanceTable <-> mode = "second"%string).
Proof.
  unfold VirtualMemorySimulator.init. intros H.
  inv_bind H as [m ti] Hidx. inv_bind H as pt Hpt. injection H as <-.
  pose proof (index_trace_count _ _ _ _ _ _ _ _ Hidx) as ->.
  apply createPageTable_Ok in Hpt as (c & -> & Hc).
  exists c, ti. simpl. auto.
Qed.

Lemma between_queries_ok file n mode off pt :
  between_queries file n mode off pt -> table_ok off n pt.
Proof.
  intros (sim & done & rest & Hinit & _ & Hrep).
  apply init_Ok in Hinit as (c & ti & _ & _ & _ & Hpt & _).
  rewrite Hpt in Hrep.
  eapply replay_counters; [apply init_table_ok | exact Hrep].
Qed.

Lemma between_queries_cls file n mode off pt :
  between_queries file n mode off pt ->
  (PageTable.cls pt = OptimalTable <-> mode = "opt"%string) /\
  (PageTable.cls pt = LRUTable <-> mode = "lru"%string) /\
  (PageTable.cls pt = SecondChanceTable <-> mode = "second"%string).
Proof.
  intros (sim & done & rest & Hinit & _ & Hrep).
  apply init_Ok in Hinit as (c & ti & _ & _ & _ & Hpt & Hc).
  rewrite Hpt in Hrep.
  destruct (replay_counters off n done 0 _ pt (init_table_ok c n off ti) Hrep)
    as (_ & Hcls & _).
  rewrite Hcls. exact Hc.
Qed.

(** A full table has been queried, so the offset width is not
    negative. *)
Lemma between_queries_full_offset file n mode off pt :
  0 < n -> between_queries file n mode off pt ->
  PageTable.tableIsFull pt = true -> 0 <= off.
Proof.
  intros Hn (sim & done & rest & Hinit & _ & Hrep) Hfull.
  apply init_Ok in Hinit as (c & ti & _ & _ & _ & Hpt & _).
  rewrite Hpt in Hrep. clear Hpt.
  destruct done as [|[ty a] done].
  - injection Hrep as <-. unfold PageTable.tableIsFull in Hfull. simpl in Hfull.
    destruct (Z.to_nat n) eqn:Hk; [lia|]. discriminate.
  - simpl in Hrep. inv_bind Hrep as pt1 Hq.
    eapply query_offset; [apply init_table_ok | exact Hq].
Qed.

Lemma scenario_between_queries :
  between_queries scenario 2 "lru" 12 two_loaded.
Proof.
  eexists _, (take 2 scenario), (drop 2 scenario).
  split; [vm_compute; reflexivity|]. split; reflexivity.
Defined.

Lemma scenario_start :
  between_queries scenario 2 "lru" 12 (PageTable.init LRUTable 2 12 ∅).
Proof.
  eexists _, [], scenario. split; [vm_compute; reflexivity|].
  split; reflexivity.
Defined.

(** ** C5: the counters *)

(** C5.  In a run, no query decreases [page_faults] or
    [writes_to_disk]; and the statistics of a completed run have
    [memory_accesses] equal to the number of records,
    [0 <= page_faults <= memory_accesses] and
    [writes_to_disk <= page_faults]. *)
Theorem counters_bounded (file : list mem_access) (num_frames : Z)
    (mode : string) (offset_bits : Z) :
  (forall pt access_type address index pt',
     between_queries file num_frames mode offset_bits pt ->
     PageTable.query pt address access_type index = Ok pt' ->
     PageTable.page_faults pt <= PageTable.page_faults pt' /\
     PageTable.writes_to_disk pt <= PageTable.writes_to_disk pt') /\
  (forall stats,
     VirtualMemorySimulator.simulate file num_frames mode offset_bits = Ok stats ->
     VirtualMemorySimulator.memory_accesses stats = Z.of_nat (length file) /\
     0 <= VirtualMemorySimulator.page_faults stats
       <= VirtualMemorySimulator.memory_accesses stats /\
     0 <= VirtualMemorySimulator.writes_to_disk stats
       <= VirtualMemorySimulator.page_faults stats).
Proof.
  split.
  - intros pt access_type address index pt' Hpt Hq.
    apply between_queries_ok in Hpt.
    pose proof (query_counters _ _ _ _ _ _ _ Hpt Hq). lia.
  - intros stats H. unfold VirtualMemorySimulator.simulate in H.
    inv_bind H as sim Hinit. unfold VirtualMemorySimulator.run in H.
    inv_bind H as pt Hrep. injection H as <-. simpl.
    apply init_Ok in Hinit as (c & ti & _ & Hsrc & Hm & Hpt & _).
    rewrite Hsrc, Hpt in Hrep.
    destruct (replay_counters offset_bits num_frames file 0 _ pt
                (init_table_ok c num_frames offset_bits ti) Hrep)
      as (_ & _ & _ & Hpf & Hw & Hwf).
    simpl in *. lia.
Qed.

Lemma counters_bounded_witness :
  (between_queries scenario 2 "lru" 12 two_loaded /\
   exists pt',
     PageTable.query two_loaded 0x3000 "l" 2 = Ok pt' /\
     PageTable.page_faults two_loaded <= PageTable.page_faults pt' /\
     PageTable.writes_to_disk two_loaded <= PageTable.writes_to_disk pt') /\
  (VirtualMemorySimulator.simulate scenario 2 "lru" 12
     = Ok (VirtualMemorySimulator.mk_statistics 4 4 0) /\
   VirtualMemorySimulator.memory_accesses (VirtualMemorySimulator.mk_statistics 4 4 0)
     = Z.of_nat (length scenario) /\
   0 <= 4 <= 4 /\ 0 <= 0 <= 4).
Proof.
  split.
  - split; [exact scenario_between_queries|].
    eassert (PageTable.query two_loaded 0x3000 "l" 2 = Ok _) as Hq
      by (vm_compute; reflexivity).
    eexists. split; [exact Hq|].
    apply (proj1 (counters_bounded scenario 2 "lru" 12) _ _ _ _ _
             scenario_between_queries Hq).
  - assert (VirtualMemorySimulator.simulate scenario 2 "lru" 12
            = Ok (VirtualMemorySimulator.mk_statistics 4 4 0)) as Hrun
      by (vm_compute; reflexivity).
    split; [exact Hrun|].
    apply (proj2 (counters_bounded scenario 2 "lru" 12) _ Hrun).
Defined.

(** ** C9: [load] finds a free entry *)

(** C9.  With a positive number of frames, in every table a run goes
    through: when the table is not full, and when it is full and the
    eviction has returned, there is an entry without a page, so [load]
    does not raise its [RuntimeError]; after an eviction it returns
    the entry it loaded. *)
Theorem load_finds_free_entry (file : list mem_access) (num_frames : Z)
    (mode : string) (offset_bits : Z) (pt : PageTable.t) (address index : Z) :
  0 < num_frames ->
  between_queries file num_frames mode offset_bits pt ->
  (PageTable.tableIsFull pt = false ->
   PageTable.load pt address <> Raise RuntimeError) /\
  (PageTable.tableIsFull pt = true ->
   forall pt1, PageTable.evict pt index = Ok pt1 ->
     PageTable.tableIsFull pt1 = false /\
     (exists e, e ∈ PageTable.table pt1 /\ PageTableEntry.page e = None) /\
     PageTable.load pt1 address <> Raise RuntimeError /\
     exists pt2 i, PageTable.load pt1 address = Ok (pt2, i)).
Proof.
  intros Hn Hpt. split.
  - intros Hfull%tableIsFull_false. unfold PageTable.load.
    pose proof (load_scan_not_RuntimeError _ address 0%nat Hfull) as Hne.
    destruct (PageTable.load_scan _ _ _) as [[tbl i]|err]; simpl;
      [discriminate|congruence].
  - intros Hfull pt1 Hev.
    pose proof (between_queries_ok _ _ _ _ _ Hpt) as Hok.
    pose proof (between_queries_full_offset _ _ _ _ _ Hn Hpt Hfull) as Hoff.
    destruct (evict_evicted _ _ _ _ _ Hok Hev) as (v & Hv).
    destruct (evicted_first_free _ _ _ Hfull Hv) as (e & Hfind & He & Hnone & _).
    assert (Exists (fun e => PageTableEntry.page e = None) (PageTable.table pt1))
      as Hex.
    { apply Exists_exists. exists e. split; [|exact Hnone].
      eapply list_elem_of_lookup_2, He. }
    assert (PageTable.load pt1 address
            = Ok (PageTable.with_table pt1
                    (<[v := loaded (Z.shiftr address offset_bits) e]>
                       (PageTable.table pt1)), v)) as Hload.
    { unfold PageTable.load.
      rewrite (load_scan_spec offset_bits), Hfind; [reflexivity|exact Hoff|].
      eapply evicted_offsets; [|exact Hv]. eapply table_ok_offsets, Hok. }
    split; [apply tableIsFull_false, Hex|]. split.
    { exists e. split; [eapply list_elem_of_lookup_2, He|exact Hnone]. }
    rewrite Hload. split; [discriminate|eauto].
Qed.

Lemma load_finds_free_entry_witness :
  (between_queries scenario 2 "lru" 12 (PageTable.init LRUTable 2 12 ∅) /\
   PageTable.tableIsFull (PageTable.init LRUTable 2 12 ∅) = false /\
   PageTable.load (PageTable.init LRUTable 2 12 ∅) 0x1000 <> Raise RuntimeError) /\
  (between_queries scenario 2 "lru" 12 two_loaded /\
   PageTable.tableIsFull two_loaded = true /\
   exists pt1 pt2 i,
     PageTable.evict two_loaded 2 = Ok pt1 /\
     PageTable.tableIsFull pt1 = false /\
     PageTable.load pt1 0x3000 = Ok (pt2, i)).
Proof.
  assert (0 < 2) as Hn by lia.
  split.
  - split; [exact scenario_start|]. split; [reflexivity|].
    apply (proj1 (load_finds_free_entry scenario 2 "lru" 12 _ 0x1000 0 Hn
                    scenario_start)).
    reflexivity.
  - split; [exact scenario_between_queries|]. split; [reflexivity|].
    eexists.
    destruct (proj2 (load_finds_free_entry scenario 2 "lru" 12 _ 0x3000 2 Hn
                       scenario_between_queries) eq_refl _ eq_refl)
      as (Hfull & _ & _ & pt2 & i & Hload).
    exists pt2, i. split; [reflexivity|]. split; [exact Hfull|exact Hload].
Defined.

(** ** What an eviction leaves *)

(** Clearing an entry that holds a page takes this page, and no
    other, out of memory. *)
Lemma clearEntry_page_leaves self v e q :
  NoDup (resident self) ->
  PageTable.table self !! v = Some e ->
  page_number_of e = Some q ->
  exists self1,
    PageTable.clearEntry self v = Ok self1 /\
    PageTable.table self1
      = <[v := freed e (PageTableEntry.second_chance e)]> (PageTable.table self) /\
    frames self1 = <[v := None]> (frames self) /\
    resident self ≡ₚ q :: resident self1 /\
    (q ∉ resident self1) /\
    PageTable.writes_to_disk self1
      = PageTable.writes_to_disk self
        + (if PageTableEntry.dirty e then 1 else 0) /\
    PageTable.page_faults self1 = PageTable.page_faults self.
Proof.
  intros Hnd He Hq.
  destruct (clearEntry_freed self v e He)
    as (self1 & Hclear & Htbl & Hfr & Hw & Hpf & _).
  exists self1. split; [exact Hclear|]. split; [exact Htbl|].
  split; [exact Hfr|].
  destruct (omap_id_insert (frames self) v (Some q) None) as (R & HR & HR').
  { unfold frames. rewrite list_lookup_fmap, He. simpl. rewrite Hq. reflexivity. }
  assert (resident self ≡ₚ q :: resident self1) as Hperm.
  { rewrite !resident_frames, Hfr, HR, HR'. reflexivity. }
  split; [exact Hperm|]. split; [|auto].
  rewrite Hperm in Hnd. apply NoDup_cons in Hnd as [Hnot _]. exact Hnot.
Qed.

(** The entry an eviction frees: under second chance its flag is not
    set; under LRU and OPT it keeps the flag it had. *)
Lemma evict_freed off n self index self1 :
  table_ok off n self ->
  PageTable.evict self index = Ok self1 ->
  exists v e,
    PageTable.table self !! v = Some e /\
    PageTable.table self1 !! v
      = Some (freed e (match PageTable.cls self with
                       | SecondChanceTable => false
                       | _ => PageTableEntry.second_chance e
                       end)) /\
    frames self1 = <[v := None]> (frames self).
Proof.
  intros (Hsize & Hlen & _) H. unfold PageTable.evict in H.
  destruct (PageTable.cls self) eqn:Hcls.
  - unfold PageTable.OptimalTable.evict in H. inv_bind H as v Hv.
    pose proof H as (e & He & _)%clearEntry_Ok.
    destruct (clearEntry_freed self v e He) as (self' & Hclear & Htbl & Hfr & _).
    rewrite Hclear in H. injection H as <-.
    exists v, e. split; [exact He|]. split; [|exact Hfr].
    rewrite Htbl. apply list_lookup_insert_eq. eapply lookup_lt_Some, He.
  - unfold PageTable.LRUTable.evict in H. inv_bind H as v Hv.
    pose proof H as (e & He & _)%clearEntry_Ok.
    destruct (clearEntry_freed self v e He) as (self' & Hclear & Htbl & Hfr & _).
    rewrite Hclear in H. injection H as <-.
    exists v, e. split; [exact He|]. split; [|exact Hfr].
    rewrite Htbl. apply list_lookup_insert_eq. eapply lookup_lt_Some, He.
  - assert (sized self) as Hsized.
    { unfold PageTable.SecondChanceTable.evict in H.
      destruct (PageTable.SecondChanceTable.evict_loop _ self) as [r|] eqn:Hloop;
        [|discriminate].
      simpl in H. subst r. apply second_chance_loop_nonempty in Hloop.
      unfold sized. destruct (PageTable.table self) as [|e0 tbl]; [contradiction|].
      simpl in *. split; lia. }
    destruct (second_chance_evict_spec self index Hsized)
      as (k & self' & Hout & Hev & _).
    rewrite Hev in H. injection H as <-.
    pose proof (scan_outcome_frames self k self' Hout) as Hfr.
    destruct Hout as (_ & _ & _ & _ & _ & (e & He & He' & _) & _).
    exists (cursor self k), e. split; [exact He|]. split; [exact He'|exact Hfr].
Qed.

(** ** C4: entries without a page *)

Lemma hit_then_miss_after_eviction :
  after_eviction hit_then_miss 1 "lru" 12 freed_table.
Proof.
  eexists _, (take 2 hit_then_miss), "l"%string, 0x2000, [], _.
  split; [vm_compute; reflexivity|]. split; [reflexivity|].
  split; [vm_compute; reflexivity|]. split; [vm_compute; reflexivity|].
  split; [vm_compute; reflexivity|]. vm_compute. reflexivity.
Defined.

Lemma hit_then_miss_between_queries :
  exists pt,
    between_queries hit_then_miss 1 "lru" 12 pt /\
    PageTable.tableIsFull pt = true /\
    PageTable.evict pt 2 = Ok freed_table.
Proof.
  eexists. split; [|split].
  - eexists _, (take 2 hit_then_miss), (drop 2 hit_then_miss).
    split; [vm_compute; reflexivity|]. split; [reflexivity|].
    vm_compute. reflexivity.
  - reflexivity.
  - vm_compute. reflexivity.
Defined.

(** C4.  In every state of the table between two queries, every
    attribute of an entry without a page has its initial value:
    [dirty] is false, [most_recent_access] and [num_accesses] are 0,
    and [second_chance] is false.  Inside a query, between the return
    of [evict] and the call of [load] that follows it at once, the one
    entry without a page is the entry just freed: its [dirty],
    [most_recent_access] and [num_accesses] are reset, and its
    [second_chance] is false under second chance and is the flag the
    entry had before under LRU and OPT, until [load] resets it. *)
Theorem free_entries_between_queries (file : list mem_access) (num_frames : Z)
    (mode : string) (offset_bits : Z) (pt : PageTable.t) :
  (between_queries file num_frames mode offset_bits pt -> free_entries_default pt) /\
  (after_eviction file num_frames mode offset_bits pt ->
   forall e, e ∈ PageTable.table pt -> PageTableEntry.page e = None ->
     PageTableEntry.dirty e = false /\
     PageTableEntry.most_recent_access e = 0 /\
     PageTableEntry.num_accesses e = 0 /\
     (mode = "second"%string -> PageTableEntry.second_chance e = false)) /\
  (between_queries file num_frames mode offset_bits pt ->
   PageTable.tableIsFull pt = true ->
   forall index pt1,
     PageTable.evict pt index = Ok pt1 ->
     exists v e,
       PageTable.table pt !! v = Some e /\
       PageTable.table pt1 !! v
         = Some (freed e (if String.eqb mode "second" then false
                          else PageTableEntry.second_chance e)) /\
       forall p e', PageTable.table pt1 !! p = Some e' ->
         PageTableEntry.page e' = None -> p = v).
Proof.
  split; [|split].
  - intros Hpt e He Hnone.
    apply between_queries_ok in Hpt as (_ & _ & Hents & _).
    rewrite Forall_forall in Hents. destruct (Hents e He) as [_ Hp].
    rewrite Hnone in Hp. exact Hp.
  - intros (sim & done & ty & a & rest & pt0 & Hinit & Hfile & Hrep & _ & Hfull & Hev)
           e He Hnone.
    assert (between_queries file num_frames mode offset_bits pt0) as Hpt0.
    { exists sim, done, ((ty, a) :: rest). auto. }
    pose proof (between_queries_ok _ _ _ _ _ Hpt0) as Hok.
    pose proof (between_queries_cls _ _ _ _ _ Hpt0) as (_ & _ & Hsc).
    destruct (evict_evicted _ _ _ _ _ Hok Hev)
      as (v & ev & e0 & Hev0 & He0 & Hcls & Hv & _ & Hrest & _).
    apply tableIsFull_true in Hfull. rewrite Forall_lookup in Hfull.
    apply list_elem_of_lookup in He as (p & Hp).
    destruct (decide (p = v)) as [->|Hne].
    + rewrite Hv in Hp. injection Hp as <-. simpl.
      split; [reflexivity|]. split; [reflexivity|]. split; [reflexivity|].
      intros Hmode. rewrite Hcls by (apply Hsc, Hmode). reflexivity.
    + exfalso. destruct (Hrest p Hne) as [Heq|Heq]; rewrite Heq in Hp.
      * apply (Hfull p e Hp Hnone).
      * destruct (PageTable.table pt0 !! p) as [y|] eqn:Hy; [|discriminate].
        injection Hp as <-. apply (Hfull p y Hy Hnone).
  - intros Hpt Hfull index pt1 Hev.
    pose proof (between_queries_ok _ _ _ _ _ Hpt) as Hok.
    pose proof (between_queries_cls _ _ _ _ _ Hpt) as (_ & _ & Hsc).
    destruct (evict_freed _ _ _ _ _ Hok Hev) as (v & e & He & He1 & Hfr).
    exists v, e. split; [exact He|]. split.
    + rewrite He1. do 2 f_equal.
      destruct (String.eqb_spec mode "second") as [Hm|Hm].
      * rewrite (proj2 Hsc Hm). reflexivity.
      * destruct (PageTable.cls pt) eqn:Hc; [reflexivity|reflexivity|].
        destruct Hm. apply Hsc. reflexivity.
    + intros p e' Hp Hnone.
      destruct (decide (p = v)) as [->|Hne]; [reflexivity|exfalso].
      assert (frames pt1 !! p = Some None) as Hp1.
      { unfold frames. rewrite list_lookup_fmap, Hp. simpl.
        apply page_number_of_None in Hnone. rewrite Hnone. reflexivity. }
      rewrite Hfr, list_lookup_insert_ne in Hp1 by congruence.
      unfold frames in Hp1. rewrite list_lookup_fmap in Hp1.
      destruct (PageTable.table pt !! p) as [y|] eqn:Hy; [|discriminate].
      injection Hp1 as Hy1. apply page_number_of_None in Hy1.
      apply tableIsFull_true in Hfull. rewrite Forall_lookup in Hfull.
      apply (Hfull p y Hy Hy1).
Qed.

Lemma free_entries_between_queries_witness :
  (between_queries scenario 2 "lru" 12 (PageTable.init LRUTable 2 12 ∅) /\
   free_entries_default (PageTable.init LRUTable 2 12 ∅)) /\
  (after_eviction hit_then_miss 1 "lru" 12 freed_table /\
   forall e, e ∈ PageTable.table freed_table -> PageTableEntry.page e = None ->
     PageTableEntry.dirty e = false /\
     PageTableEntry.most_recent_access e = 0 /\
     PageTableEntry.num_accesses e = 0 /\
     ("lru"%string = "second"%string -> PageTableEntry.second_chance e = false)) /\
  (exists pt v e,
     between_queries hit_then_miss 1 "lru" 12 pt /\
     PageTable.tableIsFull pt = true /\
     PageTable.evict pt 2 = Ok freed_table /\
     PageTable.table pt !! v = Some e /\
     PageTable.table freed_table !! v
       = Some (freed e (PageTableEntry.second_chance e))).
Proof.
  assert (between_queries scenario 2 "lru" 12 (PageTable.init LRUTable 2 12 ∅))
    as Hpt.
  { eexists _, [], scenario. split; [vm_compute; reflexivity|].
    split; reflexivity. }
  split; [|split].
  - split; [exact Hpt|].
    apply (proj1 (free_entries_between_queries scenario 2 "lru" 12 _)), Hpt.
  - split; [exact hit_then_miss_after_eviction|].
    apply (proj1 (proj2 (free_entries_between_queries hit_then_miss 1 "lru" 12 _))),
      hit_then_miss_after_eviction.
  - destruct hit_then_miss_between_queries as (pt & Hbq & Hfull & Hev).
    destruct (proj2 (proj2 (free_entries_between_queries hit_then_miss 1 "lru" 12 pt))
                Hbq Hfull 2 freed_table Hev) as (v & e & He & He1 & _).
    exists pt, v, e. auto.
Defined.

(** The state inside the query: with one frame under LRU, the second
    access hits and sets the flag of the entry; the third access
    misses, and when [evict] returns, the only entry has no page and
    still has its flag set, until [load] resets it. *)
Lemma freed_entry_keeps_flag :
  after_eviction hit_then_miss 1 "lru" 12 freed_table /\
  PageTable.table freed_table = [PageTableEntry.mk 12 None false 0 0 true] /\
  ~ free_entries_default freed_table.
Proof.
  split; [exact hit_then_miss_after_eviction|]. split; [reflexivity|].
  intros H.
  destruct (H (PageTableEntry.mk 12 None false 0 0 true)) as (_ & _ & _ & Hsc);
    [simpl; left | reflexivity | discriminate].
Qed.

(** ** The index of future accesses *)

Lemma elem_of_occurrences off q file index x :
  x ∈ occurrences off q file index <->
  exists i r, file !! i = Some r /\ page_of off r = q /\ x = index + Z.of_nat i.
Proof.
  revert index. induction file as [|r file IH]; intros index; simpl.
  - split; [intros H; inversion H|]. intros (i & r & H & _). discriminate.
  - destruct (Z.eqb_spec (page_of off r) q) as [Heq|Hne].
    + rewrite elem_of_cons, IH. split.
      * intros [->|(i & r' & Hi & Hq & ->)].
        -- exists 0%nat, r. simpl. split; [reflexivity|]. split; [exact Heq|lia].
        -- exists (S i), r'. simpl. split; [exact Hi|]. split; [exact Hq|lia].
      * intros ([|i] & r' & Hi & Hq & ->); simpl in Hi.
        -- left. lia.
        -- right. exists i, r'. split; [exact Hi|]. split; [exact Hq|lia].
    + rewrite IH. split.
      * intros (i & r' & Hi & Hq & ->). exists (S i), r'. simpl.
        split; [exact Hi|]. split; [exact Hq|lia].
      * intros ([|i] & r' & Hi & Hq & ->); simpl in Hi.
        -- injection Hi as <-. contradiction.
        -- exists i, r'. split; [exact Hi|]. split; [exact Hq|lia].
Qed.

Lemma occurrences_sorted off q file index :
  StronglySorted Z.lt (occurrences off q file index).
Proof.
  revert index. induction file as [|r file IH]; intros index; simpl; [constructor|].
  destruct (page_of off r =? q); [|apply IH].
  constructor; [apply IH|]. apply Forall_forall.
  intros x (i & r' & _ & _ & ->)%elem_of_occurrences. lia.
Qed.

Lemma occurrences_app off q done rest index :
  occurrences off q (done ++ rest) index
  = occurrences off q done index
    ++ occurrences off q rest (index + Z.of_nat (length done)).
Proof.
  revert index. induction done as [|r done IH]; intros index.
  - simpl. rewrite Z.add_0_r. reflexivity.
  - cbn [app occurrences length].
    replace (index + Z.of_nat (S (length done)))
      with (index + 1 + Z.of_nat (length done)) by lia.
    destruct (page_of off r =? q); rewrite IH; reflexivity.
Qed.

(** The dict [__init__] builds for ['opt'] maps each page of the trace
    to the list of its positions, and has no other key. *)
Lemma index_trace_opt off file index m ti :
  0 <= off ->
  exists ti',
    VirtualMemorySimulator.index_trace true off file index m ti
      = Ok (m + Z.of_nat (length file), ti') /\
    forall q,
      ti' !! q = match occurrences off q file index with
                 | [] => ti !! q
                 | l => Some (default [] (ti !! q) ++ l)
                 end.
Proof.
  intros Hoff. revert index m ti.
  induction file as [|[ty a] file IH]; intros index m ti.
  - exists ti. simpl. rewrite Z.add_0_r. auto.
  - cbn [VirtualMemorySimulator.index_trace]. rewrite rshift_Ok by exact Hoff.
    simpl bind.
    set (ti1 := match ti !! Z.shiftr a off with
                | Some l => <[Z.shiftr a off := l ++ [index]]> ti
                | None => <[Z.shiftr a off := [index]]> ti
                end).
    destruct (IH (index + 1) (m + 1) ti1) as (ti' & Heq & Hti').
    exists ti'. split.
    { rewrite Heq. simpl length. do 2 f_equal. lia. }
    intros q. rewrite Hti'. simpl. unfold page_of. simpl.
    assert (ti1 !! Z.shiftr a off
            = Some (default [] (ti !! Z.shiftr a off) ++ [index])) as Hsame.
    { unfold ti1. destruct (ti !! Z.shiftr a off); simpl; apply lookup_insert_eq. }
    assert (forall q', q' <> Z.shiftr a off -> ti1 !! q' = ti !! q') as Hother.
    { intros q' Hq'. unfold ti1.
      destruct (ti !! Z.shiftr a off); apply lookup_insert_ne; congruence. }
    destruct (Z.eqb_spec (Z.shiftr a off) q) as [<-|Hne].
    + rewrite Hsame. simpl.
      destruct (occurrences off (Z.shiftr a off) file (index + 1)); simpl.
      * reflexivity.
      * rewrite <- app_assoc. reflexivity.
    + rewrite Hother by congruence. reflexivity.
Qed.

Lemma init_opt_trace_indices file n off sim :
  VirtualMemorySimulator.init file n "opt" off = Ok sim ->
  file <> [] ->
  0 <= off /\
  forall q,
    PageTable.trace_indices (VirtualMemorySimulator.page_table sim) !! q
    = match occurrences off q file 0 with
      | [] => None
      | l => Some l
      end.
Proof.
  intros Hinit Hne.
  assert (0 <= off) as Hoff.
  { destruct (Z.le_gt_cases 0 off) as [|Hneg]; [assumption|exfalso].
    unfold VirtualMemorySimulator.init in Hinit. simpl in Hinit.
    destruct file as [|[ty a] file]; [contradiction|].
    simpl in Hinit. unfold rshift in Hinit.
    destruct (Z.ltb_spec off 0); [discriminate|lia]. }
  split; [exact Hoff|].
  apply init_Ok in Hinit as (c & ti & Hidx & _ & _ & Hpt & _).
  simpl in Hidx.
  destruct (index_trace_opt off file 0 0 ∅ Hoff) as (ti' & Heq & Hti').
  rewrite Heq in Hidx. injection Hidx as <-.
  intros q. rewrite Hpt. simpl. rewrite Hti', lookup_empty. simpl.
  destruct (occurrences off q file 0); reflexivity.
Qed.

(** The pages in memory have been accessed. *)
Lemma query_resident off n self address access_type index self' q :
  table_ok off n self ->
  PageTable.query self address access_type index = Ok self' ->
  q ∈ resident self' -> q ∈ resident self \/ q = Z.shiftr address off.
Proof.
  intros Hok H Hq. pose proof (query_offset _ _ _ _ _ _ _ Hok H) as Hoff.
  apply elem_of_resident in Hq. rewrite elem_of_resident.
  destruct (query_frames off n self address access_type index self' Hok Hoff H)
    as [(_ & Hfr & _)|(_ & _ & i & Hfr & _)]; rewrite Hfr in Hq; [auto|].
  apply list_elem_of_lookup in Hq as (j & Hj).
  destruct (decide (i = j)) as [->|Hne].
  - apply list_lookup_insert_Some in Hj as [(_ & Heq & _)|(Hne & _)];
      [right; congruence|congruence].
  - rewrite list_lookup_insert_ne in Hj by exact Hne.
    left. eapply list_elem_of_lookup_2, Hj.
Qed.

Lemma replay_resident off n file index pt pt' q :
  table_ok off n pt ->
  VirtualMemorySimulator.replay file index pt = Ok pt' ->
  q ∈ resident pt' ->
  q ∈ resident pt \/ exists r, r ∈ file /\ page_of off r = q.
Proof.
  revert index pt. induction file as [|[ty a] file IH]; intros index pt Hok H Hq.
  - injection H as <-. auto.
  - simpl in H. inv_bind H as pt1 Hquery.
    pose proof (query_offset _ _ _ _ _ _ _ Hok Hquery) as Hoff.
    pose proof (query_table_ok _ _ _ _ _ _ _ Hok Hoff Hquery) as Hok1.
    destruct (IH _ _ Hok1 H Hq) as [Hq1|(r & Hr & Hpage)].
    + destruct (query_resident _ _ _ _ _ _ _ _ Hok Hquery Hq1) as [Hin| ->];
        [auto|].
      right. exists (ty, a). split; [left|reflexivity].
    + right. exists r. split; [right; exact Hr|exact Hpage].
Qed.

(** ** The decision of the OPT policy *)

Lemma filterM_pure {A : Type} (f : A -> result bool) (g : A -> bool) (l : list A) :
  (forall x, x ∈ l -> f x = Ok (g x)) ->
  filterM f l = Ok (filter (fun x => g x = true) l).
Proof.
  induction l as [|x l IH]; intros Hf; [reflexivity|].
  simpl. rewrite (Hf x) by left. simpl. rewrite IH by (intros y Hy; apply Hf; right; exact Hy).
  simpl. f_equal. destruct (g x) eqn:Hg.
  - rewrite filter_cons_True by exact Hg. reflexivity.
  - rewrite filter_cons_False by congruence. reflexivity.
Qed.

Lemma mapM_pure {A B : Type} (f : A -> result B) (g : A -> B) (l : list A) :
  (forall x, x ∈ l -> f x = Ok (g x)) ->
  mapM f l = Ok (g <$> l).
Proof.
  induction l as [|x l IH]; intros Hf; [reflexivity|].
  simpl. rewrite (Hf x) by left. simpl.
  rewrite IH by (intros y Hy; apply Hf; right; exact Hy). reflexivity.
Qed.

Lemma filter_sorted {A : Type} (R : relation A) (P : A -> Prop)
    `{!forall x, Decision (P x)} (l : list A) :
  StronglySorted R l -> StronglySorted R (filter P l).
Proof.
  induction 1 as [|x l Hs IH Hall]; [constructor|].
  destruct (decide (P x)) as [Hx|Hx].
  - rewrite filter_cons_True by exact Hx. constructor; [exact IH|].
    apply Forall_forall. intros y [_ Hy]%list_elem_of_filter.
    rewrite Forall_forall in Hall. apply Hall, Hy.
  - rewrite filter_cons_False by exact Hx. exact IH.
Qed.

Lemma foldl_max_spec (l : list Z) (x : Z) :
  (foldl Z.max x l = x \/ foldl Z.max x l ∈ l) /\
  x <= foldl Z.max x l /\ forall y, y ∈ l -> y <= foldl Z.max x l.
Proof.
  revert x. induction l as [|a l IH]; intros x; simpl.
  - split; [left; reflexivity|]. split; [lia|]. intros y Hy. inversion Hy.
  - destruct (IH (Z.max x a)) as (Hin & Hle & Hall).
    split; [|split; [lia|]].
    + destruct Hin as [Heq|Hin]; [|right; right; exact Hin].
      destruct (Z.max_spec x a) as [[_ Hm]|[_ Hm]]; rewrite Hm in *.
      * right. rewrite Heq. left.
      * left. exact Heq.
    + intros y [->|Hy]%elem_of_cons; [lia|apply Hall, Hy].
Qed.

Lemma pymax_spec (l : list Z) :
  l <> [] -> exists m, pymax l = Ok m /\ m ∈ l /\ forall y, y ∈ l -> y <= m.
Proof.
  destruct l as [|x l]; [contradiction|]. intros _.
  exists (foldl Z.max x l). split; [reflexivity|].
  destruct (foldl_max_spec l x) as (Hin & Hle & Hall). split.
  - destruct Hin as [-> | Hin]; [left|right; exact Hin].
  - intros y [->|Hy]%elem_of_cons; [exact Hle|apply Hall, Hy].
Qed.

Lemma pyindex_spec (l : list Z) (m : Z) :
  m ∈ l ->
  exists v, pyindex l m = Ok v /\ l !! v = Some m /\
    forall j x, l !! j = Some x -> (j < v)%nat -> x <> m.
Proof.
  induction l as [|a l IH]; intros Hm; [inversion Hm|]. simpl.
  destruct (Z.eqb_spec a m) as [->|Hne].
  - exists 0%nat. split; [reflexivity|]. split; [reflexivity|]. intros j x _ Hj. lia.
  - apply elem_of_cons in Hm as [->|Hm]; [contradiction|].
    destruct (IH Hm) as (v & -> & Hv & Hfirst). exists (S v).
    split; [reflexivity|]. split; [exact Hv|].
    intros [|j] x Hx Hj; simpl in Hx; [congruence|]. apply (Hfirst j x Hx). lia.
Qed.

Lemma getitem_last {A : Type} (l : list A) :
  getitem l (-1) = match last l with
                   | Some x => Ok x
                   | None => Raise IndexError
                   end.
Proof.
  unfold getitem. rewrite last_lookup. simpl.
  destruct l as [|a l]; [reflexivity|].
  cbn [length].
  destruct (Z.ltb_spec (-1 + Z.of_nat (S (length l))) 0) as [?|_]; [lia|].
  destruct (Z.leb_spec (Z.of_nat (S (length l))) (-1 + Z.of_nat (S (length l))))
    as [?|_]; [lia|].
  simpl orb. cbv iota.
  replace (Z.to_nat (-1 + Z.of_nat (S (length l)))) with (length l) by lia.
  reflexivity.
Qed.

Lemma sorted_last_max (l : list Z) (x y : Z) :
  StronglySorted Z.lt l -> last l = Some x -> y ∈ l -> y <= x.
Proof.
  intros Hs Hlast [i Hi]%list_elem_of_lookup. rewrite last_lookup in Hlast.
  pose proof (lookup_lt_Some _ _ _ Hi).
  eapply (sorted_lookup_le l i (pred (length l))); eauto. lia.
Qed.

Section opt_decision.

(** A full table of an OPT run at position [index] of the trace
    [file], where the record at [index] misses: every page in memory
    has been accessed before [index], and is not the page accessed at
    [index]. *)
Variables (off n index : Z) (file : list mem_access) (pt : PageTable.t).
Hypothesis Hframes : 0 < n.
Hypothesis Hoff : 0 <= off.
Hypothesis Hok : table_ok off n pt.
Hypothesis Hfull : PageTable.tableIsFull pt = true.
Hypothesis Hti : forall q,
  PageTable.trace_indices pt !! q
  = match occurrences off q file 0 with
    | [] => None
    | l => Some l
    end.
Hypothesis Hseen : forall q, q ∈ resident pt ->
  exists x, x ∈ occurrences off q file 0 /\ x < index.
Hypothesis Hmiss : forall q, q ∈ resident pt -> index ∉ occurrences off q file 0.

Lemma entry_resident e :
  e ∈ PageTable.table pt ->
  exists q, page_number_of e = Some q /\ q ∈ resident pt.
Proof using Hfull.
  intros He. apply tableIsFull_true in Hfull. rewrite Forall_forall in Hfull.
  destruct (page_number_of e) as [q|] eqn:Hq.
  - exists q. split; [reflexivity|]. unfold resident.
    apply list_elem_of_omap. eauto.
  - apply page_number_of_None in Hq. destruct (Hfull e He Hq).
Qed.

Lemma used_at_sorted e : StronglySorted Z.lt (used_at off file e).
Proof.
  unfold used_at. destruct (page_number_of e); [apply occurrences_sorted|constructor].
Qed.

Lemma page_used_at_spec e :
  e ∈ PageTable.table pt ->
  PageTable.page_used_at pt e = Ok (used_at off file e) /\
  (exists x, x ∈ used_at off file e /\ x < index) /\
  index ∉ used_at off file e.
Proof using Hfull Hti Hseen Hmiss.
  intros He. destruct (entry_resident e He) as (q & Hq & Hres).
  unfold used_at. rewrite Hq.
  split; [|split; [apply Hseen, Hres|apply Hmiss, Hres]].
  pose proof Hq as (p & Hp & Hpn)%page_number_of_Some.
  unfold PageTable.page_used_at, PageTableEntry.getPage, Page.getPageNumber.
  rewrite Hp, Hpn, Hti.
  destruct (Hseen q Hres) as (x & Hx & _).
  destruct (occurrences off q file 0); [inversion Hx|reflexivity].
Qed.

Lemma entryIsNotUsedAgain_spec e :
  e ∈ PageTable.table pt ->
  PageTable.entryIsNotUsedAgain pt e index = Ok (never_again off index file e).
Proof using Hfull Hti Hseen Hmiss.
  intros He. destruct (page_used_at_spec e He) as (Hused & (x & Hx & _) & _).
  unfold PageTable.entryIsNotUsedAgain, never_again. rewrite Hused. simpl.
  rewrite getitem_last.
  destruct (last (used_at off file e)) as [y|] eqn:Hlast; [reflexivity|].
  apply last_None in Hlast. rewrite Hlast in Hx. inversion Hx.
Qed.

Lemma never_again_true e :
  e ∈ PageTable.table pt -> never_again off index file e = true ->
  forall x, x ∈ used_at off file e -> x < index.
Proof.
  intros He Hn x Hx. unfold never_again in Hn.
  destruct (last (used_at off file e)) as [y|] eqn:Hlast; [|discriminate].
  apply Z.ltb_lt in Hn.
  pose proof (sorted_last_max _ _ x (used_at_sorted e) Hlast Hx). lia.
Qed.

Lemma never_again_false e :
  e ∈ PageTable.table pt -> never_again off index file e = false ->
  exists x, x ∈ used_at off file e /\ index < x.
Proof using Hfull Hti Hseen Hmiss.
  intros He Hn. destruct (page_used_at_spec e He) as (_ & (x & Hx & _) & Hnot).
  unfold never_again in Hn.
  destruct (last (used_at off file e)) as [y|] eqn:Hlast.
  - apply Z.ltb_ge in Hn. apply last_Some_elem_of in Hlast.
    exists y. split; [exact Hlast|].
    destruct (decide (y = index)) as [->|]; [contradiction|lia].
  - apply last_None in Hlast. rewrite Hlast in Hx. inversion Hx.
Qed.

Lemma entryNextUsedAt_spec e :
  e ∈ PageTable.table pt -> never_again off index file e = false ->
  PageTable.entryNextUsedAt pt e index = Ok (next_use off index file e) /\
  next_use off index file e ∈ used_at off file e /\ index < next_use off index file e /\
  forall y, y ∈ used_at off file e -> index < y -> next_use off index file e <= y.
Proof using Hfull Hti Hseen Hmiss.
  intros He Hn. destruct (page_used_at_spec e He) as (Hused & _).
  destruct (never_again_false e He Hn) as (x & Hx & Hlt).
  pose proof (entryNextUsedAt_sorted pt e (used_at off file e) index Hused (used_at_sorted e))
    as Hspec.
  unfold next_use.
  destruct (list_find (fun x => index < x) (used_at off file e)) as [[i y]|] eqn:Hfind.
  - destruct Hspec as (_ & H1 & H2 & H3 & H4). auto.
  - destruct Hspec as (Hall & _). specialize (Hall x Hx). lia.
Qed.

(** The entry [OptimalTable.evict] chooses. *)
Lemma opt_victim_spec :
  exists v ev,
    PageTable.OptimalTable.victim pt index = Ok v /\
    PageTable.table pt !! v = Some ev /\
    ((never_again off index file ev = true /\
      forall j e, PageTable.table pt !! j = Some e -> never_again off index file e = true ->
        mra ev <= mra e /\ ((j < v)%nat -> mra ev < mra e))
     \/
     ((forall e, e ∈ PageTable.table pt -> never_again off index file e = false) /\
      forall j e, PageTable.table pt !! j = Some e ->
        next_use off index file e <= next_use off index file ev /\
        ((j < v)%nat ->
         next_use off index file e < next_use off index file ev))).
Proof using Hframes Hfull Hti Hseen Hmiss Hok.
  unfold PageTable.OptimalTable.victim.
  rewrite (filterM_pure _ (fun c => never_again off index file c.2)).
  2:{ intros [j e] Hc. apply elem_of_entries in Hc. simpl.
      apply entryIsNotUsedAgain_spec. eapply list_elem_of_lookup_2, Hc. }
  simpl bind.
  pose proof (filter_sorted by_position (fun c => never_again off index file c.2 = true)
                (PageTable.entries pt) (entries_sorted pt)) as Hs.
  destruct (filter (fun c => never_again off index file c.2 = true) (PageTable.entries pt))
    as [|first rest] eqn:Hfilter.
  - (* every page is used again *)
    assert (forall e, e ∈ PageTable.table pt ->
              never_again off index file e = false) as Hall.
    { intros e [j Hj]%list_elem_of_lookup.
      destruct (never_again off index file e) eqn:Hne; [|reflexivity].
      assert ((j, e) ∈ filter (fun c => never_again off index file c.2 = true)
                         (PageTable.entries pt))
        as Hin by (apply list_elem_of_filter; split; [exact Hne|apply elem_of_entries, Hj]).
      rewrite Hfilter in Hin. inversion Hin. }
    rewrite (mapM_pure _ (next_use off index file)).
    2:{ intros e He. apply entryNextUsedAt_spec; auto. }
    simpl bind.
    destruct (pymax_spec (next_use off index file <$> PageTable.table pt))
      as (m & -> & Hm & Hmax).
    { destruct Hok as (_ & Hlen & _).
      destruct (PageTable.table pt); [simpl in Hlen; lia|discriminate]. }
    simpl bind.
    destruct (pyindex_spec _ m Hm) as (v & -> & Hv & Hfirst).
    rewrite list_lookup_fmap in Hv.
    destruct (PageTable.table pt !! v) as [ev|] eqn:Hev; [|discriminate].
    injection Hv as Hv. exists v, ev. split; [reflexivity|]. split; [exact Hev|].
    right. split; [exact Hall|]. intros j e Hj. rewrite Hv.
    assert (next_use off index file e <= m) as Hle.
    { apply Hmax, list_elem_of_fmap. exists e.
      split; [reflexivity|eapply list_elem_of_lookup_2, Hj]. }
    split; [exact Hle|]. intros Hjv.
    assert (next_use off index file e <> m); [|lia].
    apply (Hfirst j); [|exact Hjv]. rewrite list_lookup_fmap, Hj. reflexivity.
  - (* some page is never used again *)
    destruct (lru_scan_spec first rest Hs) as (Hin & Hmin).
    destruct (PageTable.lru_scan first rest) as [v ev] eqn:Hscan.
    rewrite <- Hfilter in Hin, Hmin.
    apply list_elem_of_filter in Hin as [Hnev Hin]. simpl in Hnev.
    apply elem_of_entries in Hin.
    exists v, ev. split; [reflexivity|]. split; [exact Hin|].
    left. split; [exact Hnev|]. intros j e Hj Hne.
    apply (Hmin (j, e)). apply list_elem_of_filter.
    split; [exact Hne|apply elem_of_entries, Hj].
Qed.



End opt_decision.

Lemma resident_init c n off ti : resident (PageTable.init c n off ti) = [].
Proof.
  unfold resident. simpl. induction (Z.to_nat n) as [|k IH]; [reflexivity|].
  exact IH.
Qed.

Lemma miss_not_resident off n pt address :
  0 <= off -> table_ok off n pt ->
  PageTable.getTableEntryByAddress pt address = Ok None ->
  Z.shiftr address off ∉ resident pt.
Proof.
  intros Hoff Hok Hmiss. unfold PageTable.getTableEntryByAddress in Hmiss.
  rewrite (scan_for_address_spec off) in Hmiss
    by (try assumption; eapply table_ok_offsets, Hok).
  destruct (list_find _ (PageTable.table pt)) as [[i e]|] eqn:Hfind;
    [discriminate|].
  apply list_find_None in Hfind. rewrite Forall_forall in Hfind.
  unfold resident. intros (e & He & Hq)%list_elem_of_omap.
  apply (Hfind e He Hq).
Qed.

(** The state of an OPT run at a record that misses. *)
Lemma opt_miss_ready file n off sim done access_type address rest pt :
  VirtualMemorySimulator.init file n "opt" off = Ok sim ->
  file = done ++ (access_type, address) :: rest ->
  VirtualMemorySimulator.replay done 0 (VirtualMemorySimulator.page_table sim)
    = Ok pt ->
  0 <= off /\ table_ok off n pt /\ PageTable.cls pt = OptimalTable /\
  (forall q,
     PageTable.trace_indices pt !! q
     = match occurrences off q file 0 with
       | [] => None
       | l => Some l
       end) /\
  (forall q, q ∈ resident pt ->
     exists x, x ∈ occurrences off q file 0 /\ x < Z.of_nat (length done)) /\
  (PageTable.getTableEntryByAddress pt address = Ok None ->
   forall q, q ∈ resident pt ->
     Z.of_nat (length done) ∉ occurrences off q file 0).
Proof.
  intros Hinit Hfile Hrep.
  destruct (init_opt_trace_indices file n off sim Hinit) as (Hoff & Hti).
  { rewrite Hfile. destruct done; discriminate. }
  apply init_Ok in Hinit as (c & ti & _ & _ & _ & Hpt & Hc & _).
  assert (c = OptimalTable) as -> by (apply Hc; reflexivity).
  rewrite Hpt in Hrep, Hti.
  destruct (replay_counters off n done 0 _ pt
              (init_table_ok OptimalTable n off ti) Hrep)
    as (Hok & Hcls & Htis & _).
  split; [exact Hoff|]. split; [exact Hok|]. split; [exact Hcls|].
  split; [intros q; rewrite Htis; apply Hti|]. split.
  - intros q Hq.
    destruct (replay_resident off n done 0 _ pt q
                (init_table_ok OptimalTable n off ti) Hrep Hq)
      as [Hin|(r & [i Hi]%list_elem_of_lookup & Hpage)].
    { rewrite resident_init in Hin. inversion Hin. }
    exists (Z.of_nat i). pose proof (lookup_lt_Some _ _ _ Hi).
    split; [|lia]. apply elem_of_occurrences. exists i, r.
    split; [|auto]. rewrite Hfile. apply lookup_app_l_Some, Hi.
  - intros Hmiss q Hq (i & r & Hi & Hpage & Hidx)%elem_of_occurrences.
    assert (i = length done) as -> by lia.
    rewrite Hfile, list_lookup_middle in Hi by reflexivity. injection Hi as <-.
    apply (miss_not_resident off n pt address Hoff Hok Hmiss).
    unfold page_of in Hpage. simpl in Hpage. rewrite Hpage. exact Hq.
Qed.

(** ** C1: the OPT policy *)



(** ** Demand paging with [k] frames, and the furthest-in-future rule *)

Section paging.

Variable k : nat.

Lemma seen_in_perm w X Y : X ≡ₚ Y -> seen_in w X = seen_in w Y.
Proof. intros H. unfold seen_in. rewrite H. reflexivity. Qed.

Lemma seen_in_cons w x X : seen_in w (x :: X) = (occurs w x + seen_in w X)%nat.
Proof.
  unfold seen_in, occurs. destruct (decide (x ∈ w)) as [Hx|Hx].
  - rewrite filter_cons_True by exact Hx. reflexivity.
  - rewrite filter_cons_False by exact Hx. reflexivity.
Qed.

Lemma seen_in_le w X : (seen_in w X <= length X)%nat.
Proof. apply length_filter. Qed.

Lemma seen_in_all w X : (forall x, x ∈ X -> x ∈ w) -> seen_in w X = length X.
Proof.
  induction X as [|x X IH]; intros H; [reflexivity|].
  rewrite seen_in_cons. unfold occurs. rewrite decide_True by (apply H; left).
  rewrite IH by (intros y Hy; apply H; right; exact Hy). reflexivity.
Qed.

Lemma seen_in_skip w p X : p ∉ X -> seen_in (p :: w) X = seen_in w X.
Proof.
  induction X as [|x X IH]; intros Hp; [reflexivity|].
  apply not_elem_of_cons in Hp as [Hne Hp].
  rewrite !seen_in_cons, IH by exact Hp. f_equal. unfold occurs.
  destruct (decide (x ∈ w)) as [Hx|Hx].
  - rewrite decide_True by (right; exact Hx). reflexivity.
  - rewrite decide_False; [reflexivity|].
    intros [->|Hin]%elem_of_cons; [congruence|contradiction].
Qed.

Lemma seen_in_head w p X :
  NoDup X -> p ∈ X -> (seen_in (p :: w) X + occurs w p = seen_in w X + 1)%nat.
Proof.
  intros Hnd (R & HR)%elem_of_Permutation.
  rewrite HR in Hnd. apply NoDup_cons in Hnd as [Hp _].
  rewrite !(seen_in_perm _ _ _ HR), !seen_in_cons, seen_in_skip by exact Hp.
  unfold occurs at 1. rewrite decide_True by left. lia.
Qed.

Lemma seen_in_incl w p X X' :
  NoDup X' -> X' ⊆ p :: X -> (seen_in w X' <= occurs w p + seen_in w X)%nat.
Proof.
  intros Hnd Hsub. rewrite <- seen_in_cons. unfold seen_in.
  apply submseteq_length, NoDup_submseteq; [apply NoDup_filter, Hnd|].
  intros x [Hx Hin]%list_elem_of_filter. apply list_elem_of_filter.
  split; [exact Hx|apply Hsub, Hin].
Qed.

Lemma seen_in_member w p X :
  NoDup X -> p ∈ X -> (seen_in w X + 1 <= occurs w p + length X)%nat.
Proof.
  intros Hnd (R & HR)%elem_of_Permutation.
  rewrite (seen_in_perm _ _ _ HR), seen_in_cons, HR. simpl.
  pose proof (seen_in_le w R). lia.
Qed.

(** The furthest-in-future rule misses no more often than any demand
    policy with the same number of frames.  The statement allows the
    two runs to start from different memories: [d] bounds, over every
    prefix of the accesses, how many more pages of the prefix the
    other policy holds. *)
Lemma furthest_run_least (s : list Z) :
  forall (S0 T : list Z) (d cM cA : nat),
    NoDup S0 -> NoDup T -> (length T <= k)%nat ->
    (forall m, (seen_in (take m s) T <= seen_in (take m s) S0 + d)%nat) ->
    furthest_run k S0 s cM -> demand_run k T s cA -> (cM <= cA + d)%nat.
Proof.
  induction s as [|p s IH]; intros S0 T d cM cA HndS HndT HlenT Hd HM HA.
  { inversion HM; subst. lia. }
  assert (forall m, (seen_in (p :: take m s) T
                     <= seen_in (p :: take m s) S0 + d)%nat) as Hd'.
  { intros m. apply (Hd (S m)). }
  inversion HM as [|? ? ? cM' HpS HM'|? S' ? ? cM' HpS Hlen HS' HM'
                   |? S' f R ? ? cM' HpS Hlen HSf Hf HS' HM']; subst;
    inversion HA as [|? ? ? cA' HpT HA'|? T' ? ? cA' HpT HpT' Hsub HndT' HlenT' HA'];
    subst.
  - (* both hit *)
    apply (IH S0 T d); auto. intros m. specialize (Hd' m).
    pose proof (seen_in_head (take m s) p S0 HndS HpS).
    pose proof (seen_in_head (take m s) p T HndT HpT). lia.
  - (* only the other policy misses *)
    enough (cM <= cA' + S d)%nat by lia.
    apply (IH S0 T' (S d)); auto. intros m. specialize (Hd' m).
    pose proof (seen_in_head (take m s) p S0 HndS HpS).
    pose proof (seen_in_incl (take m s) p T T' HndT' Hsub).
    rewrite (seen_in_skip _ _ T HpT) in Hd'.
    unfold occurs in *. destruct (decide (p ∈ take m s)); lia.
  - (* only the furthest-in-future rule misses, a frame is free *)
    assert (0 < d)%nat as Hpos.
    { specialize (Hd' 0%nat). rewrite take_0 in Hd'.
      pose proof (seen_in_head [] p T HndT HpT) as HT.
      rewrite (seen_in_skip _ _ S0 HpS) in Hd'.
      unfold occurs, seen_in in *. rewrite decide_False in HT by (intros H; inversion H).
      assert (filter (fun x => x ∈ []) S0 = []) as HS0.
      { clear. induction S0 as [|x S0 IH]; [reflexivity|].
        rewrite filter_cons_False by (intros H; inversion H). exact IH. }
      rewrite HS0 in Hd'. simpl in Hd'. lia. }
    destruct d as [|d]; [lia|].
    enough (cM' <= cA + d)%nat by lia.
    apply (IH S' T d); auto.
    { rewrite HS'. apply NoDup_cons. auto. }
    intros m. specialize (Hd' m).
    rewrite (seen_in_perm _ _ _ HS'), seen_in_cons.
    pose proof (seen_in_head (take m s) p T HndT HpT).
    rewrite (seen_in_skip _ _ S0 HpS) in Hd'. lia.
  - (* both miss, a frame is free *)
    enough (cM' <= cA' + d)%nat by lia.
    apply (IH S' T' d); auto.
    { rewrite HS'. apply NoDup_cons. auto. }
    intros m. specialize (Hd' m).
    rewrite (seen_in_perm _ _ _ HS'), seen_in_cons.
    pose proof (seen_in_incl (take m s) p T T' HndT' Hsub).
    rewrite (seen_in_skip _ _ S0 HpS), (seen_in_skip _ _ T HpT) in Hd'. lia.
  - (* only the furthest-in-future rule misses, and replaces [f] *)
    assert (0 < d)%nat as Hpos.
    { specialize (Hd' 0%nat). rewrite take_0 in Hd'.
      pose proof (seen_in_head [] p T HndT HpT) as HT.
      rewrite (seen_in_skip _ _ S0 HpS) in Hd'.
      unfold occurs, seen_in in *. rewrite decide_False in HT by (intros H; inversion H).
      assert (filter (fun x => x ∈ []) S0 = []) as HS0.
      { clear. induction S0 as [|x S0 IH]; [reflexivity|].
        rewrite filter_cons_False by (intros H; inversion H). exact IH. }
      rewrite HS0 in Hd'. simpl in Hd'. lia. }
    destruct d as [|d]; [lia|].
    enough (cM' <= cA + d)%nat by lia.
    pose proof HndS as HndR. rewrite HSf in HndR. apply NoDup_cons in HndR as [HfR HndR].
    assert (p ∉ R) as HpR.
    { intros Hin. apply HpS. rewrite HSf. right. exact Hin. }
    apply (IH S' T d); auto.
    { rewrite HS'. apply NoDup_cons. auto. }
    intros m. specialize (Hd' m).
    rewrite (seen_in_perm _ _ _ HS'), seen_in_cons.
    pose proof (seen_in_head (take m s) p T HndT HpT).
    rewrite (seen_in_skip _ _ S0 HpS), (seen_in_perm _ _ _ HSf), seen_in_cons in Hd'.
    unfold occurs in Hd'. destruct (decide (f ∈ take m s)) as [Hfm|Hfm]; [|lia].
    rewrite (seen_in_all (take m s) R) by (intros x Hx; apply (Hf m Hfm x Hx)).
    pose proof (seen_in_member (take m s) p T HndT HpT).
    assert (length S0 = S (length R)) as HlenS by (rewrite HSf; reflexivity).
    lia.
  - (* both miss, the furthest-in-future rule replaces [f] *)
    enough (cM' <= cA' + d)%nat by lia.
    pose proof HndS as HndR. rewrite HSf in HndR. apply NoDup_cons in HndR as [HfR HndR].
    assert (p ∉ R) as HpR.
    { intros Hin. apply HpS. rewrite HSf. right. exact Hin. }
    apply (IH S' T' d); auto.
    { rewrite HS'. apply NoDup_cons. auto. }
    intros m. specialize (Hd' m).
    rewrite (seen_in_perm _ _ _ HS'), seen_in_cons.
    pose proof (seen_in_incl (take m s) p T T' HndT' Hsub).
    rewrite (seen_in_skip _ _ S0 HpS), (seen_in_skip _ _ T HpT),
      (seen_in_perm _ _ _ HSf), seen_in_cons in Hd'.
    unfold occurs in Hd'. destruct (decide (f ∈ take m s)) as [Hfm|Hfm]; [|lia].
    rewrite (seen_in_all (take m s) R) by (intros x Hx; apply (Hf m Hfm x Hx)).
    pose proof (seen_in_member (take m s) p T' HndT' HpT').
    assert (length S0 = S (length R)) as HlenS by (rewrite HSf; reflexivity).
    lia.
Qed.

End paging.

(** ** The runs of the three policies as demand paging *)

Lemma lookup_after done (r : mem_access) rest j :
  (done ++ r :: rest) !! (length done + 1 + j)%nat = rest !! j.
Proof.
  rewrite lookup_app_r by lia.
  replace (length done + 1 + j - length done)%nat with (S j) by lia. reflexivity.
Qed.

(** The entry the OPT policy clears holds a page accessed furthest in
    the future among the pages in memory. *)
Lemma opt_victim_furthest off n file pt done r rest v ev f :
  0 < n -> table_ok off n pt -> PageTable.tableIsFull pt = true ->
  (forall q,
     PageTable.trace_indices pt !! q
     = match occurrences off q file 0 with
       | [] => None
       | l => Some l
       end) ->
  (forall q, q ∈ resident pt ->
     exists x, x ∈ occurrences off q file 0 /\ x < Z.of_nat (length done)) ->
  (forall q, q ∈ resident pt -> Z.of_nat (length done) ∉ occurrences off q file 0) ->
  file = done ++ r :: rest ->
  PageTable.OptimalTable.victim pt (Z.of_nat (length done)) = Ok v ->
  PageTable.table pt !! v = Some ev ->
  page_number_of ev = Some f ->
  furthest f (resident pt) (page_of off <$> rest).
Proof.
  intros Hn Hok Hfull Hti Hseen Hmiss Hfile Hv Hev Hf.
  set (index := Z.of_nat (length done)) in *.
  destruct (opt_victim_spec off n index file pt Hn Hok Hfull Hti Hseen Hmiss)
    as (v' & ev' & Hv' & Hev' & Hcase).
  rewrite Hv in Hv'. injection Hv' as <-. rewrite Hev in Hev'. injection Hev' as <-.
  assert (used_at off file ev = occurrences off f file 0) as Hused.
  { unfold used_at. rewrite Hf. reflexivity. }
  intros m (j & Hj & Hjm)%elem_of_take x Hx.
  apply list_lookup_fmap_Some in Hj as (rj & Hpj & Hrj).
  assert (index + 1 + Z.of_nat j ∈ occurrences off f file 0) as Hocc.
  { apply elem_of_occurrences. exists (length done + 1 + j)%nat, rj.
    split; [rewrite Hfile; rewrite lookup_after; exact Hrj|].
    split; [congruence|]. unfold index. lia. }
  pose proof (list_elem_of_lookup_2 _ _ _ Hev) as Hin.
  destruct Hcase as [(Hnev & _)|(Hall & Hmax)].
  { pose proof (never_again_true off index file pt ev Hin Hnev
                  (index + 1 + Z.of_nat j)) as Hlt.
    rewrite Hused in Hlt. specialize (Hlt Hocc). lia. }
  unfold resident in Hx. apply list_elem_of_omap in Hx as (e & He & Hpe).
  destruct (entryNextUsedAt_spec off index file pt Hfull Hti Hseen Hmiss ev Hin
              (Hall ev Hin)) as (_ & _ & _ & Hmin).
  destruct (entryNextUsedAt_spec off index file pt Hfull Hti Hseen Hmiss e He
              (Hall e He)) as (_ & Hnext & Hgt & _).
  rewrite Hused in Hmin. specialize (Hmin _ Hocc).
  apply list_elem_of_lookup in He as (je & Hje).
  destruct (Hmax je e Hje) as [Hle _].
  unfold used_at in Hnext. rewrite Hpe in Hnext.
  apply elem_of_occurrences in Hnext as (i' & r' & Hi' & Hp' & Heq).
  assert (exists j', i' = (length done + 1 + j')%nat /\ (j' <= j)%nat) as (j' & -> & Hj').
  { exists (i' - length done - 1)%nat. unfold index in *. lia. }
  rewrite Hfile, lookup_after in Hi'.
  apply elem_of_take. exists j'. split; [|lia].
  rewrite list_lookup_fmap, Hi'. simpl. congruence.
Qed.

Lemma query_miss_position off n self address access_type index self' i :
  frames self' = <[i := Some (Z.shiftr address off)]> (frames self) ->
  (PageTable.tableIsFull self = false /\
   frames self !! i = Some None /\
   PageTable.writes_to_disk self' = PageTable.writes_to_disk self
   \/
   PageTable.tableIsFull self = true /\
   exists self1,
     PageTable.evict self index = Ok self1 /\ evicted self i self1 /\
     PageTable.writes_to_disk self' = PageTable.writes_to_disk self1) ->
  table_ok off n self ->
  PageTable.query self address access_type index = Ok self' ->
  exists o, frames self !! i = Some o /\ Z.shiftr address off ∈ resident self'.
Proof.
  intros Hfr Hcase _ _.
  assert (exists o, frames self !! i = Some o) as (o & Ho).
  { destruct Hcase as [(_ & Hi & _)|(_ & self1 & _ & (e & e0 & He & _) & _)];
      [eauto|].
    unfold frames. rewrite list_lookup_fmap, He. simpl. eauto. }
  exists o. split; [exact Ho|]. apply elem_of_resident. rewrite Hfr.
  eapply list_elem_of_lookup_2, list_lookup_insert_eq, lookup_lt_Some, Ho.
Qed.

(** A replay under any of the three policies is a run of demand
    paging, and [page_faults] counts its misses. *)
Lemma replay_demand_run off n file index pt pt' :
  table_ok off n pt ->
  VirtualMemorySimulator.replay file index pt = Ok pt' ->
  exists c,
    demand_run (Z.to_nat n) (resident pt) (page_of off <$> file) c /\
    PageTable.page_faults pt' = PageTable.page_faults pt + Z.of_nat c.
Proof.
  revert index pt. induction file as [|[ty a] file IH]; intros index pt Hok H.
  - injection H as <-. exists 0%nat. split; [constructor|simpl; lia].
  - simpl in H. inv_bind H as pt1 Hq.
    pose proof (query_offset _ _ _ _ _ _ _ Hok Hq) as Hoff.
    pose proof (query_table_ok _ _ _ _ _ _ _ Hok Hoff Hq) as Hok1.
    destruct (IH _ _ Hok1 H) as (c & Hrun & Hpf).
    destruct (query_frames off n pt a ty index pt1 Hok Hoff Hq)
      as [(Hin & Hfr & Hpf1 & _)|(Hnot & Hpf1 & i & Hfr & Hcase)].
    + exists c. split; [|lia]. simpl. apply demand_hit.
      * apply elem_of_resident, Hin.
      * rewrite resident_frames, <- Hfr, <- resident_frames. exact Hrun.
    + exists (S c). split; [|lia]. simpl.
      destruct (query_miss_position _ _ _ _ _ _ _ _ Hfr Hcase Hok Hq)
        as (o & _ & Hin).
      apply (demand_miss _ _ (resident pt1)).
      * rewrite elem_of_resident. exact Hnot.
      * exact Hin.
      * intros x Hx.
        destruct (query_resident _ _ _ _ _ _ _ _ Hok Hq Hx) as [Hx'| ->];
          [right; exact Hx'|left].
      * apply Hok1.
      * pose proof (length_resident pt1). destruct Hok1 as (_ & Hlen & _). lia.
      * exact Hrun.
Qed.

(** A replay under the OPT policy follows the furthest-in-future
    rule. *)
Lemma replay_furthest_run file n off sim :
  VirtualMemorySimulator.init file n "opt" off = Ok sim ->
  forall rest done pt pt',
    file = done ++ rest ->
    VirtualMemorySimulator.replay done 0 (VirtualMemorySimulator.page_table sim)
      = Ok pt ->
    VirtualMemorySimulator.replay rest (Z.of_nat (length done)) pt = Ok pt' ->
    exists c,
      furthest_run (Z.to_nat n) (resident pt) (page_of off <$> rest) c /\
      PageTable.page_faults pt' = PageTable.page_faults pt + Z.of_nat c.
Proof.
  intros Hinit. induction rest as [|[ty a] rest IH]; intros done pt pt' Hfile Hrep H.
  - injection H as <-. exists 0%nat. split; [constructor|simpl; lia].
  - simpl in H. inv_bind H as pt1 Hq.
    destruct (opt_miss_ready _ _ _ _ _ _ _ _ _ Hinit Hfile Hrep)
      as (Hoff & Hok & Hcls & Hti & Hseen & Hnot).
    pose proof (query_table_ok _ _ _ _ _ _ _ Hok Hoff Hq) as Hok1.
    destruct (IH (done ++ [(ty, a)]) pt1 pt') as (c & Hrun & Hpf).
    { rewrite Hfile, <- app_assoc. reflexivity. }
    { rewrite replay_app, Hrep. simpl. rewrite Z.add_0_l, Hq. reflexivity. }
    { rewrite length_app. simpl.
      replace (Z.of_nat (length done + 1)) with (Z.of_nat (length done) + 1) by lia.
      exact H. }
    destruct (query_frames off n pt a ty _ pt1 Hok Hoff Hq)
      as [(Hin & Hfr & Hpf1 & _)|(Hmiss & Hpf1 & i & Hfr & Hcase)].
    + exists c. split; [|lia]. simpl. apply furthest_hit.
      * apply elem_of_resident, Hin.
      * rewrite resident_frames, <- Hfr, <- resident_frames. exact Hrun.
    + exists (S c). split; [|lia]. simpl.
      assert (Z.shiftr a off ∉ resident pt) as HqS
        by (rewrite elem_of_resident; exact Hmiss).
      destruct (query_miss_position _ _ _ _ _ _ _ _ Hfr Hcase Hok Hq)
        as (o & Ho & _).
      destruct (frames_insert_resident pt pt1 i _ o Ho Hfr) as (R & HR & HR').
      destruct Hcase as [(Hfull & Hnone & _)|(Hfull & self1 & Hev & Hv & _)].
      * (* a frame is free *)
        rewrite Hnone in Ho. injection Ho as <-. simpl in HR.
        apply (furthest_free _ _ (resident pt1)).
        -- exact HqS.
        -- pose proof (resident_not_full pt Hfull).
           destruct Hok as (_ & Hlen & _). lia.
        -- rewrite HR', HR. reflexivity.
        -- exact Hrun.
      * (* the policy evicts *)
        assert (0 < n) as Hn.
        { destruct Hv as (e & _ & He & _). apply lookup_lt_Some in He.
          destruct Hok as (_ & Hlen & _). lia. }
        assert (PageTable.getTableEntryByAddress pt a = Ok None) as Hnone.
        { unfold PageTable.getTableEntryByAddress.
          rewrite (scan_for_address_spec off)
            by (try assumption; eapply table_ok_offsets, Hok).
          destruct (list_find _ (PageTable.table pt)) as [[j e]|] eqn:Hfind;
            [|reflexivity].
          exfalso. apply list_find_Some in Hfind as (He & Hpe & _).
          apply HqS. unfold resident. apply list_elem_of_omap.
          exists e. split; [eapply list_elem_of_lookup_2, He|exact Hpe]. }
        destruct (opt_victim_spec off n (Z.of_nat (length done)) file pt
                    Hn Hok Hfull Hti Hseen (Hnot Hnone))
          as (v & ev & Hvic & Hev' & _).
        assert (i = v) as ->.
        { unfold PageTable.evict, PageTable.OptimalTable.evict in Hev.
          rewrite Hcls, Hvic in Hev. simpl in Hev.
          apply clearEntry_Ok in Hev as (e' & He' & ->).
          destruct Hv as (e & e0 & He & _ & _ & Hcleared & _).
          destruct (decide (i = v)) as [|Hne]; [assumption|exfalso].
          assert (PageTable.table pt !! i = Some (PageTableEntry.clear e0)) as Hi.
          { rewrite <- Hcleared. destruct (PageTableEntry.dirty e'); simpl;
              symmetry; apply list_lookup_insert_ne; congruence. }
          apply tableIsFull_true in Hfull. rewrite Forall_lookup in Hfull.
          apply (Hfull i _ Hi). reflexivity. }
        destruct (entry_resident pt Hfull ev) as (f & Hf & _).
        { eapply list_elem_of_lookup_2, Hev'. }
        assert (o = Some f) as ->.
        { unfold frames in Ho. rewrite list_lookup_fmap, Hev' in Ho.
          simpl in Ho. congruence. }
        simpl in HR.
        apply (furthest_evict _ _ (resident pt1) f R).
        -- exact HqS.
        -- rewrite (resident_full pt Hfull). apply Hok.
        -- exact HR.
        -- intros m Hm x Hx.
           apply (opt_victim_furthest off n file pt done (ty, a) rest v ev f
                    Hn Hok Hfull Hti Hseen (Hnot Hnone) Hfile Hvic Hev' Hf m Hm).
           rewrite HR. right. exact Hx.
        -- exact HR'.
        -- exact Hrun.
Qed.

(** ** Runs complete *)

Lemma access_valid e access_type index :
  access_type = "l"%string \/ access_type = "s"%string ->
  exists e1, PageTableEntry.access e access_type index = Ok e1.
Proof. intros [-> | ->]; eexists; reflexivity. Qed.

Lemma clearEntry_lookup self v e :
  PageTable.table self !! v = Some e ->
  exists self1, PageTable.clearEntry self v = Ok self1.
Proof.
  intros He. unfold PageTable.clearEntry, PageTable.entry_at. rewrite He.
  simpl. eauto.
Qed.

(** A query returns whenever the access type is valid and the
    eviction, if one is needed, returns. *)
Lemma query_completes off n pt address access_type index :
  table_ok off n pt -> 0 <= off ->
  access_type = "l"%string \/ access_type = "s"%string ->
  (PageTable.tableIsFull pt = true ->
   PageTable.getTableEntryByAddress pt address = Ok None ->
   exists pt1, PageTable.evict pt index = Ok pt1) ->
  exists pt', PageTable.query pt address access_type index = Ok pt'.
Proof.
  intros Hok Hoff Hty Hev.
  pose proof (table_ok_offsets off n pt Hok) as Hoffs.
  unfold PageTable.query.
  destruct (PageTable.getTableEntryByAddress pt address) as [r|err] eqn:Hscan.
  2:{ unfold PageTable.getTableEntryByAddress in Hscan.
      rewrite (scan_for_address_spec off) in Hscan by assumption. discriminate. }
  simpl. destruct r as [i|].
  - unfold PageTable.getTableEntryByAddress in Hscan.
    rewrite (scan_for_address_spec off) in Hscan by assumption.
    destruct (list_find _ (PageTable.table pt)) as [[j e]|] eqn:Hfind;
      [|discriminate].
    injection Hscan as <-. simpl.
    apply list_find_Some in Hfind as (He & _).
    unfold PageTable.entry_at. rewrite He. simpl.
    destruct (access_valid e access_type index Hty) as (e1 & ->). simpl. eauto.
  - assert (exists pt1 tbl i e,
              PageTable.evictAndLoad pt address index
              = Ok (PageTable.with_table pt1 tbl, i) /\ tbl !! i = Some e)
      as (pt1 & tbl & i & e & -> & He).
    { unfold PageTable.evictAndLoad.
      destruct (PageTable.tableIsFull pt) eqn:Hfull.
      - destruct (Hev eq_refl eq_refl) as (pt1 & Hpt1). rewrite Hpt1. simpl.
        destruct (evict_evicted _ _ _ _ _ Hok Hpt1) as (v & Hv).
        destruct (evicted_first_free _ _ _ Hfull Hv) as (e & Hfind & He & _).
        unfold PageTable.load.
        rewrite (load_scan_spec off), Hfind
          by (try assumption; eapply evicted_offsets; eauto).
        simpl. eexists pt1, _, v, _. split; [reflexivity|].
        apply list_lookup_insert_eq. eapply lookup_lt_Some, He.
      - apply tableIsFull_false in Hfull. unfold PageTable.load.
        rewrite (load_scan_spec off) by assumption.
        destruct (list_find _ (PageTable.table pt)) as [[j e]|] eqn:Hfind.
        + simpl. eexists pt, _, j, _. split; [reflexivity|].
          apply list_find_Some in Hfind as (He & _).
          apply list_lookup_insert_eq. eapply lookup_lt_Some, He.
        + apply list_find_None in Hfind. rewrite Forall_forall in Hfind.
          apply Exists_exists in Hfull as (e & He & Hnone).
          destruct (Hfind e He Hnone). }
    simpl. unfold PageTable.entry_at. simpl. rewrite He. simpl.
    destruct (access_valid e access_type index Hty) as (e1 & ->). simpl. eauto.
Qed.

(** The evictions of LRU and second chance return on every table with
    at least one frame. *)
Lemma evict_completes off n pt index :
  0 < n -> table_ok off n pt -> PageTable.cls pt <> OptimalTable ->
  exists pt1, PageTable.evict pt index = Ok pt1.
Proof.
  intros Hn (Hsize & Hlen & _) Hcls. unfold PageTable.evict.
  destruct (PageTable.cls pt); [contradiction| |].
  - unfold PageTable.LRUTable.evict, PageTable.LRUTable.victim.
    pose proof (entries_sorted pt) as Hs.
    destruct (PageTable.entries pt) as [|first rest] eqn:He.
    { apply entries_nil in He. rewrite He in Hlen. simpl in Hlen. lia. }
    destruct (lru_scan_spec first rest Hs) as (Hin & _).
    destruct (PageTable.lru_scan first rest) as [v e]. simpl.
    rewrite <- He in Hin. apply elem_of_entries in Hin.
    eapply clearEntry_lookup, Hin.
  - destruct (second_chance_evict_spec pt index) as (k & pt1 & _ & Hev & _).
    { split; lia. }
    eauto.
Qed.

Lemma replay_completes off n file index pt :
  0 < n -> 0 <= off -> table_ok off n pt -> PageTable.cls pt <> OptimalTable ->
  Forall valid_access file ->
  exists pt', VirtualMemorySimulator.replay file index pt = Ok pt'.
Proof.
  intros Hn Hoff Hok Hcls Hvalid. revert index pt Hok Hcls.
  induction Hvalid as [|[ty a] file Hty Hvalid IH]; intros index pt Hok Hcls.
  - simpl. eauto.
  - simpl. destruct (query_completes off n pt a ty index Hok Hoff Hty)
      as (pt1 & Hq).
    { intros _ _. apply (evict_completes off n); assumption. }
    rewrite Hq. simpl. apply IH.
    + eapply query_table_ok; eauto.
    + destruct (query_keeps _ _ _ _ _ _ _ Hok Hq) as [-> _]. exact Hcls.
Qed.

Lemma replay_completes_opt file n off sim :
  0 < n ->
  VirtualMemorySimulator.init file n "opt" off = Ok sim ->
  forall rest done pt,
    file = done ++ rest ->
    VirtualMemorySimulator.replay done 0 (VirtualMemorySimulator.page_table sim)
      = Ok pt ->
    Forall valid_access rest ->
    exists pt', VirtualMemorySimulator.replay rest (Z.of_nat (length done)) pt = Ok pt'.
Proof.
  intros Hn Hinit. induction rest as [|[ty a] rest IH]; intros done pt Hfile Hrep Hvalid.
  - simpl. eauto.
  - apply Forall_cons in Hvalid as [Hty Hvalid].
    destruct (opt_miss_ready _ _ _ _ _ _ _ _ _ Hinit Hfile Hrep)
      as (Hoff & Hok & Hcls & Hti & Hseen & Hnot).
    simpl. destruct (query_completes off n pt a ty (Z.of_nat (length done))
                       Hok Hoff Hty) as (pt1 & Hq).
    { intros Hfull Hmiss.
      destruct (opt_victim_spec off n (Z.of_nat (length done)) file pt
                  Hn Hok Hfull Hti Hseen (Hnot Hmiss))
        as (v & ev & Hv & Hev & _).
      unfold PageTable.evict, PageTable.OptimalTable.evict. rewrite Hcls, Hv. simpl.
      eapply clearEntry_lookup, Hev. }
    rewrite Hq. simpl.
    destruct (IH (done ++ [(ty, a)]) pt1) as (pt' & Hpt').
    { rewrite Hfile, <- app_assoc. reflexivity. }
    { rewrite replay_app, Hrep. simpl. rewrite Z.add_0_l, Hq. reflexivity. }
    { exact Hvalid. }
    rewrite length_app in Hpt'. simpl in Hpt'.
    replace (Z.of_nat (length done + 1)) with (Z.of_nat (length done) + 1) in Hpt'
      by lia.
    eauto.
Qed.

Lemma index_trace_other off file index m ti :
  VirtualMemorySimulator.index_trace false off file index m ti
  = Ok (m + Z.of_nat (length file), ti).
Proof.
  revert index m. induction file as [|[ty a] file IH]; intros index m.
  - simpl. rewrite Z.add_0_r. reflexivity.
  - cbn [VirtualMemorySimulator.index_trace]. rewrite IH. simpl length.
    do 2 f_equal. lia.
Qed.

(** With at least one frame, a non-negative offset width and a trace
    of loads and stores, the run of each policy completes: no
    exception is raised and no loop runs out of iterations. *)
Lemma simulate_completes file n mode off :
  0 < n -> 0 <= off -> Forall valid_access file ->
  mode = "opt"%string \/ mode = "lru"%string \/ mode = "second"%string ->
  exists stats, VirtualMemorySimulator.simulate file n mode off = Ok stats.
Proof.
  intros Hn Hoff Hvalid Hmode.
  assert (exists sim, VirtualMemorySimulator.init file n mode off = Ok sim)
    as (sim & Hinit).
  { unfold VirtualMemorySimulator.init.
    destruct Hmode as [-> |[-> | ->]]; simpl.
    - destruct (index_trace_opt off file 0 0 ∅ Hoff) as (ti & -> & _).
      simpl. eauto.
    - rewrite index_trace_other. simpl. eauto.
    - rewrite index_trace_other. simpl. eauto. }
  unfold VirtualMemorySimulator.simulate, VirtualMemorySimulator.run.
  rewrite Hinit. simpl.
  assert (exists pt, VirtualMemorySimulator.replay
                       (VirtualMemorySimulator.source_file sim) 0
                       (VirtualMemorySimulator.page_table sim) = Ok pt)
    as (pt & ->); [|simpl; eauto].
  pose proof Hinit as (c & ti & _ & -> & _ & Hpt & Hopt & _)%init_Ok.
  destruct (decide (mode = "opt"%string)) as [-> |Hne].
  - apply (replay_completes_opt file n off sim Hn Hinit file []);
      [reflexivity|reflexivity|exact Hvalid].
  - rewrite Hpt. apply (replay_completes off n); auto using init_table_ok.
    simpl. intros Hc. apply Hne, Hopt, Hc.
Qed.

(** ** C6: OPT against LRU and second chance *)

Lemma simulate_Ok file n mode off stats :
  VirtualMemorySimulator.simulate file n mode off = Ok stats ->
  exists sim pt,
    VirtualMemorySimulator.init file n mode off = Ok sim /\
    VirtualMemorySimulator.replay file 0 (VirtualMemorySimulator.page_table sim)
      = Ok pt /\
    table_ok off n (VirtualMemorySimulator.page_table sim) /\
    resident (VirtualMemorySimulator.page_table sim) = [] /\
    PageTable.page_faults (VirtualMemorySimulator.page_table sim) = 0 /\
    VirtualMemorySimulator.page_faults stats = PageTable.page_faults pt.
Proof.
  unfold VirtualMemorySimulator.simulate, VirtualMemorySimulator.run. intros H.
  inv_bind H as sim Hinit. inv_bind H as pt Hrep. injection H as <-.
  exists sim, pt. split; [exact Hinit|].
  apply init_Ok in Hinit as (c & ti & _ & Hsrc & _ & Hpt & _).
  rewrite Hsrc in Hrep. split; [exact Hrep|]. rewrite Hpt.
  split; [apply init_table_ok|]. split; [apply resident_init|]. auto.
Qed.

Lemma opt_faults_least file n mode off so sm :
  VirtualMemorySimulator.simulate file n "opt" off = Ok so ->
  VirtualMemorySimulator.simulate file n mode off = Ok sm ->
  VirtualMemorySimulator.page_faults so <= VirtualMemorySimulator.page_faults sm.
Proof.
  intros (simo & pto & Hinito & Hrepo & _ & Hreso & Hpfo & ->)%simulate_Ok
         (simm & ptm & Hinitm & Hrepm & Hokm & Hresm & Hpfm & ->)%simulate_Ok.
  destruct (replay_furthest_run file n off simo Hinito file [] _ pto
              eq_refl eq_refl Hrepo) as (cM & HM & HpM).
  destruct (replay_demand_run off n file 0 _ ptm Hokm Hrepm) as (cA & HA & HpA).
  rewrite Hreso in HM. rewrite Hresm in HA.
  pose proof (furthest_run_least (Z.to_nat n) (page_of off <$> file) [] [] 0 cM cA)
    as Hle.
  assert (cM <= cA + 0)%nat; [|lia].
  apply Hle; auto using NoDup_nil_2.
  simpl. lia.
Qed.

(** C6.  On the same trace, with the same number of frames and the
    same offset width, a run under OPT that completes counts no more
    page faults than a run under LRU that completes, and no more than
    a run under second chance that completes.  With at least one
    frame, a non-negative offset width and a trace of loads and
    stores, the three runs complete. *)
Theorem opt_faults_minimal (file : list mem_access) (num_frames offset_bits : Z) :
  (forall opt lru second,
     VirtualMemorySimulator.simulate file num_frames "opt" offset_bits = Ok opt ->
     VirtualMemorySimulator.simulate file num_frames "lru" offset_bits = Ok lru ->
     VirtualMemorySimulator.simulate file num_frames "second" offset_bits
       = Ok second ->
     VirtualMemorySimulator.page_faults opt
       <= VirtualMemorySimulator.page_faults lru /\
     VirtualMemorySimulator.page_faults opt
       <= VirtualMemorySimulator.page_faults second) /\
  (0 < num_frames -> 0 <= offset_bits -> Forall valid_access file ->
   exists opt lru second,
     VirtualMemorySimulator.simulate file num_frames "opt" offset_bits = Ok opt /\
     VirtualMemorySimulator.simulate file num_frames "lru" offset_bits = Ok lru /\
     VirtualMemorySimulator.simulate file num_frames "second" offset_bits
       = Ok second /\
     VirtualMemorySimulator.page_faults opt
       <= VirtualMemorySimulator.page_faults lru /\
     VirtualMemorySimulator.page_faults opt
       <= VirtualMemorySimulator.page_faults second).
Proof.
  split.
  - intros opt lru second Hopt Hlru Hsecond.
    split; eapply opt_faults_least; eauto.
  - intros Hn Hoff Hvalid.
    destruct (simulate_completes file num_frames "opt" offset_bits Hn Hoff Hvalid)
      as (opt & Hopt); [auto|].
    destruct (simulate_completes file num_frames "lru" offset_bits Hn Hoff Hvalid)
      as (lru & Hlru); [auto|].
    destruct (simulate_completes file num_frames "second" offset_bits Hn Hoff Hvalid)
      as (second & Hsecond); [auto|].
    exists opt, lru, second. split; [exact Hopt|]. split; [exact Hlru|].
    split; [exact Hsecond|]. split; eapply opt_faults_least; eauto.
Qed.

Lemma opt_faults_minimal_witness :
  (0 < 2 /\ 0 <= 12 /\ Forall valid_access scenario) /\
  exists opt lru second,
    VirtualMemorySimulator.simulate scenario 2 "opt" 12 = Ok opt /\
    VirtualMemorySimulator.simulate scenario 2 "lru" 12 = Ok lru /\
    VirtualMemorySimulator.simulate scenario 2 "second" 12 = Ok second /\
    VirtualMemorySimulator.page_faults opt
      <= VirtualMemorySimulator.page_faults lru /\
    VirtualMemorySimulator.page_faults opt
      <= VirtualMemorySimulator.page_faults second.
Proof.
  assert (0 < 2) as Hn by lia.
  assert (0 <= 12) as Hoff by lia.
  assert (Forall valid_access scenario) as Hvalid
    by (repeat constructor; left; reflexivity).
  split; [auto|].
  apply (proj2 (opt_faults_minimal scenario 2 12) Hn Hoff Hvalid).
Defined.

(** * Further properties of the code *)

(** ** Induction over the records of a run *)

Lemma replayed_between_queries file n mode off done pt :
  replayed file n mode off done pt -> between_queries file n mode off pt.
Proof. intros (sim & rest & H). exists sim, done, rest. exact H. Qed.

Lemma replayed_ok file n mode off done pt :
  replayed file n mode off done pt -> table_ok off n pt.
Proof. intros H. eapply between_queries_ok, replayed_between_queries, H. Qed.

Lemma replayed_ind file n mode off (P : list mem_access -> PageTable.t -> Prop) :
  (forall sim,
     VirtualMemorySimulator.init file n mode off = Ok sim ->
     P [] (VirtualMemorySimulator.page_table sim)) ->
  (forall done r pt pt',
     replayed file n mode off done pt -> P done pt ->
     replayed file n mode off (done ++ [r]) pt' ->
     PageTable.query pt r.2 r.1 (Z.of_nat (length done)) = Ok pt' ->
     P (done ++ [r]) pt') ->
  forall done pt, replayed file n mode off done pt -> P done pt.
Proof.
  intros Hbase Hstep done.
  induction done as [|r done IH] using rev_ind;
    intros pt (sim & rest & Hinit & Hfile & Hrep).
  - injection Hrep as <-. apply Hbase, Hinit.
  - rewrite replay_app in Hrep. inv_bind Hrep as pt1 Hrep1.
    destruct r as [ty a]. simpl in Hrep. inv_bind Hrep as pt2 Hq.
    injection Hrep as <-. rewrite Z.add_0_l in Hq.
    assert (replayed file n mode off done pt1) as Hpt1.
    { exists sim, ((ty, a) :: rest). split; [exact Hinit|].
      split; [rewrite Hfile, <- app_assoc; reflexivity|exact Hrep1]. }
    apply (Hstep done (ty, a) pt1 pt2 Hpt1 (IH pt1 Hpt1)); [|exact Hq].
    exists sim, rest. split; [exact Hinit|]. split; [exact Hfile|].
    rewrite replay_app, Hrep1. simpl. rewrite Z.add_0_l, Hq. reflexivity.
Qed.

(** No two entries hold the same page. *)
Lemma resident_unique self i j x y q :
  NoDup (resident self) ->
  PageTable.table self !! i = Some x -> PageTable.table self !! j = Some y ->
  page_number_of x = Some q -> page_number_of y = Some q -> i = j.
Proof.
  unfold resident. generalize (PageTable.table self). clear self.
  intros tbl. revert i j. induction tbl as [|e tbl IH]; intros i j Hnd Hi Hj Hx Hy.
  - discriminate.
  - csimpl in Hnd. destruct i as [|i], j as [|j]; simpl in Hi, Hj.
    + reflexivity.
    + injection Hi as ->. rewrite Hx in Hnd. csimpl in Hnd.
      apply NoDup_cons in Hnd as [Hnot _]. exfalso. apply Hnot.
      apply list_elem_of_omap. exists y.
      split; [eapply list_elem_of_lookup_2, Hj|exact Hy].
    + injection Hj as ->. rewrite Hy in Hnd. csimpl in Hnd.
      apply NoDup_cons in Hnd as [Hnot _]. exfalso. apply Hnot.
      apply list_elem_of_omap. exists x.
      split; [eapply list_elem_of_lookup_2, Hi|exact Hx].
    + f_equal. apply (IH i j); auto.
      destruct (page_number_of e); csimpl in Hnd; [|exact Hnd].
      apply NoDup_cons in Hnd as [_ Hnd]. exact Hnd.
Qed.

(** What a query does to the entries: the entry of the page accessed,
    and the others. *)
Lemma query_entries off n pt address access_type index pt' :
  table_ok off n pt -> 0 <= off ->
  PageTable.query pt address access_type index = Ok pt' ->
  exists i e1,
    PageTable.table pt' !! i = Some e1 /\
    length (PageTable.table pt') = length (PageTable.table pt) /\
    page_number_of e1 = Some (Z.shiftr address off) /\
    mra e1 = index /\
    (access_type = "l"%string \/ access_type = "s"%string) /\
    ((exists e,
        PageTable.table pt !! i = Some e /\
        page_number_of e = Some (Z.shiftr address off) /\
        PageTableEntry.second_chance e1 = true /\
        PageTableEntry.dirty e1
          = PageTableEntry.dirty e || String.eqb access_type "s" /\
        PageTableEntry.num_accesses e1
          = PageTableEntry.num_accesses e
            + (if String.eqb access_type "l" then 1 else 0))
     \/
     ((Z.shiftr address off ∉ resident pt) /\
      PageTableEntry.second_chance e1 = false /\
      PageTableEntry.dirty e1 = String.eqb access_type "s" /\
      PageTableEntry.num_accesses e1
        = (if String.eqb access_type "l" then 1 else 0))) /\
    forall p x', p <> i -> PageTable.table pt' !! p = Some x' ->
      exists x,
        PageTable.table pt !! p = Some x /\
        (x' = x \/ x' = PageTableEntry.losesChance x) /\
        page_number_of x <> Some (Z.shiftr address off).
Proof.
  intros Hok Hoff H.
  assert (forall e e1,
            PageTableEntry.access e access_type index = Ok e1 ->
            (access_type = "l"%string \/ access_type = "s"%string) /\
            mra e1 = index /\
            PageTableEntry.second_chance e1 = PageTableEntry.second_chance e /\
            PageTableEntry.dirty e1
              = PageTableEntry.dirty e || String.eqb access_type "s" /\
            PageTableEntry.num_accesses e1
              = PageTableEntry.num_accesses e
                + (if String.eqb access_type "l" then 1 else 0)) as Hacc_spec.
  { intros e e1. unfold PageTableEntry.access.
    destruct (String.eqb_spec access_type "l") as [->|Hl].
    - intros [= <-]. simpl. rewrite orb_false_r. auto.
    - destruct (String.eqb_spec access_type "s") as [->|Hs]; [|discriminate].
      intros [= <-]. simpl. rewrite orb_true_r, Z.add_0_r. auto. }
  destruct (query_cases off n pt address access_type index pt' Hok Hoff H)
    as [(i & e & e1 & Hfind & Hacc & ->)
       |(Hfind & self1 & i & e & e1 & Hcase & Hfree & Hacc & ->)].
  - apply list_find_Some in Hfind as (He & Hq & _).
    pose proof (lookup_lt_Some _ _ _ He) as Hlt.
    destruct (Hacc_spec e e1 Hacc) as (Hty & Hmra & Hsc & Hd & Hnum).
    exists i, (PageTableEntry.set_second_chance e1). simpl.
    split; [apply list_lookup_insert_eq, Hlt|].
    split; [apply length_insert|].
    split.
    { rewrite <- Hq, <- (page_number_of_access _ _ _ _ Hacc). reflexivity. }
    split; [exact Hmra|]. split; [exact Hty|]. split.
    { left. exists e. auto. }
    intros p x' Hp Hx'. rewrite list_lookup_insert_ne in Hx' by congruence.
    exists x'. split; [exact Hx'|]. split; [left; reflexivity|].
    intros Hq'. apply Hp. symmetry.
    apply (resident_unique pt i p e x' (Z.shiftr address off)); auto.
    apply Hok.
  - apply list_find_None in Hfind. rewrite Forall_forall in Hfind.
    apply list_find_Some in Hfree as (He & Hnone & _).
    pose proof (lookup_lt_Some _ _ _ He) as Hlt.
    destruct (Hacc_spec _ e1 Hacc) as (Hty & Hmra & Hsc & Hd & Hnum).
    simpl in Hsc, Hd, Hnum.
    assert (Z.shiftr address off ∉ resident pt) as Hnot.
    { unfold resident. intros (x & Hx & Hqx)%list_elem_of_omap.
      apply (Hfind x Hx Hqx). }
    assert (length (PageTable.table self1) = length (PageTable.table pt) /\
            PageTableEntry.dirty e = false /\
            PageTableEntry.num_accesses e = 0 /\
            forall p x', p <> i -> PageTable.table self1 !! p = Some x' ->
              exists x, PageTable.table pt !! p = Some x /\
                        (x' = x \/ x' = PageTableEntry.losesChance x))
      as (Hlen & Hde & Hne & Hrest).
    { destruct Hcase as [(_ & ->)|(Hfull & _ & Hv)].
      - split; [reflexivity|].
        destruct Hok as (_ & _ & Hents & _). rewrite Forall_lookup in Hents.
        destruct (Hents i e He) as [_ Hp]. rewrite Hnone in Hp.
        split; [apply Hp|]. split; [apply Hp|]. eauto.
      - destruct (evicted_first_free _ _ _ Hfull Hv)
          as (e' & _ & He' & _ & Hd' & _ & Hn').
        rewrite He in He'. injection He' as <-.
        destruct Hv as (ev & e0 & _ & _ & _ & _ & Hlen & Hrest & _).
        split; [exact Hlen|]. split; [exact Hd'|]. split; [exact Hn'|].
        intros p x' Hp Hx'. destruct (Hrest p Hp) as [Heq|Heq]; rewrite Heq in Hx'.
        + eauto.
        + destruct (PageTable.table pt !! p) as [x|]; [|discriminate].
          injection Hx' as <-. eauto. }
    exists i, e1. simpl.
    split; [apply list_lookup_insert_eq, Hlt|].
    split; [rewrite length_insert; exact Hlen|].
    split; [rewrite (page_number_of_access _ _ _ _ Hacc); reflexivity|].
    split; [exact Hmra|]. split; [exact Hty|]. split.
    { right. rewrite Hde, Hne in *. simpl in Hd. auto. }
    intros p x' Hp Hx'. rewrite list_lookup_insert_ne in Hx' by congruence.
    destruct (Hrest p x' Hp Hx') as (x & Hx & Hsame).
    exists x. split; [exact Hx|]. split; [exact Hsame|].
    intros Hqx. apply (Hfind x); [eapply list_elem_of_lookup_2, Hx|exact Hqx].
Qed.


(** ** [Page]: the addresses of a page *)

Lemma shiftr_block (a off q : Z) :
  0 <= off -> (Z.shiftr a off = q <-> q * 2 ^ off <= a < (q + 1) * 2 ^ off).
Proof.
  intros Hoff. rewrite Z.shiftr_div_pow2 by exact Hoff.
  assert (0 < 2 ^ off) as Hpos by (apply Z.pow_pos_nonneg; lia).
  pose proof (Z.div_mod a (2 ^ off)) as Hdm.
  pose proof (Z.mod_pos_bound a (2 ^ off) Hpos) as Hmod.
  split.
  - intros <-. nia.
  - intros [Hlo Hhi]. symmetry. apply (Z.div_unique a (2 ^ off) q (a - q * 2 ^ off)); lia.
Qed.

(** X1.  With a non-negative offset width, [Page(address, offset_bits)]
    is the aligned block of [2^offset_bits] addresses around [address]:
    [contains] accepts [address], and accepts exactly the addresses from
    [page_number * 2^offset_bits] up to, not including,
    [(page_number + 1) * 2^offset_bits].  With a negative offset width
    the constructor raises [ValueError]. *)
Theorem page_contains_block (address offset_bits : Z) :
  (0 <= offset_bits ->
   exists p,
     Page.init address offset_bits = Ok p /\
     Page.contains p address = Ok true /\
     forall a, exists b,
       Page.contains p a = Ok b /\
       (b = true <->
        Page.getPageNumber p * 2 ^ offset_bits <= a
          < (Page.getPageNumber p + 1) * 2 ^ offset_bits)) /\
  (offset_bits < 0 -> Page.init address offset_bits = Raise ValueError).
Proof.
  split.
  - intros Hoff. unfold Page.init. rewrite rshift_Ok by exact Hoff. simpl.
    eexists. split; [reflexivity|]. unfold Page.contains. simpl.
    split.
    + rewrite rshift_Ok by exact Hoff. simpl. rewrite Z.eqb_refl. reflexivity.
    + intros a. rewrite rshift_Ok by exact Hoff. simpl.
      eexists. split; [reflexivity|]. unfold Page.getPageNumber. simpl.
      rewrite Z.eqb_eq, <- (shiftr_block a offset_bits) by exact Hoff.
      split; congruence.
  - intros Hoff. unfold Page.init, rshift.
    destruct (Z.ltb_spec offset_bits 0); [reflexivity|lia].
Qed.

Lemma page_contains_block_witness :
  (exists p,
     Page.init 0x1234 12 = Ok p /\
     Page.contains p 0x1234 = Ok true /\
     forall a, exists b,
       Page.contains p a = Ok b /\
       (b = true <->
        Page.getPageNumber p * 2 ^ 12 <= a < (Page.getPageNumber p + 1) * 2 ^ 12)) /\
  Page.init 0x1234 (-1) = Raise ValueError.
Proof.
  split.
  - apply (proj1 (page_contains_block 0x1234 12)). lia.
  - apply (proj2 (page_contains_block 0x1234 (-1))). lia.
Defined.

(** ** [PageTable]: looking a page up, loading it, evicting one *)

Lemma lru_example_ok : table_ok 12 3 lru_example.
Proof.
  split; [reflexivity|]. split; [reflexivity|]. split.
  - repeat constructor.
  - apply (bool_decide_unpack _). vm_compute. exact I.
Defined.

Lemma getTableEntryByAddress_spec off n pt address :
  0 <= off -> table_ok off n pt ->
  PageTable.getTableEntryByAddress pt address
  = Ok (fst <$> list_find
                  (fun e => page_number_of e = Some (Z.shiftr address off))
                  (PageTable.table pt)).
Proof.
  intros Hoff Hok. unfold PageTable.getTableEntryByAddress.
  rewrite (scan_for_address_spec off) by eauto using table_ok_offsets.
  do 2 f_equal.
Qed.

(** X2.  Between two queries, [getTableEntryByAddress] never raises:
    it returns the one entry that holds the page of [address], and
    [None] exactly when no entry holds it; two addresses of the same
    page give the same answer. *)
Theorem lookup_finds_page (off n : Z) (pt : PageTable.t) (address : Z) :
  0 <= off -> table_ok off n pt ->
  (exists r, PageTable.getTableEntryByAddress pt address = Ok r) /\
  (forall i,
     PageTable.getTableEntryByAddress pt address = Ok (Some i) <->
     exists e, PageTable.table pt !! i = Some e /\
               page_number_of e = Some (Z.shiftr address off)) /\
  (PageTable.getTableEntryByAddress pt address = Ok None <->
   Z.shiftr address off ∉ resident pt) /\
  (forall a', Z.shiftr a' off = Z.shiftr address off ->
     PageTable.getTableEntryByAddress pt a'
     = PageTable.getTableEntryByAddress pt address).
Proof.
  intros Hoff Hok.
  rewrite (getTableEntryByAddress_spec off n) by assumption.
  split; [eauto|]. split; [|split].
  - intros i. split.
    + intros [= H].
      destruct (list_find _ (PageTable.table pt)) as [[j e]|] eqn:Hfind;
        [|discriminate].
      injection H as <-. apply list_find_Some in Hfind as (He & Hq & _). eauto.
    + intros (e & He & Hq).
      destruct (list_find
                  (fun e => page_number_of e = Some (Z.shiftr address off))
                  (PageTable.table pt)) as [[j e']|] eqn:Hfind.
      * apply list_find_Some in Hfind as (He' & Hq' & _). simpl.
        do 2 f_equal. destruct Hok as (_ & _ & _ & Hnd).
        apply (resident_unique pt j i e' e (Z.shiftr address off)); assumption.
      * apply list_find_None in Hfind. rewrite Forall_forall in Hfind.
        destruct (Hfind e); [eapply list_elem_of_lookup_2, He|exact Hq].
  - split.
    + intros [= H].
      destruct (list_find _ (PageTable.table pt)) as [[j e]|] eqn:Hfind;
        [discriminate|].
      apply list_find_None in Hfind. rewrite Forall_forall in Hfind.
      unfold resident. intros (x & Hx & Hqx)%list_elem_of_omap.
      apply (Hfind x Hx Hqx).
    + intros Hnot.
      destruct (list_find
                  (fun e => page_number_of e = Some (Z.shiftr address off))
                  (PageTable.table pt)) as [[j e]|] eqn:Hfind; [|reflexivity].
      apply list_find_Some in Hfind as (He & Hq & _). exfalso. apply Hnot.
      unfold resident. apply list_elem_of_omap. exists e.
      split; [eapply list_elem_of_lookup_2, He|exact Hq].
  - intros a' Ha'. rewrite (getTableEntryByAddress_spec off n) by assumption.
    rewrite Ha'. reflexivity.
Qed.

Lemma lookup_finds_page_witness :
  (exists r, PageTable.getTableEntryByAddress lru_example 0x8abc = Ok r) /\
  (forall i,
     PageTable.getTableEntryByAddress lru_example 0x8abc = Ok (Some i) <->
     exists e, PageTable.table lru_example !! i = Some e /\
               page_number_of e = Some (Z.shiftr 0x8abc 12)) /\
  (PageTable.getTableEntryByAddress lru_example 0x8abc = Ok None <->
   Z.shiftr 0x8abc 12 ∉ resident lru_example) /\
  (forall a', Z.shiftr a' 12 = Z.shiftr 0x8abc 12 ->
     PageTable.getTableEntryByAddress lru_example a'
     = PageTable.getTableEntryByAddress lru_example 0x8abc).
Proof.
  apply (lookup_finds_page 12 3 lru_example 0x8abc); [lia|exact lru_example_ok].
Defined.

(** X3.  [load] puts the page of [address] in the first entry without
    a page and changes nothing else: the entry keeps its other
    attributes, except that its second-chance flag is reset; the
    counters stay.  On a full table it raises [RuntimeError]. *)
Theorem load_fills_first_free (off : Z) (pt : PageTable.t) (address : Z) :
  0 <= off -> Forall (entry_offsets off) (PageTable.table pt) ->
  (PageTable.tableIsFull pt = true ->
   PageTable.load pt address = Raise RuntimeError) /\
  (PageTable.tableIsFull pt = false ->
   exists i e pt',
     PageTable.load pt address = Ok (pt', i) /\
     PageTable.table pt !! i = Some e /\
     PageTableEntry.hasPage e = false /\
     (forall j e', (j < i)%nat -> PageTable.table pt !! j = Some e' ->
        PageTableEntry.hasPage e' = true) /\
     PageTable.table pt'
       = <[i := loaded (Z.shiftr address off) e]> (PageTable.table pt) /\
     PageTable.page_faults pt' = PageTable.page_faults pt /\
     PageTable.writes_to_disk pt' = PageTable.writes_to_disk pt).
Proof.
  intros Hoff Hoffs. unfold PageTable.load.
  rewrite (load_scan_spec off) by assumption.
  split.
  - intros Hfull. apply tableIsFull_true in Hfull. rewrite Forall_forall in Hfull.
    destruct (list_find _ (PageTable.table pt)) as [[i e]|] eqn:Hfind;
      [|reflexivity].
    apply list_find_Some in Hfind as (He & Hnone & _).
    destruct (Hfull e); [eapply list_elem_of_lookup_2, He|exact Hnone].
  - intros Hfull. apply tableIsFull_false in Hfull.
    destruct (list_find _ (PageTable.table pt)) as [[i e]|] eqn:Hfind.
    + apply list_find_Some in Hfind as (He & Hnone & Hfirst).
      simpl. eexists i, e, _. split; [reflexivity|].
      split; [exact He|]. split.
      { unfold PageTableEntry.hasPage. rewrite Hnone. reflexivity. }
      split; [|simpl; auto].
      intros j e' Hj He'. unfold PageTableEntry.hasPage.
      destruct (PageTableEntry.page e') eqn:Hp; [reflexivity|].
      destruct (Hfirst j e' He' Hj Hp).
    + apply list_find_None in Hfind. rewrite Forall_forall in Hfind.
      apply Exists_exists in Hfull as (e & He & Hnone).
      destruct (Hfind e He Hnone).
Qed.

Lemma load_fills_first_free_witness :
  PageTable.load lru_example 0x3000 = Raise RuntimeError /\
  exists i e pt',
    PageTable.load (PageTable.init LRUTable 2 12 ∅) 0x3000 = Ok (pt', i) /\
    PageTable.table (PageTable.init LRUTable 2 12 ∅) !! i = Some e /\
    PageTableEntry.hasPage e = false /\
    (forall j e', (j < i)%nat ->
       PageTable.table (PageTable.init LRUTable 2 12 ∅) !! j = Some e' ->
       PageTableEntry.hasPage e' = true) /\
    PageTable.table pt'
      = <[i := loaded (Z.shiftr 0x3000 12) e]>
          (PageTable.table (PageTable.init LRUTable 2 12 ∅)) /\
    PageTable.page_faults pt'
      = PageTable.page_faults (PageTable.init LRUTable 2 12 ∅) /\
    PageTable.writes_to_disk pt'
      = PageTable.writes_to_disk (PageTable.init LRUTable 2 12 ∅).
Proof.
  assert (0 <= 12) as Hoff by lia.
  split.
  - apply (proj1 (load_fills_first_free 12 lru_example 0x3000 Hoff
                    (table_ok_offsets 12 3 lru_example lru_example_ok))).
    reflexivity.
  - apply (proj2 (load_fills_first_free 12 (PageTable.init LRUTable 2 12 ∅) 0x3000
                    Hoff
                    (table_ok_offsets 12 2 _ (init_table_ok LRUTable 2 12 ∅)))).
    reflexivity.
Defined.

(** X4.  Under every policy, an eviction from a full table frees
    exactly one frame: one page leaves memory, the other frames keep
    their pages, [writes_to_disk] grows by one exactly when the page
    that leaves was dirty, [page_faults] does not change, and the
    table is no longer full. *)
Theorem evict_frees_one_frame (off n : Z) (pt : PageTable.t) (index : Z)
    (pt1 : PageTable.t) :
  table_ok off n pt ->
  PageTable.tableIsFull pt = true ->
  PageTable.evict pt index = Ok pt1 ->
  exists v e q,
    PageTable.table pt !! v = Some e /\
    page_number_of e = Some q /\
    frames pt1 = <[v := None]> (frames pt) /\
    resident pt ≡ₚ q :: resident pt1 /\
    PageTable.writes_to_disk pt1
      = PageTable.writes_to_disk pt
        + (if PageTableEntry.isDirty e then 1 else 0) /\
    PageTable.page_faults pt1 = PageTable.page_faults pt /\
    PageTable.tableIsFull pt1 = false.
Proof.
  intros Hok Hfull Hev.
  destruct (evict_evicted off n pt index pt1 Hok Hev) as (v & Hv).
  pose proof (frames_evicted pt v pt1 Hv) as Hfr.
  destruct (evicted_first_free pt v pt1 Hfull Hv) as (e1 & _ & He1 & Hnone & _).
  destruct Hv as (e & e0 & He & _ & _ & _ & _ & _ & Hw & Hpf & _).
  apply tableIsFull_true in Hfull. rewrite Forall_forall in Hfull.
  assert (exists q, page_number_of e = Some q) as (q & Hq).
  { destruct (page_number_of e) as [q|] eqn:Hq; [eauto|].
    apply page_number_of_None in Hq.
    destruct (Hfull e); [eapply list_elem_of_lookup_2, He|exact Hq]. }
  exists v, e, q. split; [exact He|]. split; [exact Hq|].
  split; [exact Hfr|]. split.
  - destruct (omap_id_insert (frames pt) v (Some q) None) as (R & HR & HR').
    { unfold frames. rewrite list_lookup_fmap, He. simpl. rewrite Hq. reflexivity. }
    rewrite !resident_frames, Hfr, HR, HR'. reflexivity.
  - split; [exact Hw|]. split; [exact Hpf|].
    apply tableIsFull_false, Exists_exists. exists e1.
    split; [eapply list_elem_of_lookup_2, He1|exact Hnone].
Qed.

Lemma evict_frees_one_frame_witness :
  exists pt1 v e q,
    PageTable.evict lru_example 6 = Ok pt1 /\
    PageTable.table lru_example !! v = Some e /\
    page_number_of e = Some q /\
    frames pt1 = <[v := None]> (frames lru_example) /\
    resident lru_example ≡ₚ q :: resident pt1 /\
    PageTable.writes_to_disk pt1
      = PageTable.writes_to_disk lru_example
        + (if PageTableEntry.isDirty e then 1 else 0) /\
    PageTable.page_faults pt1 = PageTable.page_faults lru_example /\
    PageTable.tableIsFull pt1 = false.
Proof.
  eassert (PageTable.evict lru_example 6 = Ok _) as Hev
    by (vm_compute; reflexivity).
  eexists.
  destruct (evict_frees_one_frame 12 3 lru_example 6 _ lru_example_ok eq_refl Hev)
    as (v & e & q & H).
  exists v, e, q. split; [exact Hev|exact H].
Defined.

(** ** [PageTable.query] *)

Lemma two_loaded_ok : table_ok 12 2 two_loaded.
Proof. apply (between_queries_ok scenario 2 "lru"), scenario_between_queries. Qed.

Lemma getTableEntryByAddress_resident off n pt address :
  0 <= off -> table_ok off n pt ->
  Z.shiftr address off ∈ resident pt ->
  exists i e,
    PageTable.getTableEntryByAddress pt address = Ok (Some i) /\
    PageTable.table pt !! i = Some e /\
    page_number_of e = Some (Z.shiftr address off).
Proof.
  intros Hoff Hok Hin.
  rewrite (getTableEntryByAddress_spec off n) by assumption.
  destruct (list_find
              (fun e => page_number_of e = Some (Z.shiftr address off))
              (PageTable.table pt)) as [[i e]|] eqn:Hfind.
  - apply list_find_Some in Hfind as (He & Hq & _). simpl. eauto.
  - apply list_find_None in Hfind. rewrite Forall_forall in Hfind.
    unfold resident in Hin. apply list_elem_of_omap in Hin as (x & Hx & Hqx).
    destruct (Hfind x Hx Hqx).
Qed.

(** X5.  The page of a query is in memory when the query returns:
    looking its address up finds an entry with that page, stamped with
    the index of the query; and the next valid query of any address of
    that page is a hit, which counts no fault, no write to disk, and
    moves no page. *)
Theorem query_then_hit (off n : Z) (pt : PageTable.t) (address : Z)
    (access_type : string) (index : Z) (pt' : PageTable.t) :
  table_ok off n pt ->
  PageTable.query pt address access_type index = Ok pt' ->
  (exists i e,
     PageTable.getTableEntryByAddress pt' address = Ok (Some i) /\
     PageTable.table pt' !! i = Some e /\
     page_number_of e = Some (Z.shiftr address off) /\
     PageTableEntry.most_recent_access e = index) /\
  forall address' access_type' index',
    Z.shiftr address' off = Z.shiftr address off ->
    access_type' = "l"%string \/ access_type' = "s"%string ->
    exists pt'',
      PageTable.query pt' address' access_type' index' = Ok pt'' /\
      PageTable.page_faults pt'' = PageTable.page_faults pt' /\
      PageTable.writes_to_disk pt'' = PageTable.writes_to_disk pt' /\
      frames pt'' = frames pt'.
Proof.
  intros Hok Hq.
  pose proof (query_offset off n pt address access_type index pt' Hok Hq) as Hoff.
  pose proof (query_table_ok off n pt address access_type index pt' Hok Hoff Hq)
    as Hok'.
  destruct (query_entries off n pt address access_type index pt' Hok Hoff Hq)
    as (i & e1 & He1 & _ & Hpage & Hmra & _).
  assert (Z.shiftr address off ∈ resident pt') as Hin.
  { unfold resident. apply list_elem_of_omap. exists e1.
    split; [eapply list_elem_of_lookup_2, He1|exact Hpage]. }
  split.
  - destruct (getTableEntryByAddress_resident off n pt' address Hoff Hok' Hin)
      as (j & e & Hfind & He & Hpe).
    exists j, e. split; [exact Hfind|]. split; [exact He|]. split; [exact Hpe|].
    destruct Hok' as (_ & _ & _ & Hnd).
    rewrite (resident_unique pt' j i e e1 _ Hnd He He1 Hpe Hpage) in He.
    rewrite He1 in He. injection He as <-. exact Hmra.
  - intros a' ty' index' Ha' Hty'. rewrite <- Ha' in Hin.
    destruct (getTableEntryByAddress_resident off n pt' a' Hoff Hok' Hin)
      as (j & e & Hfind & _).
    destruct (query_completes off n pt' a' ty' index' Hok' Hoff Hty')
      as (pt'' & Hq').
    { intros _ Hnone. rewrite Hnone in Hfind. discriminate. }
    exists pt''. split; [exact Hq'|].
    destruct (query_frames off n pt' a' ty' index' pt'' Hok' Hoff Hq')
      as [(_ & Hfr & Hpf & Hw)|(Hnot & _)].
    + auto.
    + destruct Hnot. apply elem_of_resident, Hin.
Qed.

Lemma query_then_hit_witness :
  exists pt',
    PageTable.query two_loaded 0x3000 "l" 2 = Ok pt' /\
    (exists i e,
       PageTable.getTableEntryByAddress pt' 0x3000 = Ok (Some i) /\
       PageTable.table pt' !! i = Some e /\
       page_number_of e = Some (Z.shiftr 0x3000 12) /\
       PageTableEntry.most_recent_access e = 2) /\
    forall address' access_type' index',
      Z.shiftr address' 12 = Z.shiftr 0x3000 12 ->
      access_type' = "l"%string \/ access_type' = "s"%string ->
      exists pt'',
        PageTable.query pt' address' access_type' index' = Ok pt'' /\
        PageTable.page_faults pt'' = PageTable.page_faults pt' /\
        PageTable.writes_to_disk pt'' = PageTable.writes_to_disk pt' /\
        frames pt'' = frames pt'.
Proof.
  eassert (PageTable.query two_loaded 0x3000 "l" 2 = Ok _) as Hq
    by (vm_compute; reflexivity).
  eexists. split; [exact Hq|].
  apply (query_then_hit 12 2 two_loaded 0x3000 "l" 2 _ two_loaded_ok Hq).
Defined.

(** X6.  A query counts a page fault exactly when the page of its
    address is in no frame; it then puts the page in one frame and
    leaves the other frames as they are.  A query whose page is in
    memory changes no frame and no counter. *)
Theorem query_faults_iff_absent (off n : Z) (pt : PageTable.t) (address : Z)
    (access_type : string) (index : Z) (pt' : PageTable.t) :
  table_ok off n pt ->
  PageTable.query pt address access_type index = Ok pt' ->
  (Z.shiftr address off ∈ resident pt ->
   frames pt' = frames pt /\
   PageTable.page_faults pt' = PageTable.page_faults pt /\
   PageTable.writes_to_disk pt' = PageTable.writes_to_disk pt) /\
  ((Z.shiftr address off ∉ resident pt) ->
   PageTable.page_faults pt' = PageTable.page_faults pt + 1 /\
   exists i, (i < length (frames pt))%nat /\
             frames pt' = <[i := Some (Z.shiftr address off)]> (frames pt)) /\
  Z.shiftr address off ∈ resident pt'.
Proof.
  intros Hok Hq.
  pose proof (query_offset off n pt address access_type index pt' Hok Hq) as Hoff.
  destruct (query_entries off n pt address access_type index pt' Hok Hoff Hq)
    as (j & e1 & He1 & _ & Hpage & _).
  assert (Z.shiftr address off ∈ resident pt') as Hin'.
  { unfold resident. apply list_elem_of_omap. exists e1.
    split; [eapply list_elem_of_lookup_2, He1|exact Hpage]. }
  destruct (query_frames off n pt address access_type index pt' Hok Hoff Hq)
    as [(Hin & Hfr & Hpf & Hw)|(Hnot & Hpf & i & Hfr & Hcase)].
  - apply elem_of_resident in Hin.
    split; [auto|]. split; [|exact Hin']. intros Hnot. destruct (Hnot Hin).
  - split; [|split; [|exact Hin']].
    + intros Hin. destruct Hnot. apply elem_of_resident, Hin.
    + intros _. split; [exact Hpf|]. exists i. split; [|exact Hfr].
      destruct (query_miss_position off n pt address access_type index pt' i
                  Hfr Hcase Hok Hq) as (o & Ho & _).
      eapply lookup_lt_Some, Ho.
Qed.

Lemma query_faults_iff_absent_witness :
  exists pt',
    PageTable.query two_loaded 0x3000 "l" 2 = Ok pt' /\
    (Z.shiftr 0x3000 12 ∉ resident two_loaded) /\
    PageTable.page_faults pt' = PageTable.page_faults two_loaded + 1 /\
    (exists i, (i < length (frames two_loaded))%nat /\
               frames pt' = <[i := Some (Z.shiftr 0x3000 12)]> (frames two_loaded)) /\
    Z.shiftr 0x3000 12 ∈ resident pt'.
Proof.
  eassert (PageTable.query two_loaded 0x3000 "l" 2 = Ok _) as Hq
    by (vm_compute; reflexivity).
  assert (Z.shiftr 0x3000 12 ∉ resident two_loaded) as Hnot.
  { apply (bool_decide_unpack _). vm_compute. exact I. }
  eexists. split; [exact Hq|]. split; [exact Hnot|].
  destruct (query_faults_iff_absent 12 2 two_loaded 0x3000 "l" 2 _
              two_loaded_ok Hq) as (_ & Hmiss & Hin).
  destruct (Hmiss Hnot) as [Hpf Hfr]. auto.
Defined.

(** ** Runs: what every table of a run satisfies *)

Lemma scenario_replayed : replayed scenario 2 "lru" 12 (take 2 scenario) two_loaded.
Proof.
  eexists _, (drop 2 scenario). split; [vm_compute; reflexivity|].
  split; reflexivity.
Qed.

Lemma simulate_replayed file n mode off stats :
  VirtualMemorySimulator.simulate file n mode off = Ok stats ->
  exists pt,
    replayed file n mode off file pt /\
    VirtualMemorySimulator.memory_accesses stats = Z.of_nat (length file) /\
    VirtualMemorySimulator.page_faults stats = PageTable.page_faults pt /\
    VirtualMemorySimulator.writes_to_disk stats = PageTable.writes_to_disk pt.
Proof.
  unfold VirtualMemorySimulator.simulate, VirtualMemorySimulator.run. intros H.
  inv_bind H as sim Hinit. inv_bind H as pt Hrep. injection H as <-.
  pose proof Hinit as (c & ti & _ & Hsrc & Hmem & _)%init_Ok.
  rewrite Hsrc in Hrep. exists pt. simpl. split; [|auto].
  exists sim, []. split; [exact Hinit|]. split; [|exact Hrep].
  rewrite app_nil_r. reflexivity.
Qed.

Lemma replayed_start file n mode off sim :
  VirtualMemorySimulator.init file n mode off = Ok sim ->
  exists c ti,
    VirtualMemorySimulator.page_table sim = PageTable.init c n off ti.
Proof. intros (c & ti & _ & _ & _ & Hpt & _)%init_Ok. eauto. Qed.

Lemma init_no_page c n off ti e :
  e ∈ PageTable.table (PageTable.init c n off ti) -> page_number_of e = None.
Proof.
  simpl. intros [-> _]%elem_of_replicate. reflexivity.
Qed.

Lemma replayed_offset file n mode off done r pt :
  replayed file n mode off (done ++ [r]) pt -> 0 <= off.
Proof.
  intros (sim & rest & Hinit & _ & Hrep).
  rewrite replay_app in Hrep. inv_bind Hrep as pt1 Hrep1.
  destruct r as [ty a]. simpl in Hrep. inv_bind Hrep as pt2 Hq.
  destruct (replayed_start _ _ _ _ _ Hinit) as (c & ti & Hpt).
  rewrite Hpt in Hrep1.
  destruct (replay_counters off n done 0 _ pt1 (init_table_ok c n off ti) Hrep1)
    as (Hok1 & _).
  eapply query_offset; eauto.
Qed.

(** X7.  Every table of a run, of any policy: it has [num_frames]
    entries; no two of them hold the same page; every page in memory
    has been accessed by a record replayed so far; and the page of the
    record replayed last is in memory. *)
Theorem run_keeps_accessed_pages (file : list mem_access) (num_frames : Z)
    (mode : string) (offset_bits : Z) (done : list mem_access)
    (pt : PageTable.t) :
  replayed file num_frames mode offset_bits done pt ->
  length (PageTable.table pt) = Z.to_nat num_frames /\
  PageTable.size pt = num_frames /\
  NoDup (resident pt) /\
  (forall q, q ∈ resident pt -> exists r, r ∈ done /\ page_of offset_bits r = q) /\
  (forall r, last done = Some r -> page_of offset_bits r ∈ resident pt).
Proof.
  intros Hrep. pose proof (replayed_ok _ _ _ _ _ _ Hrep) as (Hsize & Hlen & _ & Hnd).
  split; [exact Hlen|]. split; [exact Hsize|]. split; [exact Hnd|]. split.
  - destruct Hrep as (sim & rest & Hinit & _ & Hrep).
    destruct (replayed_start _ _ _ _ _ Hinit) as (c & ti & Hpt).
    rewrite Hpt in Hrep. intros q Hq.
    destruct (replay_resident offset_bits num_frames done 0 _ pt q
                (init_table_ok c num_frames offset_bits ti) Hrep Hq) as [Hin|Hin].
    + rewrite resident_init in Hin. inversion Hin.
    + exact Hin.
  - intros r Hlast. apply last_Some in Hlast as (done' & ->).
    pose proof (replayed_offset _ _ _ _ _ _ _ Hrep) as Hoff.
    destruct Hrep as (sim & rest & Hinit & _ & Hrep).
    rewrite replay_app in Hrep. inv_bind Hrep as pt1 Hrep1.
    destruct r as [ty a]. simpl in Hrep. inv_bind Hrep as pt2 Hq.
    injection Hrep as <-.
    destruct (replayed_start _ _ _ _ _ Hinit) as (c & ti & Hpt).
    rewrite Hpt in Hrep1.
    destruct (replay_counters offset_bits num_frames done' 0 _ pt1
                (init_table_ok c num_frames offset_bits ti) Hrep1) as (Hok1 & _).
    destruct (query_entries offset_bits num_frames pt1 a ty _ pt2 Hok1 Hoff Hq)
      as (i & e1 & He1 & _ & Hpage & _).
    unfold resident, page_of. simpl. apply list_elem_of_omap. exists e1.
    split; [eapply list_elem_of_lookup_2, He1|exact Hpage].
Qed.

Lemma run_keeps_accessed_pages_witness :
  length (PageTable.table two_loaded) = Z.to_nat 2 /\
  PageTable.size two_loaded = 2 /\
  NoDup (resident two_loaded) /\
  (forall q, q ∈ resident two_loaded ->
     exists r, r ∈ take 2 scenario /\ page_of 12 r = q) /\
  (forall r, last (take 2 scenario) = Some r -> page_of 12 r ∈ resident two_loaded).
Proof.
  apply (run_keeps_accessed_pages scenario 2 "lru" 12 (take 2 scenario) two_loaded
           scenario_replayed).
Defined.

Lemma last_access_at_unique pages q q' i i' :
  last_access_at pages q i -> last_access_at pages q' i' ->
  (q = q' <-> i = i').
Proof.
  intros [Hi Hlast] [Hi' Hlast']. split.
  - intros <-. destruct (Nat.lt_trichotomy i i') as [Hlt|[Heq|Hlt]].
    + destruct (Hlast i' Hlt Hi').
    + exact Heq.
    + destruct (Hlast' i Hlt Hi).
  - intros <-. congruence.
Qed.

Lemma last_access_at_snoc pages q :
  last_access_at (pages ++ [q]) q (length pages).
Proof.
  split.
  - rewrite lookup_app_r by lia. rewrite Nat.sub_diag. reflexivity.
  - intros j Hj. rewrite lookup_ge_None_2; [discriminate|].
    rewrite length_app. simpl. lia.
Qed.

Lemma last_access_at_other pages q q' i :
  q' <> q -> last_access_at pages q i -> last_access_at (pages ++ [q']) q i.
Proof.
  intros Hne [Hi Hlast]. pose proof (lookup_lt_Some _ _ _ Hi) as Hlt. split.
  - rewrite lookup_app_l by exact Hlt. exact Hi.
  - intros j Hj. destruct (Nat.lt_trichotomy j (length pages)) as [Hl|[->|Hl]].
    + rewrite lookup_app_l by exact Hl. apply Hlast, Hj.
    + rewrite lookup_app_r by lia. rewrite Nat.sub_diag. simpl. congruence.
    + rewrite lookup_ge_None_2; [discriminate|].
      rewrite length_app. simpl. lia.
Qed.

(** The time stamp of an entry is the position of the last record
    that accessed its page. *)
Lemma replayed_timestamps file n mode off done pt :
  replayed file n mode off done pt ->
  forall p e q, PageTable.table pt !! p = Some e -> page_number_of e = Some q ->
    0 <= mra e /\ last_access_at (page_of off <$> done) q (Z.to_nat (mra e)).
Proof.
  intros Hrep. pattern done, pt. revert done pt Hrep. apply replayed_ind.
  - intros sim Hinit p e q He Hq.
    destruct (replayed_start _ _ _ _ _ Hinit) as (c & ti & Hpt).
    rewrite Hpt in He. apply list_elem_of_lookup_2, init_no_page in He.
    congruence.
  - intros done [ty a] pt pt' Hpt IH Hpt' Hq p e q He Hpage. simpl in Hq.
    pose proof (replayed_ok _ _ _ _ _ _ Hpt) as Hok.
    pose proof (replayed_offset _ _ _ _ _ _ _ Hpt') as Hoff.
    destruct (query_entries off n pt a ty _ pt' Hok Hoff Hq)
      as (i & e1 & He1 & _ & Hpage1 & Hmra & _ & _ & Hrest).
    rewrite fmap_app. simpl. unfold page_of at 2. simpl.
    destruct (decide (p = i)) as [->|Hp].
    + rewrite He1 in He. injection He as <-.
      rewrite Hpage1 in Hpage. injection Hpage as <-.
      rewrite Hmra. split; [lia|]. rewrite Nat2Z.id.
      rewrite <- (length_fmap (page_of off) done). apply last_access_at_snoc.
    + destruct (Hrest p e Hp He) as (x & Hx & Hsame & Hother).
      assert (page_number_of x = Some q /\ mra x = mra e) as [Hqx Hmx].
      { destruct Hsame as [->| ->]; auto. }
      destruct (IH p x q Hx Hqx) as [Hnn Hlast]. rewrite <- Hmx.
      split; [exact Hnn|]. apply last_access_at_other; [|exact Hlast].
      congruence.
Qed.

(** X8.  The time stamps are truthful: in every table of a run, the
    [most_recent_access] of an entry that holds a page is the position
    in the trace of the last record, among those replayed so far, that
    accessed this page. *)
Theorem timestamp_is_last_access (file : list mem_access) (num_frames : Z)
    (mode : string) (offset_bits : Z) (done : list mem_access)
    (pt : PageTable.t) (e : PageTableEntry.t) (q : Z) :
  replayed file num_frames mode offset_bits done pt ->
  e ∈ PageTable.table pt ->
  page_number_of e = Some q ->
  0 <= PageTableEntry.most_recent_access e < Z.of_nat (length done) /\
  last_access_at (page_of offset_bits <$> done) q
    (Z.to_nat (PageTableEntry.most_recent_access e)).
Proof.
  intros Hrep (p & He)%list_elem_of_lookup_1 Hq.
  destruct (replayed_timestamps _ _ _ _ _ _ Hrep p e q He Hq) as [Hnn Hlast].
  split; [|exact Hlast]. split; [exact Hnn|].
  destruct Hlast as [Hi _]. apply lookup_lt_Some in Hi.
  rewrite length_fmap in Hi. lia.
Qed.

Lemma timestamp_is_last_access_witness :
  0 <= PageTableEntry.most_recent_access
         (PageTableEntry.mk 12 (Some (Page.mk 12 2)) false 1 1 false)
    < Z.of_nat (length (take 2 scenario)) /\
  last_access_at (page_of 12 <$> take 2 scenario) 2
    (Z.to_nat (PageTableEntry.most_recent_access
                 (PageTableEntry.mk 12 (Some (Page.mk 12 2)) false 1 1 false))).
Proof.
  apply (timestamp_is_last_access scenario 2 "lru" 12 (take 2 scenario) two_loaded
           _ 2 scenario_replayed).
  - apply list_elem_of_lookup. exists 1%nat. reflexivity.
  - reflexivity.
Defined.

(** ** LRU: the page accessed least recently *)

Lemma lru_victim_minimum self :
  PageTable.table self <> [] ->
  exists v e,
    PageTable.LRUTable.victim self = Ok v /\
    PageTable.table self !! v = Some e /\
    forall j e', PageTable.table self !! j = Some e' -> mra e <= mra e'.
Proof.
  intros Hne. unfold PageTable.LRUTable.victim.
  pose proof (entries_sorted self) as Hs.
  destruct (PageTable.entries self) as [|first rest] eqn:He.
  { apply entries_nil in He. contradiction. }
  destruct (lru_scan_spec first rest Hs) as (Hin & Hmin).
  destruct (PageTable.lru_scan first rest) as [v e] eqn:Hscan.
  rewrite <- He in Hin, Hmin. apply elem_of_entries in Hin.
  exists v, e. split; [reflexivity|]. split; [exact Hin|].
  intros j e' He'. apply (Hmin (j, e')), elem_of_entries, He'.
Qed.

(** X9.  LRU evicts the page accessed least recently: at an eviction
    of a run under ['lru'], [evict] returns a table from which one page
    has left memory, every other frame being as it was, and the last
    access to that page is earlier than the last access to any other
    page in memory. *)
Theorem lru_evicts_least_recently_used (file : list mem_access)
    (num_frames offset_bits : Z) (done : list mem_access) (pt : PageTable.t)
    (index : Z) :
  0 < num_frames ->
  replayed file num_frames "lru" offset_bits done pt ->
  PageTable.tableIsFull pt = true ->
  exists v e q i,
    PageTable.LRUTable.victim pt = Ok v /\
    PageTable.evict pt index = PageTable.clearEntry pt v /\
    PageTable.table pt !! v = Some e /\
    page_number_of e = Some q /\
    last_access_at (page_of offset_bits <$> done) q i /\
    (forall q' i', q' ∈ resident pt -> q' <> q ->
       last_access_at (page_of offset_bits <$> done) q' i' -> (i < i')%nat) /\
    exists pt1,
      PageTable.evict pt index = Ok pt1 /\
      PageTable.table pt1
        = <[v := freed e (PageTableEntry.second_chance e)]> (PageTable.table pt) /\
      frames pt1 = <[v := None]> (frames pt) /\
      resident pt ≡ₚ q :: resident pt1 /\
      (q ∉ resident pt1) /\
      PageTable.writes_to_disk pt1
        = PageTable.writes_to_disk pt
          + (if PageTableEntry.dirty e then 1 else 0) /\
      PageTable.page_faults pt1 = PageTable.page_faults pt.
Proof.
  intros Hn Hrep Hfull.
  pose proof (replayed_ok _ _ _ _ _ _ Hrep) as (_ & Hlen & _ & Hnd).
  destruct (between_queries_cls _ _ _ _ _ (replayed_between_queries _ _ _ _ _ _ Hrep))
    as (_ & Hlru & _).
  destruct (lru_victim_minimum pt) as (v & e & Hv & He & Hmin).
  { intros Hnil. rewrite Hnil in Hlen. simpl in Hlen. lia. }
  apply tableIsFull_true in Hfull. rewrite Forall_forall in Hfull.
  assert (exists q, page_number_of e = Some q) as (q & Hq).
  { destruct (page_number_of e) as [q|] eqn:Hq; [eauto|].
    apply page_number_of_None in Hq.
    destruct (Hfull e); [eapply list_elem_of_lookup_2, He|exact Hq]. }
  destruct (replayed_timestamps _ _ _ _ _ _ Hrep v e q He Hq) as [Hnn Hlast].
  assert (PageTable.evict pt index = PageTable.clearEntry pt v) as Hevict.
  { unfold PageTable.evict. rewrite (proj2 Hlru eq_refl).
    unfold PageTable.LRUTable.evict. rewrite Hv. reflexivity. }
  exists v, e, q, (Z.to_nat (mra e)).
  split; [exact Hv|]. split; [exact Hevict|].
  split; [exact He|]. split; [exact Hq|]. split; [exact Hlast|].
  split.
  2:{ destruct (clearEntry_page_leaves pt v e q Hnd He Hq)
        as (pt1 & Hclear & Hrest).
      exists pt1. rewrite Hevict. split; [exact Hclear|exact Hrest]. }
  intros q' i' Hin Hne Hlast'.
  unfold resident in Hin. apply list_elem_of_omap in Hin as (e' & He' & Hq').
  apply list_elem_of_lookup_1 in He' as (j & He').
  destruct (replayed_timestamps _ _ _ _ _ _ Hrep j e' q' He' Hq') as [Hnn' Hlast''].
  pose proof (proj1 (last_access_at_unique _ _ _ _ _ Hlast'' Hlast') eq_refl) as <-.
  pose proof (Hmin j e' He') as Hle.
  destruct (decide (mra e = mra e')) as [Heq|Hneq]; [|lia].
  rewrite Heq in Hlast.
  destruct Hne. symmetry.
  apply (last_access_at_unique _ _ _ _ _ Hlast Hlast''). reflexivity.
Qed.

Lemma lru_evicts_least_recently_used_witness :
  exists v e q i,
    PageTable.LRUTable.victim two_loaded = Ok v /\
    PageTable.evict two_loaded 2 = PageTable.clearEntry two_loaded v /\
    PageTable.table two_loaded !! v = Some e /\
    page_number_of e = Some q /\
    last_access_at (page_of 12 <$> take 2 scenario) q i /\
    (forall q' i', q' ∈ resident two_loaded -> q' <> q ->
       last_access_at (page_of 12 <$> take 2 scenario) q' i' -> (i < i')%nat) /\
    exists pt1,
      PageTable.evict two_loaded 2 = Ok pt1 /\
      PageTable.table pt1
        = <[v := freed e (PageTableEntry.second_chance e)]>
            (PageTable.table two_loaded) /\
      frames pt1 = <[v := None]> (frames two_loaded) /\
      resident two_loaded ≡ₚ q :: resident pt1 /\
      (q ∉ resident pt1) /\
      PageTable.writes_to_disk pt1
        = PageTable.writes_to_disk two_loaded
          + (if PageTableEntry.dirty e then 1 else 0) /\
      PageTable.page_faults pt1 = PageTable.page_faults two_loaded.
Proof.
  apply (lru_evicts_least_recently_used scenario 2 12 (take 2 scenario) two_loaded 2).
  - lia.
  - exact scenario_replayed.
  - reflexivity.
Defined.

(** ** Writes to disk *)

Lemma dirty_entries_fmap tbl :
  dirty_entries tbl
  = length (filter (fun b => b = true) (PageTableEntry.dirty <$> tbl)).
Proof.
  unfold dirty_entries. induction tbl as [|e tbl IH]; [reflexivity|].
  csimpl. rewrite !filter_cons.
  destruct (decide (PageTableEntry.dirty e = true)) as [Hd|Hd];
    destruct (decide (PageTableEntry.dirty e = true)) as [Hd'|Hd'];
    try contradiction; simpl; rewrite IH; reflexivity.
Qed.

Lemma count_true_insert (l : list bool) (i : nat) (b b' : bool) :
  l !! i = Some b ->
  (length (filter (fun b => b = true) (<[i := b']> l)) + Nat.b2n b
   = length (filter (fun b => b = true) l) + Nat.b2n b')%nat.
Proof.
  revert i. induction l as [|a l IH]; intros i Hi; [discriminate|].
  destruct i as [|i]; simpl in Hi.
  - injection Hi as ->. simpl. rewrite !filter_cons.
    destruct b, b'; repeat case_decide; try congruence; simpl; lia.
  - simpl. rewrite !filter_cons. specialize (IH i Hi).
    case_decide; simpl; lia.
Qed.

Lemma dirty_entries_insert tbl i e e' :
  tbl !! i = Some e ->
  (dirty_entries (<[i := e']> tbl) + Nat.b2n (PageTableEntry.dirty e)
   = dirty_entries tbl + Nat.b2n (PageTableEntry.dirty e'))%nat.
Proof.
  intros He. rewrite !dirty_entries_fmap, list_fmap_insert.
  apply count_true_insert. rewrite list_lookup_fmap, He. reflexivity.
Qed.

Lemma access_dirty e access_type index e1 :
  PageTableEntry.access e access_type index = Ok e1 ->
  PageTableEntry.dirty e1 = PageTableEntry.dirty e || String.eqb access_type "s".
Proof.
  unfold PageTableEntry.access.
  destruct (String.eqb_spec access_type "l") as [->|Hl].
  - intros [= <-]. simpl. rewrite orb_false_r. reflexivity.
  - destruct (String.eqb_spec access_type "s") as [->|Hs]; [|discriminate].
    intros [= <-]. simpl. rewrite orb_true_r. reflexivity.
Qed.

Lemma evicted_dirty self v self1 :
  evicted self v self1 ->
  PageTable.writes_to_disk self1 + Z.of_nat (dirty_entries (PageTable.table self1))
  = PageTable.writes_to_disk self + Z.of_nat (dirty_entries (PageTable.table self)).
Proof.
  intros (e & e0 & He & He0 & _ & Hv & Hlen & Hrest & Hw & _).
  assert (PageTableEntry.dirty <$> PageTable.table self1
          = <[v := false]> (PageTableEntry.dirty <$> PageTable.table self)) as Hd.
  { apply list_eq. intros p. destruct (decide (p = v)) as [->|Hp].
    - rewrite list_lookup_insert_eq
        by (rewrite length_fmap; eapply lookup_lt_Some, He).
      rewrite list_lookup_fmap, Hv. reflexivity.
    - rewrite list_lookup_insert_ne by congruence.
      rewrite !list_lookup_fmap.
      destruct (Hrest p Hp) as [-> | ->]; [reflexivity|].
      destruct (PageTable.table self !! p); reflexivity. }
  pose proof (count_true_insert (PageTableEntry.dirty <$> PageTable.table self)
                v (PageTableEntry.dirty e) false) as Hc.
  rewrite list_lookup_fmap, He in Hc. specialize (Hc eq_refl).
  rewrite <- Hd, <- !dirty_entries_fmap in Hc. rewrite Hw.
  destruct (PageTableEntry.dirty e); simpl in Hc; lia.
Qed.

(** A query adds at most one to the writes to disk and the dirty
    entries together, and only when it is a store. *)
Lemma query_dirty off n pt address access_type index pt' :
  table_ok off n pt -> 0 <= off ->
  PageTable.query pt address access_type index = Ok pt' ->
  PageTable.writes_to_disk pt' + Z.of_nat (dirty_entries (PageTable.table pt'))
  <= PageTable.writes_to_disk pt + Z.of_nat (dirty_entries (PageTable.table pt))
     + (if String.eqb access_type "s" then 1 else 0).
Proof.
  intros Hok Hoff Hq.
  destruct (query_cases off n pt address access_type index pt' Hok Hoff Hq)
    as [(i & e & e1 & Hfind & Hacc & ->)
       |(Hfind & self1 & i & e & e1 & Hcase & Hfree & Hacc & ->)].
  - apply list_find_Some in Hfind as (He & _). simpl.
    pose proof (dirty_entries_insert (PageTable.table pt) i e
                  (PageTableEntry.set_second_chance e1) He) as Hc.
    simpl in Hc. rewrite (access_dirty _ _ _ _ Hacc) in Hc.
    destruct (PageTableEntry.dirty e), (String.eqb access_type "s");
      simpl in Hc; lia.
  - pose proof Hfree as Hfree'.
    apply list_find_Some in Hfree as (He & Hnone & _). simpl.
    pose proof (dirty_entries_insert (PageTable.table self1) i e e1 He) as Hc.
    rewrite (access_dirty _ _ _ _ Hacc) in Hc. simpl in Hc.
    assert (PageTableEntry.dirty e = false /\
            PageTable.writes_to_disk self1
              + Z.of_nat (dirty_entries (PageTable.table self1))
            = PageTable.writes_to_disk pt
              + Z.of_nat (dirty_entries (PageTable.table pt))) as [Hde Hsum].
    { destruct Hcase as [(_ & ->)|(Hfull & _ & Hv)].
      - split; [|reflexivity].
        destruct Hok as (_ & _ & Hents & _). rewrite Forall_lookup in Hents.
        destruct (Hents i e He) as [_ Hp]. rewrite Hnone in Hp. apply Hp.
      - split; [|apply (evicted_dirty _ _ _ Hv)].
        destruct (evicted_first_free _ _ _ Hfull Hv)
          as (e' & Hfind' & _ & _ & Hd' & _).
        rewrite Hfree' in Hfind'. injection Hfind' as <-. exact Hd'. }
    rewrite Hde in Hc.
    destruct (String.eqb access_type "s"); simpl in Hc; lia.
Qed.

Lemma stores_snoc done (r : mem_access) :
  Z.of_nat (stores (done ++ [r]))
  = Z.of_nat (stores done) + (if String.eqb r.1 "s" then 1 else 0).
Proof.
  unfold stores. rewrite filter_app, length_app, filter_cons, filter_nil.
  destruct (String.eqb_spec r.1 "s") as [Hs|Hs]; case_decide;
    try contradiction; simpl; lia.
Qed.

Lemma replayed_dirty file n mode off done pt :
  replayed file n mode off done pt ->
  0 <= PageTable.writes_to_disk pt /\
  PageTable.writes_to_disk pt + Z.of_nat (dirty_entries (PageTable.table pt))
  <= Z.of_nat (stores done).
Proof.
  intros Hrep. pattern done, pt. revert done pt Hrep. apply replayed_ind.
  - intros sim Hinit.
    destruct (replayed_start _ _ _ _ _ Hinit) as (c & ti & ->).
    simpl. rewrite dirty_entries_fmap, fmap_replicate. simpl.
    assert (forall k, filter (fun b => b = true) (replicate k false) = []) as ->.
    { induction k as [|k IH]; [reflexivity|]. simpl. rewrite filter_cons.
      case_decide; [discriminate|exact IH]. }
    simpl. unfold stores. simpl. lia.
  - intros done [ty a] pt pt' Hpt [Hnn IH] Hpt' Hq. simpl in Hq.
    pose proof (replayed_ok _ _ _ _ _ _ Hpt) as Hok.
    pose proof (replayed_offset _ _ _ _ _ _ _ Hpt') as Hoff.
    pose proof (query_dirty off n pt a ty _ pt' Hok Hoff Hq) as Hd.
    destruct (query_counters off n pt a ty _ pt' Hok Hq) as (_ & Hw & _).
    rewrite stores_snoc. simpl. split; lia.
Qed.

(** X10.  Pages are written to disk no more often than the trace
    stores: in every table of a run, [writes_to_disk] plus the number of
    dirty entries is at most the number of ['s'] records replayed so
    far; so the [writes_to_disk] of the statistics is at most the
    number of ['s'] records of the trace. *)
Theorem writes_bounded_by_stores (file : list mem_access) (num_frames : Z)
    (mode : string) (offset_bits : Z) :
  (forall done pt,
     replayed file num_frames mode offset_bits done pt ->
     PageTable.writes_to_disk pt + Z.of_nat (dirty_entries (PageTable.table pt))
     <= Z.of_nat (stores done)) /\
  (forall stats,
     VirtualMemorySimulator.simulate file num_frames mode offset_bits = Ok stats ->
     0 <= VirtualMemorySimulator.writes_to_disk stats <= Z.of_nat (stores file)).
Proof.
  split.
  - intros done pt Hrep. apply (replayed_dirty _ _ _ _ _ _ Hrep).
  - intros stats (pt & Hrep & _ & _ & ->)%simulate_replayed.
    destruct (replayed_dirty _ _ _ _ _ _ Hrep). lia.
Qed.

Lemma writes_bounded_by_stores_witness :
  (PageTable.writes_to_disk two_loaded
     + Z.of_nat (dirty_entries (PageTable.table two_loaded))
   <= Z.of_nat (stores (take 2 scenario))) /\
  (VirtualMemorySimulator.simulate stores_example 1 "second" 12
     = Ok (VirtualMemorySimulator.mk_statistics 4 4 2) /\
   0 <= 2 <= Z.of_nat (stores stores_example)).
Proof.
  split.
  - apply (proj1 (writes_bounded_by_stores scenario 2 "lru" 12) _ _
             scenario_replayed).
  - assert (VirtualMemorySimulator.simulate stores_example 1 "second" 12
            = Ok (VirtualMemorySimulator.mk_statistics 4 4 2)) as Hrun
      by (vm_compute; reflexivity).
    split; [exact Hrun|].
    apply (proj2 (writes_bounded_by_stores stores_example 1 "second" 12) _ Hrun).
Defined.

(** ** Page faults and the distinct pages of the trace *)

Lemma NoDup_le_distinct (X l : list Z) :
  NoDup X -> (forall x, x ∈ X -> x ∈ l) ->
  (length X <= length (remove_dups l))%nat.
Proof.
  intros Hnd Hin. apply submseteq_length, NoDup_submseteq; [exact Hnd|].
  intros x Hx. apply elem_of_remove_dups, Hin, Hx.
Qed.

Lemma NoDup_eq_distinct (X l : list Z) :
  NoDup X -> (forall x, x ∈ X <-> x ∈ l) ->
  length X = length (remove_dups l).
Proof.
  intros Hnd Hin. apply Permutation_length, NoDup_Permutation.
  - exact Hnd.
  - apply NoDup_remove_dups.
  - intros x. rewrite elem_of_remove_dups. apply Hin.
Qed.

Lemma distinct_pages_snoc_old off done (r : mem_access) :
  page_of off r ∈ page_of off <$> done ->
  distinct_pages off (done ++ [r]) = distinct_pages off done.
Proof.
  intros Hin. unfold distinct_pages. apply NoDup_eq_distinct.
  - apply NoDup_remove_dups.
  - intros x. rewrite elem_of_remove_dups, fmap_app, elem_of_app. simpl.
    rewrite list_elem_of_singleton. split; [|auto].
    intros [Hx| ->]; assumption.
Qed.

Lemma distinct_pages_snoc_le off done (r : mem_access) :
  (distinct_pages off (done ++ [r]) <= S (distinct_pages off done))%nat.
Proof.
  unfold distinct_pages.
  change (S (length (remove_dups (page_of off <$> done))))
    with (length (page_of off r :: remove_dups (page_of off <$> done))).
  apply submseteq_length, NoDup_submseteq; [apply NoDup_remove_dups|].
  intros x. rewrite elem_of_remove_dups, fmap_app, elem_of_app. simpl.
  rewrite list_elem_of_singleton, elem_of_cons, elem_of_remove_dups. tauto.
Qed.

Lemma replayed_accessed file n mode off done pt q :
  replayed file n mode off done pt ->
  q ∈ resident pt -> q ∈ page_of off <$> done.
Proof.
  intros (sim & rest & Hinit & _ & Hrep) Hq.
  destruct (replayed_start _ _ _ _ _ Hinit) as (c & ti & Hpt).
  rewrite Hpt in Hrep.
  destruct (replay_resident off n done 0 _ pt q (init_table_ok c n off ti) Hrep Hq)
    as [Hin|(r & Hr & <-)].
  - rewrite resident_init in Hin. inversion Hin.
  - apply list_elem_of_fmap. eauto.
Qed.

Lemma replayed_faults_distinct file n mode off done pt :
  replayed file n mode off done pt ->
  Z.of_nat (distinct_pages off done) <= PageTable.page_faults pt.
Proof.
  intros Hrep. pattern done, pt. revert done pt Hrep. apply replayed_ind.
  - intros sim Hinit.
    destruct (replayed_start _ _ _ _ _ Hinit) as (c & ti & ->).
    simpl. unfold distinct_pages. simpl. lia.
  - intros done [ty a] pt pt' Hpt IH Hpt' Hq. simpl in Hq.
    pose proof (replayed_ok _ _ _ _ _ _ Hpt) as Hok.
    pose proof (replayed_offset _ _ _ _ _ _ _ Hpt') as Hoff.
    destruct (query_frames off n pt a ty _ pt' Hok Hoff Hq)
      as [(Hin & _ & Hpf & _)|(_ & Hpf & _)].
    + apply elem_of_resident in Hin.
      rewrite distinct_pages_snoc_old, Hpf; [exact IH|].
      apply (replayed_accessed _ _ _ _ _ _ _ Hpt Hin).
    + pose proof (distinct_pages_snoc_le off done (ty, a)). lia.
Qed.

(** X11.  Every page costs at least one fault: the [page_faults] of
    the statistics, under any policy and with any number of frames, is
    at least the number of distinct pages the trace accesses. *)
Theorem faults_at_least_distinct_pages (file : list mem_access)
    (num_frames : Z) (mode : string) (offset_bits : Z)
    (stats : VirtualMemorySimulator.statistics) :
  VirtualMemorySimulator.simulate file num_frames mode offset_bits = Ok stats ->
  Z.of_nat (distinct_pages offset_bits file)
  <= VirtualMemorySimulator.page_faults stats.
Proof.
  intros (pt & Hrep & _ & -> & _)%simulate_replayed.
  apply (replayed_faults_distinct _ _ _ _ _ _ Hrep).
Qed.

Lemma faults_at_least_distinct_pages_witness :
  VirtualMemorySimulator.simulate scenario 2 "opt" 12
    = Ok (VirtualMemorySimulator.mk_statistics 4 3 0) /\
  Z.of_nat (distinct_pages 12 scenario) <= 3.
Proof.
  assert (VirtualMemorySimulator.simulate scenario 2 "opt" 12
          = Ok (VirtualMemorySimulator.mk_statistics 4 3 0)) as Hrun
    by (vm_compute; reflexivity).
  split; [exact Hrun|].
  apply (faults_at_least_distinct_pages scenario 2 "opt" 12 _ Hrun).
Defined.

(** While the pages accessed fit in the frames, nothing is evicted. *)
Lemma replayed_fits file n mode off :
  (Z.of_nat (distinct_pages off file) <= n) ->
  forall done pt,
    replayed file n mode off done pt ->
    (forall q, q ∈ resident pt <-> q ∈ page_of off <$> done) /\
    PageTable.page_faults pt = Z.of_nat (length (resident pt)) /\
    PageTable.writes_to_disk pt = 0.
Proof.
  intros Hfit done pt Hrep. pattern done, pt. revert done pt Hrep.
  apply replayed_ind.
  - intros sim Hinit.
    destruct (replayed_start _ _ _ _ _ Hinit) as (c & ti & ->).
    rewrite resident_init. simpl. split; [|auto]. intros q. reflexivity.
  - intros done [ty a] pt pt' Hpt (Hres & Hpf & Hw) Hpt' Hq. simpl in Hq.
    pose proof (replayed_ok _ _ _ _ _ _ Hpt) as Hok.
    pose proof (replayed_offset _ _ _ _ _ _ _ Hpt') as Hoff.
    assert (forall q, q ∈ page_of off <$> done ++ [(ty, a)] <->
                      q = Z.shiftr a off \/ q ∈ page_of off <$> done) as Hsnoc.
    { intros q. rewrite fmap_app, elem_of_app. simpl.
      rewrite list_elem_of_singleton. unfold page_of at 2. simpl. tauto. }
    destruct (query_frames off n pt a ty _ pt' Hok Hoff Hq)
      as [(Hin & Hfr & Hpf' & Hw')|(Hnot & Hpf' & i & Hfr & Hcase)].
    + apply elem_of_resident in Hin.
      assert (resident pt' = resident pt) as Hsame
        by (rewrite !resident_frames, Hfr; reflexivity).
      rewrite Hsame, Hpf', Hw'. split; [|auto].
      intros q. rewrite Hsnoc, <- Hres. split; [auto|].
      intros [-> |Hq']; assumption.
    + assert (Z.shiftr a off ∉ resident pt) as Hnot'.
      { intros Hin. apply Hnot, elem_of_resident, Hin. }
      destruct Hcase as [(Hfull & Hfree & Hw')|(Hfull & _)].
      * destruct (frames_insert_resident pt pt' i (Z.shiftr a off) None Hfree Hfr)
          as (R & HR & HR').
        simpl in HR. rewrite <- HR in HR'.
        split; [|split].
        -- intros q. rewrite Hsnoc, <- Hres, HR', elem_of_cons. reflexivity.
        -- rewrite Hpf', Hpf, HR'. simpl. lia.
        -- rewrite Hw'. exact Hw.
      * exfalso.
        destruct Hok as (_ & Hlen & _ & Hnd).
        pose proof (resident_full pt Hfull) as Hlenr.
        assert (length (Z.shiftr a off :: resident pt)
                <= distinct_pages off file)%nat as Hle.
        { apply NoDup_le_distinct.
          - apply NoDup_cons. split; assumption.
          - destruct Hpt' as (_ & rest & _ & -> & _).
            intros q Hq'. rewrite fmap_app, elem_of_app. left.
            apply Hsnoc. apply elem_of_cons in Hq' as [-> |Hq']; [auto|].
            right. apply Hres, Hq'. }
        simpl in Hle. lia.
Qed.

(** X12.  When the distinct pages of the trace are no more than the
    frames, every policy does the same: it faults once for each
    distinct page and writes nothing to disk. *)
Theorem fitting_trace_faults_once_per_page (file : list mem_access)
    (num_frames : Z) (mode : string) (offset_bits : Z)
    (stats : VirtualMemorySimulator.statistics) :
  Z.of_nat (distinct_pages offset_bits file) <= num_frames ->
  VirtualMemorySimulator.simulate file num_frames mode offset_bits = Ok stats ->
  VirtualMemorySimulator.page_faults stats
    = Z.of_nat (distinct_pages offset_bits file) /\
  VirtualMemorySimulator.writes_to_disk stats = 0.
Proof.
  intros Hfit (pt & Hrep & _ & -> & ->)%simulate_replayed.
  destruct (replayed_fits file num_frames mode offset_bits Hfit file pt Hrep)
    as (Hres & Hpf & Hw).
  split; [|exact Hw]. rewrite Hpf. f_equal.
  apply NoDup_eq_distinct; [|exact Hres].
  apply (replayed_ok _ _ _ _ _ _ Hrep).
Qed.

Lemma fitting_trace_faults_once_per_page_witness :
  Z.of_nat (distinct_pages 12 scenario) <= 3 /\
  VirtualMemorySimulator.simulate scenario 3 "second" 12
    = Ok (VirtualMemorySimulator.mk_statistics 4 3 0) /\
  3 = Z.of_nat (distinct_pages 12 scenario) /\
  0 = 0.
Proof.
  assert (Z.of_nat (distinct_pages 12 scenario) <= 3) as Hfit
    by (vm_compute; discriminate).
  assert (VirtualMemorySimulator.simulate scenario 3 "second" 12
          = Ok (VirtualMemorySimulator.mk_statistics 4 3 0)) as Hrun
    by (vm_compute; reflexivity).
  split; [exact Hfit|]. split; [exact Hrun|].
  apply (fitting_trace_faults_once_per_page scenario 3 "second" 12 _ Hfit Hrun).
Defined.

(** ** Runs that raise *)

Lemma init_other file n mode off :
  mode <> "opt"%string ->
  VirtualMemorySimulator.init file n mode off
  = let* page_table := VirtualMemorySimulator.createPageTable n off mode ∅ in
    Ok {| VirtualMemorySimulator.source_file := file;
          VirtualMemorySimulator.offset_bits := off;
          VirtualMemorySimulator.mem_accesses := Z.of_nat (length file);
          VirtualMemorySimulator.page_table := page_table |}.
Proof.
  intros Hne. unfold VirtualMemorySimulator.init.
  destruct (String.eqb_spec mode "opt") as [->|_]; [contradiction|].
  rewrite index_trace_other. reflexivity.
Qed.

(** X13.  An eviction type other than ['opt'], ['lru'] and ['second']
    (in exactly this spelling) is refused when the simulator is built:
    [__init__] raises [ValueError], whatever the trace, the number of
    frames and the offset width, and no record is replayed. *)
Theorem unknown_eviction_type_raises (file : list mem_access) (num_frames : Z)
    (mode : string) (offset_bits : Z) :
  mode <> "opt"%string -> mode <> "lru"%string -> mode <> "second"%string ->
  VirtualMemorySimulator.init file num_frames mode offset_bits = Raise ValueError /\
  VirtualMemorySimulator.simulate file num_frames mode offset_bits
    = Raise ValueError.
Proof.
  intros Hopt Hlru Hsecond.
  assert (VirtualMemorySimulator.init file num_frames mode offset_bits
          = Raise ValueError) as Hinit.
  { rewrite init_other by exact Hopt.
    unfold VirtualMemorySimulator.createPageTable.
    destruct (String.eqb_spec mode "opt"); [contradiction|].
    destruct (String.eqb_spec mode "lru"); [contradiction|].
    destruct (String.eqb_spec mode "second"); [contradiction|].
    reflexivity. }
  split; [exact Hinit|].
  unfold VirtualMemorySimulator.simulate. rewrite Hinit. reflexivity.
Qed.

Lemma unknown_eviction_type_raises_witness :
  VirtualMemorySimulator.init scenario 2 "LRU" 12 = Raise ValueError /\
  VirtualMemorySimulator.simulate scenario 2 "LRU" 12 = Raise ValueError.
Proof.
  apply (unknown_eviction_type_raises scenario 2 "LRU" 12); discriminate.
Defined.

Lemma run_first_query file n mode off sim ty a rest e :
  VirtualMemorySimulator.init (( ty, a) :: rest) n mode off = Ok sim ->
  file = (ty, a) :: rest ->
  PageTable.query (VirtualMemorySimulator.page_table sim) a ty 0 = Raise e ->
  VirtualMemorySimulator.simulate file n mode off = Raise e.
Proof.
  intros Hinit -> Hq.
  unfold VirtualMemorySimulator.simulate, VirtualMemorySimulator.run.
  rewrite Hinit. simpl.
  pose proof Hinit as (c & ti & _ & -> & _)%init_Ok.
  simpl. rewrite Hq. reflexivity.
Qed.

Lemma init_opt_Ok file n off :
  0 <= off ->
  exists ti,
    VirtualMemorySimulator.init file n "opt" off
    = Ok {| VirtualMemorySimulator.source_file := file;
            VirtualMemorySimulator.offset_bits := off;
            VirtualMemorySimulator.mem_accesses := Z.of_nat (length file);
            VirtualMemorySimulator.page_table :=
              PageTable.init OptimalTable n off ti |} /\
    forall q,
      ti !! q = match occurrences off q file 0 with
                | [] => None
                | l => Some l
                end.
Proof.
  intros Hoff. unfold VirtualMemorySimulator.init. simpl.
  destruct (index_trace_opt off file 0 0 ∅ Hoff) as (ti & -> & Hti).
  exists ti. split; [reflexivity|].
  intros q. rewrite Hti, lookup_empty. simpl.
  destruct (occurrences off q file 0); reflexivity.
Qed.

Lemma init_opt_negative ty a rest n off :
  off < 0 ->
  VirtualMemorySimulator.init ((ty, a) :: rest) n "opt" off = Raise ValueError.
Proof.
  intros Hoff. unfold VirtualMemorySimulator.init. simpl.
  unfold rshift. destruct (Z.ltb_spec off 0); [reflexivity|lia].
Qed.

(** X14.  Without frames nothing can be replayed: with
    [num_frames <= 0] the table has no entry, [tableIsFull] holds of
    it, and the first record of the trace reaches [evict], which
    raises: [IndexError] under ['lru'] ([self.table[0]]), [ValueError]
    under ['opt'] ([max] of an empty list), and under ['second']
    [ZeroDivisionError] when [num_frames] is 0 and [IndexError] when it
    is negative. *)
Theorem no_frames_raises (file : list mem_access) (num_frames offset_bits : Z) :
  num_frames <= 0 -> file <> [] ->
  VirtualMemorySimulator.simulate file num_frames "lru" offset_bits
    = Raise IndexError /\
  VirtualMemorySimulator.simulate file num_frames "opt" offset_bits
    = Raise ValueError /\
  VirtualMemorySimulator.simulate file num_frames "second" offset_bits
    = Raise (if num_frames =? 0 then ZeroDivisionError else IndexError).
Proof.
  intros Hn Hfile. destruct file as [|[ty a] rest]; [contradiction|].
  pose proof (Z2Nat.nonpos num_frames Hn) as Hz.
  split; [|split].
  - eapply run_first_query; [|reflexivity|].
    + rewrite init_other by discriminate. reflexivity.
    + simpl. unfold PageTable.query, PageTable.getTableEntryByAddress,
        PageTable.init. simpl. rewrite Hz. reflexivity.
  - destruct (Z.lt_ge_cases offset_bits 0) as [Hneg|Hoff].
    + unfold VirtualMemorySimulator.simulate.
      rewrite init_opt_negative by exact Hneg. reflexivity.
    + destruct (init_opt_Ok ((ty, a) :: rest) num_frames offset_bits Hoff)
        as (ti & Hinit & _).
      eapply run_first_query; [exact Hinit|reflexivity|].
      simpl. unfold PageTable.query, PageTable.getTableEntryByAddress,
        PageTable.init. simpl. rewrite Hz. reflexivity.
  - eapply run_first_query; [|reflexivity|].
    + rewrite init_other by discriminate. reflexivity.
    + simpl. unfold PageTable.query, PageTable.getTableEntryByAddress,
        PageTable.init. simpl. rewrite Hz. simpl.
      unfold PageTable.evictAndLoad, PageTable.evict,
        PageTable.SecondChanceTable.evict. simpl.
      unfold pymod. destruct (Z.eqb_spec num_frames 0) as [->|Hne];
        [reflexivity|].
      simpl. reflexivity.
Qed.

Lemma no_frames_raises_witness :
  VirtualMemorySimulator.simulate scenario 0 "lru" 12 = Raise IndexError /\
  VirtualMemorySimulator.simulate scenario 0 "opt" 12 = Raise ValueError /\
  VirtualMemorySimulator.simulate scenario 0 "second" 12
    = Raise (if 0 =? 0 then ZeroDivisionError else IndexError).
Proof.
  apply (no_frames_raises scenario 0 12); [lia|discriminate].
Defined.

(** X15.  A negative offset width is caught at the first record: with
    at least one frame and a non-empty trace, the run raises
    [ValueError] under every eviction type (under ['opt'] already in
    [__init__], where the page numbers are computed; otherwise in the
    first [load], at [address >> offset_bits]). *)
Theorem negative_offset_raises (file : list mem_access) (num_frames : Z)
    (mode : string) (offset_bits : Z) :
  offset_bits < 0 -> 0 < num_frames -> file <> [] ->
  VirtualMemorySimulator.simulate file num_frames mode offset_bits
    = Raise ValueError.
Proof.
  intros Hoff Hn Hfile. destruct file as [|[ty a] rest]; [contradiction|].
  destruct (decide (mode = "opt"%string)) as [->|Hopt].
  { unfold VirtualMemorySimulator.simulate.
    rewrite init_opt_negative by exact Hoff. reflexivity. }
  destruct (VirtualMemorySimulator.createPageTable num_frames offset_bits mode ∅)
    as [pt|err] eqn:Hcreate.
  - eapply run_first_query; [|reflexivity|].
    + rewrite init_other, Hcreate by exact Hopt. reflexivity.
    + simpl. apply createPageTable_Ok in Hcreate as (c & -> & _).
      destruct (Z.to_nat num_frames) as [|k] eqn:Hk; [lia|].
      unfold PageTable.query, PageTable.getTableEntryByAddress.
      rewrite scan_for_address_free.
      2:{ apply Forall_forall. intros e He.
          apply init_no_page, page_number_of_None in He. exact He. }
      simpl. unfold PageTable.evictAndLoad, PageTable.tableIsFull, PageTable.load.
      simpl. rewrite Hk. simpl.
      unfold PageTableEntry.setPage, Page.init, rshift. simpl.
      destruct (Z.ltb_spec offset_bits 0); [reflexivity|lia].
  - unfold VirtualMemorySimulator.simulate.
    rewrite init_other, Hcreate by exact Hopt. simpl.
    unfold VirtualMemorySimulator.createPageTable in Hcreate.
    repeat destruct (String.eqb _ _); congruence.
Qed.

Lemma negative_offset_raises_witness :
  VirtualMemorySimulator.simulate scenario 2 "second" (-1) = Raise ValueError.
Proof.
  apply (negative_offset_raises scenario 2 "second" (-1)); [lia|lia|discriminate].
Defined.

(** X16.  The empty trace: under each of the three eviction types,
    with any number of frames and any offset width, the run returns
    the statistics 0, 0, 0. *)
Theorem empty_trace_statistics (num_frames : Z) (mode : string)
    (offset_bits : Z) :
  mode = "opt"%string \/ mode = "lru"%string \/ mode = "second"%string ->
  VirtualMemorySimulator.simulate [] num_frames mode offset_bits
    = Ok (VirtualMemorySimulator.mk_statistics 0 0 0).
Proof. intros [-> |[-> | ->]]; reflexivity. Qed.

Lemma empty_trace_statistics_witness :
  VirtualMemorySimulator.simulate [] 0 "opt" (-3)
    = Ok (VirtualMemorySimulator.mk_statistics 0 0 0).
Proof. apply (empty_trace_statistics 0 "opt" (-3)). left. reflexivity. Defined.

Lemma access_invalid e access_type index :
  access_type <> "l"%string -> access_type <> "s"%string ->
  PageTableEntry.access e access_type index = Raise ValueError.
Proof.
  intros Hl Hs. unfold PageTableEntry.access.
  destruct (String.eqb_spec access_type "l"); [contradiction|].
  destruct (String.eqb_spec access_type "s"); [contradiction|reflexivity].
Qed.

(** A query with an access type other than ['l'] and ['s'] raises
    [ValueError], after the eviction and the load if its page is not in
    memory. *)
Lemma query_invalid off n pt address access_type index :
  table_ok off n pt -> 0 <= off ->
  access_type <> "l"%string -> access_type <> "s"%string ->
  (PageTable.tableIsFull pt = true ->
   PageTable.getTableEntryByAddress pt address = Ok None ->
   exists pt1, PageTable.evict pt index = Ok pt1) ->
  PageTable.query pt address access_type index = Raise ValueError.
Proof.
  intros Hok Hoff Hl Hs Hev.
  pose proof (table_ok_offsets off n pt Hok) as Hoffs.
  unfold PageTable.query.
  destruct (PageTable.getTableEntryByAddress pt address) as [[j|]|err] eqn:Hscan;
    rewrite (getTableEntryByAddress_spec off n) in Hscan by assumption;
    [| |discriminate]; simpl.
  - destruct (list_find _ (PageTable.table pt)) as [[j' e]|] eqn:Hfind;
      [|discriminate].
    injection Hscan as <-. apply list_find_Some in Hfind as (He & _).
    unfold PageTable.entry_at. simpl. rewrite He. simpl.
    rewrite access_invalid by assumption. reflexivity.
  - clear Hscan.
    assert (exists pt1 tbl i e,
              PageTable.evictAndLoad pt address index
              = Ok (PageTable.with_table pt1 tbl, i) /\ tbl !! i = Some e)
      as (pt1 & tbl & i & e & -> & He).
    { unfold PageTable.evictAndLoad.
      destruct (PageTable.tableIsFull pt) eqn:Hfull.
      - destruct (Hev eq_refl eq_refl) as (pt1 & Hpt1). rewrite Hpt1. simpl.
        destruct (evict_evicted _ _ _ _ _ Hok Hpt1) as (v & Hv).
        destruct (evicted_first_free _ _ _ Hfull Hv) as (e & Hfree & He & _).
        unfold PageTable.load.
        rewrite (load_scan_spec off), Hfree
          by (try assumption; eapply evicted_offsets; eauto).
        simpl. eexists pt1, _, v, _. split; [reflexivity|].
        apply list_lookup_insert_eq. eapply lookup_lt_Some, He.
      - apply tableIsFull_false in Hfull. unfold PageTable.load.
        rewrite (load_scan_spec off) by assumption.
        destruct (list_find (fun e => PageTableEntry.page e = None)
                    (PageTable.table pt)) as [[j e]|] eqn:Hfree.
        + simpl. eexists pt, _, j, _. split; [reflexivity|].
          apply list_find_Some in Hfree as (He & _).
          apply list_lookup_insert_eq. eapply lookup_lt_Some, He.
        + apply list_find_None in Hfree. rewrite Forall_forall in Hfree.
          apply Exists_exists in Hfull as (e & He & Hnone).
          destruct (Hfree e He Hnone). }
    simpl. unfold PageTable.entry_at. simpl. rewrite He. simpl.
    rewrite access_invalid by assumption. reflexivity.
Qed.

Lemma opt_evict_completes file n off sim done access_type address rest pt :
  0 < n ->
  VirtualMemorySimulator.init file n "opt" off = Ok sim ->
  file = done ++ (access_type, address) :: rest ->
  VirtualMemorySimulator.replay done 0 (VirtualMemorySimulator.page_table sim)
    = Ok pt ->
  PageTable.tableIsFull pt = true ->
  PageTable.getTableEntryByAddress pt address = Ok None ->
  exists pt1, PageTable.evict pt (Z.of_nat (length done)) = Ok pt1.
Proof.
  intros Hn Hinit Hfile Hrep Hfull Hmiss.
  destruct (opt_miss_ready _ _ _ _ _ _ _ _ _ Hinit Hfile Hrep)
    as (Hoff & Hok & Hcls & Hti & Hseen & Hnot).
  destruct (opt_victim_spec off n (Z.of_nat (length done)) file pt
              Hn Hok Hfull Hti Hseen (Hnot Hmiss))
    as (v & ev & Hv & Hev & _).
  unfold PageTable.evict, PageTable.OptimalTable.evict. rewrite Hcls, Hv. simpl.
  eapply clearEntry_lookup, Hev.
Qed.

(** Under ['opt'], the valid records at the head of a trace are
    replayed, whatever follows them. *)
Lemma replay_valid_prefix_opt file n off sim :
  0 < n ->
  VirtualMemorySimulator.init file n "opt" off = Ok sim ->
  forall mid done rest pt,
    file = done ++ mid ++ rest ->
    VirtualMemorySimulator.replay done 0 (VirtualMemorySimulator.page_table sim)
      = Ok pt ->
    Forall valid_access mid ->
    exists pt',
      VirtualMemorySimulator.replay (done ++ mid) 0
        (VirtualMemorySimulator.page_table sim) = Ok pt'.
Proof.
  intros Hn Hinit.
  induction mid as [|[ty a] mid IH]; intros done rest pt Hfile Hrep Hvalid.
  - rewrite app_nil_r. eauto.
  - apply Forall_cons in Hvalid as [Hty Hvalid].
    simpl in Hfile.
    destruct (opt_miss_ready _ _ _ _ _ _ _ _ _ Hinit Hfile Hrep)
      as (Hoff & Hok & _).
    destruct (query_completes off n pt a ty (Z.of_nat (length done))
                Hok Hoff Hty) as (pt1 & Hq).
    { apply (opt_evict_completes file n off sim done ty a (mid ++ rest));
        assumption. }
    destruct (IH (done ++ [(ty, a)]) rest pt1) as (pt' & Hpt').
    { rewrite Hfile, <- app_assoc. reflexivity. }
    { rewrite replay_app, Hrep. simpl. rewrite Z.add_0_l, Hq. reflexivity. }
    { exact Hvalid. }
    exists pt'. rewrite <- Hpt', <- app_assoc. reflexivity.
Qed.

(** X17.  The first record whose access type is neither ['l'] nor
    ['s'] ends the run with [ValueError]: with at least one frame, a
    non-negative offset width and one of the three eviction types, a
    trace whose records before it are loads and stores raises
    [ValueError], whatever follows. *)
Theorem invalid_access_type_raises (file : list mem_access) (num_frames : Z)
    (mode : string) (offset_bits : Z) (done : list mem_access)
    (access_type : string) (address : Z) (rest : list mem_access) :
  0 < num_frames -> 0 <= offset_bits ->
  mode = "opt"%string \/ mode = "lru"%string \/ mode = "second"%string ->
  file = done ++ (access_type, address) :: rest ->
  Forall valid_access done ->
  access_type <> "l"%string -> access_type <> "s"%string ->
  VirtualMemorySimulator.simulate file num_frames mode offset_bits
    = Raise ValueError.
Proof.
  intros Hn Hoff Hmode Hfile Hvalid Hl Hs.
  assert (exists sim,
            VirtualMemorySimulator.init file num_frames mode offset_bits = Ok sim)
    as (sim & Hinit).
  { destruct (decide (mode = "opt"%string)) as [->|Hne].
    - destruct (init_opt_Ok file num_frames offset_bits Hoff) as (ti & -> & _).
      eauto.
    - rewrite init_other by exact Hne.
      destruct Hmode as [-> |[-> | ->]]; simpl; eauto. }
  pose proof Hinit as (c & ti & _ & Hsrc & _ & Hpt & Hopt & _)%init_Ok.
  assert (exists pt,
            VirtualMemorySimulator.replay done 0
              (VirtualMemorySimulator.page_table sim) = Ok pt /\
            PageTable.query pt address access_type (Z.of_nat (length done))
            = Raise ValueError) as (pt & Hrep & Hq).
  { destruct (decide (mode = "opt"%string)) as [->|Hne].
    - destruct (replay_valid_prefix_opt file num_frames offset_bits sim Hn Hinit
                  done [] ((access_type, address) :: rest)
                  (VirtualMemorySimulator.page_table sim) Hfile eq_refl Hvalid)
        as (pt & Hrep).
      simpl in Hrep. exists pt. split; [exact Hrep|].
      destruct (opt_miss_ready _ _ _ _ _ _ _ _ _ Hinit Hfile Hrep)
        as (_ & Hok & _).
      apply (query_invalid offset_bits num_frames); try assumption.
      apply (opt_evict_completes file num_frames offset_bits sim done
               access_type address rest); assumption.
    - assert (PageTable.cls (VirtualMemorySimulator.page_table sim)
              <> OptimalTable) as Hcls.
      { rewrite Hpt. simpl. intros Hc. apply Hne, Hopt, Hc. }
      assert (table_ok offset_bits num_frames
                (VirtualMemorySimulator.page_table sim)) as Hok0
        by (rewrite Hpt; apply init_table_ok).
      destruct (replay_completes offset_bits num_frames done 0 _
                  Hn Hoff Hok0 Hcls Hvalid) as (pt & Hrep).
      exists pt. split; [exact Hrep|].
      destruct (replay_counters offset_bits num_frames done 0 _ pt Hok0 Hrep)
        as (Hok & Hcls' & _).
      apply (query_invalid offset_bits num_frames); try assumption.
      intros _ _. apply (evict_completes offset_bits num_frames); try assumption.
      rewrite Hcls'. exact Hcls. }
  unfold VirtualMemorySimulator.simulate, VirtualMemorySimulator.run.
  rewrite Hinit. simpl. rewrite Hsrc, Hfile, replay_app, Hrep. simpl.
  rewrite Z.add_0_l, Hq. reflexivity.
Qed.

Lemma invalid_access_type_raises_witness :
  VirtualMemorySimulator.simulate
    (take 2 scenario ++ ("L"%string, 0x3000) :: drop 3 scenario) 2 "opt" 12
  = Raise ValueError.
Proof.
  apply (invalid_access_type_raises _ 2 "opt" 12 (take 2 scenario) "L" 0x3000
           (drop 3 scenario)).
  - lia.
  - lia.
  - left. reflexivity.
  - reflexivity.
  - repeat constructor; left; reflexivity.
  - discriminate.
  - discriminate.
Defined.

(** ** [VirtualMemorySimulator.__init__]: the index of the trace *)

(** X18.  Under ['opt'], with a non-negative offset width, [__init__]
    counts the records and builds [trace_indices]: a page has a list
    exactly when some record accesses it, and this list holds, in
    strictly ascending order, exactly the positions of the records that
    access the page.  Under ['lru'] and ['second'] the records are only
    counted, and [trace_indices] stays empty. *)
Theorem init_indexes_the_trace (file : list mem_access) (num_frames : Z)
    (mode : string) (offset_bits : Z) :
  (0 <= offset_bits ->
   exists sim,
     VirtualMemorySimulator.init file num_frames "opt" offset_bits = Ok sim /\
     VirtualMemorySimulator.mem_accesses sim = Z.of_nat (length file) /\
     forall q,
       match PageTable.trace_indices (VirtualMemorySimulator.page_table sim) !! q with
       | Some l =>
           l <> [] /\ StronglySorted Z.lt l /\
           forall x, x ∈ l <->
             0 <= x /\
             exists r, file !! Z.to_nat x = Some r /\ Z.shiftr r.2 offset_bits = q
       | None => forall r, r ∈ file -> Z.shiftr r.2 offset_bits <> q
       end) /\
  (mode = "lru"%string \/ mode = "second"%string ->
   exists sim,
     VirtualMemorySimulator.init file num_frames mode offset_bits = Ok sim /\
     VirtualMemorySimulator.mem_accesses sim = Z.of_nat (length file) /\
     PageTable.trace_indices (VirtualMemorySimulator.page_table sim) = ∅).
Proof.
  split.
  - intros Hoff.
    destruct (init_opt_Ok file num_frames offset_bits Hoff) as (ti & -> & Hti).
    eexists. split; [reflexivity|]. split; [reflexivity|]. simpl.
    intros q. rewrite Hti.
    pose proof (occurrences_sorted offset_bits q file 0) as Hsorted.
    pose proof (fun x => elem_of_occurrences offset_bits q file 0 x) as Hocc.
    destruct (occurrences offset_bits q file 0) as [|x0 l] eqn:Heq.
    + intros r (i & Hi)%list_elem_of_lookup_1 Hq.
      assert (Z.of_nat i ∈ @nil Z) as Hin; [|inversion Hin].
      apply Hocc. exists i, r. split; [exact Hi|]. split; [exact Hq|lia].
    + split; [discriminate|]. split; [exact Hsorted|].
      intros x. rewrite Hocc. split.
      * intros (i & r & Hi & Hq & ->). split; [lia|].
        exists r. rewrite Z.add_0_l, Nat2Z.id. auto.
      * intros (Hx & r & Hr & Hq). exists (Z.to_nat x), r.
        split; [exact Hr|]. split; [exact Hq|lia].
  - intros Hmode. rewrite init_other by (destruct Hmode as [-> | ->]; discriminate).
    destruct Hmode as [-> | ->]; simpl; eexists; split; reflexivity || auto.
Qed.

Lemma init_indexes_the_trace_witness :
  (exists sim,
     VirtualMemorySimulator.init scenario 2 "opt" 12 = Ok sim /\
     VirtualMemorySimulator.mem_accesses sim = Z.of_nat (length scenario) /\
     forall q,
       match PageTable.trace_indices (VirtualMemorySimulator.page_table sim) !! q with
       | Some l =>
           l <> [] /\ StronglySorted Z.lt l /\
           forall x, x ∈ l <->
             0 <= x /\
             exists r, scenario !! Z.to_nat x = Some r /\ Z.shiftr r.2 12 = q
       | None => forall r, r ∈ scenario -> Z.shiftr r.2 12 <> q
       end) /\
  (exists sim,
     VirtualMemorySimulator.init scenario 2 "lru" 12 = Ok sim /\
     VirtualMemorySimulator.mem_accesses sim = Z.of_nat (length scenario) /\
     PageTable.trace_indices (VirtualMemorySimulator.page_table sim) = ∅).
Proof.
  split.
  - apply (proj1 (init_indexes_the_trace scenario 2 "lru" 12)). lia.
  - apply (proj2 (init_indexes_the_trace scenario 2 "lru" 12)). left. reflexivity.
Defined.

(** ** [findFirstElementGreaterThan] on any array *)

Lemma search_loop_crossing (array : list Z) (index : Z) :
  forall (fuel : nat) (l r ans : Z),
    0 <= l <= r + 1 -> r < Z.of_nat (length array) ->
    r - l + 1 < Z.of_nat fuel ->
    (forall y, 0 < l -> array !! Z.to_nat (l - 1) = Some y -> y <= index) ->
    (ans = -1 /\ r = Z.of_nat (length array) - 1 \/
     ans = r + 1 /\ exists x, array !! Z.to_nat ans = Some x /\ index < x) ->
    exists res,
      PageTable.search_loop fuel array index l r ans = Some (Ok res) /\
      (res = -1 /\ (forall y, last array = Some y -> y <= index) \/
       0 <= res < Z.of_nat (length array) /\
       exists x, array !! Z.to_nat res = Some x /\ index < x /\
         forall y, 0 < res -> array !! Z.to_nat (res - 1) = Some y -> y <= index).
Proof.
  induction fuel as [|fuel IH]; intros l r ans Hl Hr Hfuel Hlow Hans; [lia|].
  simpl. destruct (Z.leb_spec l r) as [Hlr|Hlr].
  - set (mid := l + (r - l) / 2).
    assert (l <= mid <= r) as Hmid.
    { unfold mid. pose proof (Z.div_pos (r - l) 2).
      pose proof (Z.mul_div_le (r - l) 2). lia. }
    destruct (lookup_lt_is_Some_2 array (Z.to_nat mid)) as [a Ha]; [lia|].
    assert (getitem array mid = Ok a) as ->.
    { rewrite <- (Z2Nat.id mid) by lia. apply getitem_nat, Ha. }
    destruct (Z.leb_spec a index) as [Hai|Hai].
    + apply IH; [lia..| |exact Hans].
      intros y _. replace (mid + 1 - 1) with mid by lia.
      rewrite Ha. intros [= <-]. exact Hai.
    + apply IH; [lia..|exact Hlow|].
      right. split; [lia|]. exists a. split; [exact Ha|exact Hai].
  - exists ans. split; [reflexivity|].
    destruct Hans as [[-> Hrlen]|[-> (x & Hx & Hgt)]].
    + left. split; [reflexivity|]. intros y Hy.
      rewrite last_lookup in Hy.
      destruct (decide (0 < l)) as [Hpos|Hzero].
      * apply (Hlow y Hpos). rewrite <- Hy. f_equal. lia.
      * apply lookup_lt_Some in Hy. lia.
    + right. pose proof (lookup_lt_Some _ _ _ Hx) as Hlt.
      split; [lia|]. exists x. split; [exact Hx|]. split; [exact Hgt|].
      intros y Hpos Hy. replace (r + 1) with l in * by lia.
      apply (Hlow y Hpos Hy).
Qed.

(** X19.  On every array, sorted or not, the binary search of
    [findFirstElementGreaterThan] returns without raising, within the
    bounds of the array, a place where the array crosses [index]:
    either -1, and then the last element (if any) is not greater than
    [index]; or a position whose element is greater than [index] and
    whose predecessor (if any) is not. *)
Theorem binary_search_finds_crossing (array : list Z) (index : Z) :
  exists res,
    PageTable.findFirstElementGreaterThan array index = Ok res /\
    (res = -1 /\ (forall y, last array = Some y -> y <= index) \/
     0 <= res < Z.of_nat (length array) /\
     exists x, array !! Z.to_nat res = Some x /\ index < x /\
       forall y, 0 < res -> array !! Z.to_nat (res - 1) = Some y -> y <= index).
Proof.
  unfold PageTable.findFirstElementGreaterThan.
  destruct (search_loop_crossing array index (S (length array)) 0
              (Z.of_nat (length array) - 1) (-1)) as (res & -> & Hres).
  - lia.
  - lia.
  - lia.
  - intros y Hpos. lia.
  - left. split; reflexivity.
  - exists res. split; [reflexivity|exact Hres].
Qed.

(** ** The two tests of [OptimalTable.evict] *)

(** X20.  On a strictly ascending list of uses that ends with
    [last_use]: [entryIsNotUsedAgain] answers [last_use < index];
    [entryNextUsedAt] raises [ValueError] exactly when
    [last_use <= index], and otherwise returns a use after [index].  So
    the two tests agree except at [index = last_use], where
    [entryIsNotUsedAgain] answers [False] and [entryNextUsedAt]
    raises. *)
Theorem opt_tests_at_last_use (self : PageTable.t) (entry : PageTableEntry.t)
    (array : list Z) (index last_use : Z) :
  PageTable.page_used_at self entry = Ok array ->
  StronglySorted Z.lt array ->
  last array = Some last_use ->
  PageTable.entryIsNotUsedAgain self entry index = Ok (last_use <? index) /\
  (PageTable.entryNextUsedAt self entry index = Raise ValueError <->
   last_use <= index) /\
  (index < last_use ->
   exists x, PageTable.entryNextUsedAt self entry index = Ok x /\
             index < x <= last_use) /\
  (index = last_use ->
   PageTable.entryIsNotUsedAgain self entry index = Ok false /\
   PageTable.entryNextUsedAt self entry index = Raise ValueError).
Proof.
  intros Hused Hsorted Hlast.
  assert (PageTable.entryIsNotUsedAgain self entry index = Ok (last_use <? index))
    as Hnot.
  { unfold PageTable.entryIsNotUsedAgain. rewrite Hused. simpl.
    rewrite getitem_last, Hlast. reflexivity. }
  assert (last_use ∈ array) as Hin.
  { rewrite last_lookup in Hlast. eapply list_elem_of_lookup_2, Hlast. }
  pose proof (entryNextUsedAt_sorted self entry array index Hused Hsorted) as Hnext.
  assert (PageTable.entryNextUsedAt self entry index = Raise ValueError <->
          last_use <= index) as Hraise.
  { destruct (list_find (fun x => index < x) array) as [[i x]|].
    - destruct Hnext as (_ & Hx & Hxin & Hgt & _). rewrite Hx.
      pose proof (sorted_last_max array last_use x Hsorted Hlast Hxin).
      split; [discriminate|lia].
    - destruct Hnext as (Hall & _ & Hx). split; [auto|auto]. }
  split; [exact Hnot|]. split; [exact Hraise|]. split.
  - intros Hlt. destruct (list_find (fun x => index < x) array) as [[i x]|].
    + destruct Hnext as (_ & Hx & Hxin & Hgt & _). exists x.
      split; [exact Hx|]. split; [exact Hgt|].
      apply (sorted_last_max array last_use x Hsorted Hlast Hxin).
    + destruct Hnext as (Hall & _). specialize (Hall last_use Hin). lia.
  - intros ->. rewrite Hnot, Z.ltb_irrefl. split; [reflexivity|].
    apply Hraise. lia.
Qed.

Lemma opt_tests_at_last_use_witness :
  PageTable.entryIsNotUsedAgain opt_example
    (PageTableEntry.mk 12 (Some (Page.mk 12 7)) false 5 1 false) 11
  = Ok (11 <? 11) /\
  (PageTable.entryNextUsedAt opt_example
     (PageTableEntry.mk 12 (Some (Page.mk 12 7)) false 5 1 false) 11
   = Raise ValueError <-> 11 <= 11) /\
  (11 < 11 ->
   exists x,
     PageTable.entryNextUsedAt opt_example
       (PageTableEntry.mk 12 (Some (Page.mk 12 7)) false 5 1 false) 11 = Ok x /\
     11 < x <= 11) /\
  (11 = 11 ->
   PageTable.entryIsNotUsedAgain opt_example
     (PageTableEntry.mk 12 (Some (Page.mk 12 7)) false 5 1 false) 11 = Ok false /\
   PageTable.entryNextUsedAt opt_example
     (PageTableEntry.mk 12 (Some (Page.mk 12 7)) false 5 1 false) 11
   = Raise ValueError).
Proof.
  apply (opt_tests_at_last_use opt_example
           (PageTableEntry.mk 12 (Some (Page.mk 12 7)) false 5 1 false)
           [2; 5; 9; 11] 11 11).
  - reflexivity.
  - repeat constructor.
  - reflexivity.
Defined.

(** ** [tableIsFull] *)

(** X21.  [tableIsFull] answers [True] exactly when every entry holds
    a page, that is when the pages in memory are as many as the
    entries; a table without entries is full. *)
Theorem full_iff_every_entry_taken (pt : PageTable.t) :
  (PageTable.tableIsFull pt = true <->
   length (resident pt) = length (PageTable.table pt)) /\
  (PageTable.tableIsFull pt = false <->
   exists i e, PageTable.table pt !! i = Some e /\ PageTableEntry.hasPage e = false) /\
  (PageTable.table pt = [] -> PageTable.tableIsFull pt = true).
Proof.
  split; [|split].
  - split; [apply resident_full|].
    intros Hlen. destruct (PageTable.tableIsFull pt) eqn:Hfull; [reflexivity|].
    pose proof (resident_not_full pt Hfull). lia.
  - rewrite tableIsFull_false, Exists_exists. split.
    + intros (e & (i & He)%list_elem_of_lookup_1 & Hnone). exists i, e.
      split; [exact He|]. unfold PageTableEntry.hasPage. rewrite Hnone. reflexivity.
    + intros (i & e & He & Hno). exists e.
      split; [eapply list_elem_of_lookup_2, He|].
      unfold PageTableEntry.hasPage in Hno.
      destruct (PageTableEntry.page e); [discriminate|reflexivity].
  - intros Hnil. unfold PageTable.tableIsFull. rewrite Hnil. reflexivity.
Qed.

(** ** LRU and second chance do not look ahead *)

(** X22.  Under ['lru'] and ['second'] (any eviction type but
    ['opt']) a run does not depend on the records still to come: the
    table reached by running the trace [done] alone is the table
    reached after the records [done] of any longer trace; so the
    counters of the statistics can only grow when records are
    appended. *)
Theorem online_policies_ignore_the_future (done rest : list mem_access)
    (num_frames : Z) (mode : string) (offset_bits : Z) :
  mode <> "opt"%string ->
  (forall pt,
     replayed done num_frames mode offset_bits done pt ->
     replayed (done ++ rest) num_frames mode offset_bits done pt) /\
  (forall stats stats',
     VirtualMemorySimulator.simulate done num_frames mode offset_bits = Ok stats ->
     VirtualMemorySimulator.simulate (done ++ rest) num_frames mode offset_bits
       = Ok stats' ->
     VirtualMemorySimulator.page_faults stats
       <= VirtualMemorySimulator.page_faults stats' /\
     VirtualMemorySimulator.writes_to_disk stats
       <= VirtualMemorySimulator.writes_to_disk stats').
Proof.
  intros Hopt.
  assert (forall pt,
            replayed done num_frames mode offset_bits done pt ->
            replayed (done ++ rest) num_frames mode offset_bits done pt) as Hsame.
  { intros pt (sim & rest' & Hinit & _ & Hrep).
    rewrite init_other in Hinit by exact Hopt.
    inv_bind Hinit as pt0 Hcreate. injection Hinit as <-. simpl in Hrep.
    eexists _, rest. split; [|split; [reflexivity|]].
    - rewrite init_other, Hcreate by exact Hopt. reflexivity.
    - exact Hrep. }
  split; [exact Hsame|].
  intros stats stats' (pt & Hrep & _ & -> & ->)%simulate_replayed
    (pt' & Hrep' & _ & -> & ->)%simulate_replayed.
  apply Hsame in Hrep.
  pose proof (replayed_ok _ _ _ _ _ _ Hrep) as Hok.
  destruct Hrep as (sim & r1 & Hinit & _ & Hdone).
  destruct Hrep' as (sim' & r2 & Hinit' & _ & Hall).
  rewrite Hinit in Hinit'. injection Hinit' as <-.
  rewrite replay_app, Hdone in Hall. simpl in Hall.
  destruct (replay_counters offset_bits num_frames rest _ pt pt' Hok Hall)
    as (_ & _ & _ & Hpf & Hw & _).
  lia.
Qed.

Lemma prefix_replayed :
  replayed (take 2 scenario) 2 "lru" 12 (take 2 scenario) two_loaded.
Proof.
  eexists _, []. split; [vm_compute; reflexivity|]. split; reflexivity.
Qed.

Lemma online_policies_ignore_the_future_witness :
  replayed (take 2 scenario ++ drop 2 scenario) 2 "lru" 12
    (take 2 scenario) two_loaded /\
  (VirtualMemorySimulator.simulate (take 2 scenario) 2 "lru" 12
     = Ok (VirtualMemorySimulator.mk_statistics 2 2 0) /\
   VirtualMemorySimulator.simulate (take 2 scenario ++ drop 2 scenario) 2 "lru" 12
     = Ok (VirtualMemorySimulator.mk_statistics 4 4 0) /\
   2 <= 4 /\ 0 <= 0).
Proof.
  assert ("lru"%string <> "opt"%string) as Hne by discriminate.
  split.
  - apply (proj1 (online_policies_ignore_the_future (take 2 scenario)
                    (drop 2 scenario) 2 "lru" 12 Hne) _ prefix_replayed).
  - assert (VirtualMemorySimulator.simulate (take 2 scenario) 2 "lru" 12
            = Ok (VirtualMemorySimulator.mk_statistics 2 2 0)) as H1
      by (vm_compute; reflexivity).
    assert (VirtualMemorySimulator.simulate
              (take 2 scenario ++ drop 2 scenario) 2 "lru" 12
            = Ok (VirtualMemorySimulator.mk_statistics 4 4 0)) as H2
      by (vm_compute; reflexivity).
    split; [exact H1|]. split; [exact H2|].
    apply (proj2 (online_policies_ignore_the_future (take 2 scenario)
                    (drop 2 scenario) 2 "lru" 12 Hne) _ _ H1 H2).
Defined.

(** ** What a query does to the entries *)



(** ** OPT: the page used furthest in the future *)

(** X24.  OPT evicts a page whose next use is furthest away: at an
    eviction of a run under ['opt'], [evict] returns a table from which
    the page of the entry [OptimalTable.victim] selects has left
    memory, every other frame being as it was; and every page in memory
    is accessed again, in the records after the one being replayed, no
    later than that page (a page never accessed again counting as
    latest). *)
Theorem opt_evicts_furthest_in_future (file : list mem_access)
    (num_frames offset_bits : Z) (sim : VirtualMemorySimulator.t)
    (done : list mem_access) (access_type : string) (address : Z)
    (rest : list mem_access) (pt : PageTable.t) :
  0 < num_frames ->
  VirtualMemorySimulator.init file num_frames "opt" offset_bits = Ok sim ->
  file = done ++ (access_type, address) :: rest ->
  VirtualMemorySimulator.replay done 0 (VirtualMemorySimulator.page_table sim)
    = Ok pt ->
  PageTable.getTableEntryByAddress pt address = Ok None ->
  PageTable.tableIsFull pt = true ->
  exists v ev f,
    PageTable.OptimalTable.victim pt (Z.of_nat (length done)) = Ok v /\
    PageTable.evict pt (Z.of_nat (length done)) = PageTable.clearEntry pt v /\
    PageTable.table pt !! v = Some ev /\
    page_number_of ev = Some f /\
    (forall m q,
       f ∈ take m (page_of offset_bits <$> rest) ->
       q ∈ resident pt ->
       q ∈ take m (page_of offset_bits <$> rest)) /\
    exists pt1,
      PageTable.evict pt (Z.of_nat (length done)) = Ok pt1 /\
      PageTable.table pt1
        = <[v := freed ev (PageTableEntry.second_chance ev)]> (PageTable.table pt) /\
      frames pt1 = <[v := None]> (frames pt) /\
      resident pt ≡ₚ f :: resident pt1 /\
      (f ∉ resident pt1) /\
      PageTable.writes_to_disk pt1
        = PageTable.writes_to_disk pt
          + (if PageTableEntry.dirty ev then 1 else 0) /\
      PageTable.page_faults pt1 = PageTable.page_faults pt.
Proof.
  intros Hn Hinit Hfile Hrep Hmiss Hfull.
  destruct (opt_miss_ready _ _ _ _ _ _ _ _ _ Hinit Hfile Hrep)
    as (Hoff & Hok & Hcls & Hti & Hseen & Hnot).
  destruct (opt_victim_spec offset_bits num_frames (Z.of_nat (length done)) file pt
              Hn Hok Hfull Hti Hseen (Hnot Hmiss))
    as (v & ev & Hv & Hev & _).
  pose proof Hfull as Hall.
  apply tableIsFull_true in Hall. rewrite Forall_forall in Hall.
  assert (exists f, page_number_of ev = Some f) as (f & Hf).
  { destruct (page_number_of ev) as [f|] eqn:Hf; [eauto|].
    apply page_number_of_None in Hf.
    destruct (Hall ev); [eapply list_elem_of_lookup_2, Hev|exact Hf]. }
  assert (PageTable.evict pt (Z.of_nat (length done)) = PageTable.clearEntry pt v)
    as Hevict.
  { unfold PageTable.evict, PageTable.OptimalTable.evict. rewrite Hcls, Hv.
    reflexivity. }
  exists v, ev, f. split; [exact Hv|]. split; [exact Hevict|].
  split; [exact Hev|]. split; [exact Hf|]. split.
  2:{ destruct (clearEntry_page_leaves pt v ev f (proj2 (proj2 (proj2 Hok))) Hev Hf)
        as (pt1 & Hclear & Hrest).
      exists pt1. rewrite Hevict. split; [exact Hclear|exact Hrest]. }
  intros m q Hfm Hq.
  apply (opt_victim_furthest offset_bits num_frames file pt done
           (access_type, address) rest v ev f Hn Hok Hfull Hti Hseen
           (Hnot Hmiss) Hfile Hv Hev Hf m Hfm q Hq).
Qed.

Lemma opt_evicts_furthest_in_future_witness :
  exists sim pt v ev f,
    VirtualMemorySimulator.init scenario 2 "opt" 12 = Ok sim /\
    VirtualMemorySimulator.replay (take 2 scenario) 0
      (VirtualMemorySimulator.page_table sim) = Ok pt /\
    PageTable.OptimalTable.victim pt 2 = Ok v /\
    PageTable.table pt !! v = Some ev /\
    page_number_of ev = Some f /\
    (forall m q,
       f ∈ take m (page_of 12 <$> [("l"%string, 0x1000)]) ->
       q ∈ resident pt ->
       q ∈ take m (page_of 12 <$> [("l"%string, 0x1000)])) /\
    exists pt1,
      PageTable.evict pt 2 = Ok pt1 /\
      frames pt1 = <[v := None]> (frames pt) /\
      (f ∉ resident pt1).
Proof.
  eassert (VirtualMemorySimulator.init scenario 2 "opt" 12 = Ok _) as Hinit
    by (vm_compute; reflexivity).
  match type of Hinit with _ = Ok ?s => set (sim := s) in * end.
  eassert (VirtualMemorySimulator.replay (take 2 scenario) 0
             (VirtualMemorySimulator.page_table sim) = Ok _) as Hrep
    by (vm_compute; reflexivity).
  match type of Hrep with _ = Ok ?s => set (pt := s) in * end.
  assert (PageTable.getTableEntryByAddress pt 0x3000 = Ok None) as Hmiss
    by (vm_compute; reflexivity).
  assert (PageTable.tableIsFull pt = true) as Hfull by (vm_compute; reflexivity).
  assert (0 < 2) as Hn by lia.
  destruct (opt_evicts_furthest_in_future scenario 2 12 sim (take 2 scenario)
              "l" 0x3000 [("l"%string, 0x1000)] pt Hn Hinit eq_refl Hrep Hmiss Hfull)
    as (v & ev & f & Hv & _ & Hev & Hf & Hfar & pt1 & Hev1 & _ & Hfr & _ & Hnot & _).
  exists sim, pt, v, ev, f. split; [exact Hinit|]. split; [exact Hrep|].
  split; [exact Hv|]. split; [exact Hev|]. split; [exact Hf|].
  split; [exact Hfar|]. exists pt1. auto.
Defined.

(** ** One frame *)

Lemma page_changes_snoc previous pages p :
  page_changes previous (pages ++ [p])
  = (page_changes previous pages
     + (if decide (match last pages with
                   | Some y => Some y
                   | None => previous
                   end = Some p) then 0 else 1))%nat.
Proof.
  revert previous. induction pages as [|a pages IH]; intros previous.
  - simpl. lia.
  - cbn [app page_changes]. rewrite IH, last_cons.
    destruct (last pages); lia.
Qed.

Lemma replayed_one_frame file mode off done pt :
  replayed file 1 mode off done pt ->
  resident pt = option_list (last (page_of off <$> done)) /\
  PageTable.page_faults pt
    = Z.of_nat (page_changes None (page_of off <$> done)).
Proof.
  intros Hrep. pattern done, pt. revert done pt Hrep. apply replayed_ind.
  - intros sim Hinit.
    destruct (replayed_start _ _ _ _ _ Hinit) as (c & ti & ->).
    rewrite resident_init. split; reflexivity.
  - intros done [ty a] pt pt' Hpt (Hres & Hpf) Hpt' Hq. simpl in Hq.
    pose proof (replayed_ok _ _ _ _ _ _ Hpt) as Hok.
    pose proof (replayed_offset _ _ _ _ _ _ _ Hpt') as Hoff.
    rewrite fmap_app. simpl. rewrite last_snoc, page_changes_snoc.
    change (page_of off (ty, a)) with (Z.shiftr a off). simpl.
    destruct (query_frames off 1 pt a ty _ pt' Hok Hoff Hq)
      as [(Hin & Hfr & Hpf' & _)|(Hnot & Hpf' & i & Hfr & Hcase)].
    + apply elem_of_resident in Hin.
      assert (last (page_of off <$> done) = Some (Z.shiftr a off)) as Hlast.
      { rewrite Hres in Hin. destruct (last (page_of off <$> done)) as [y|];
          simpl in Hin; [|inversion Hin].
        apply list_elem_of_singleton in Hin as ->. reflexivity. }
      split.
      * rewrite !resident_frames, Hfr, <- resident_frames, Hres, Hlast. reflexivity.
      * rewrite Hpf', Hpf, Hlast. rewrite decide_True by reflexivity. lia.
    + assert (last (page_of off <$> done) <> Some (Z.shiftr a off)) as Hlast.
      { intros Hlast. apply Hnot, elem_of_resident. rewrite Hres, Hlast.
        simpl. apply list_elem_of_singleton. reflexivity. }
      split.
      * destruct (query_miss_position off 1 pt a ty _ pt' i Hfr Hcase Hok Hq)
          as (o & Ho & _).
        destruct Hok as (_ & Hlen & _).
        assert (length (frames pt) = 1%nat) as Hlenf
          by (unfold frames; rewrite length_fmap; exact Hlen).
        destruct (frames pt) as [|o' [|? ?]] eqn:Hf; try discriminate.
        destruct i as [|i]; [|destruct i; discriminate].
        rewrite resident_frames, Hfr. reflexivity.
      * rewrite Hpf', Hpf.
        destruct (last (page_of off <$> done)) as [y|].
        -- rewrite decide_False by exact Hlast. lia.
        -- rewrite decide_False by discriminate. lia.
Qed.

(** X25.  With one frame every policy does the same: a record faults
    exactly when its page is not the page of the record before it, so
    [page_faults] is the number of such records (the first record
    among them). *)
Theorem one_frame_faults_at_page_changes (file : list mem_access)
    (mode : string) (offset_bits : Z)
    (stats : VirtualMemorySimulator.statistics) :
  VirtualMemorySimulator.simulate file 1 mode offset_bits = Ok stats ->
  VirtualMemorySimulator.page_faults stats
  = Z.of_nat (page_changes None (page_of offset_bits <$> file)).
Proof.
  intros (pt & Hrep & _ & -> & _)%simulate_replayed.
  apply (replayed_one_frame _ _ _ _ _ Hrep).
Qed.

Lemma one_frame_faults_at_page_changes_witness :
  VirtualMemorySimulator.simulate hit_then_miss 1 "opt" 12
    = Ok (VirtualMemorySimulator.mk_statistics 3 2 0) /\
  2 = Z.of_nat (page_changes None (page_of 12 <$> hit_then_miss)).
Proof.
  assert (VirtualMemorySimulator.simulate hit_then_miss 1 "opt" 12
          = Ok (VirtualMemorySimulator.mk_statistics 3 2 0)) as Hrun
    by (vm_compute; reflexivity).
  split; [exact Hrun|].
  apply (one_frame_faults_at_page_changes hit_then_miss "opt" 12 _ Hrun).
Defined.

(** ** The cursor of second chance *)

Lemma evict_cursor off n self index self1 :
  table_ok off n self ->
  PageTable.evict self index = Ok self1 ->
  (PageTable.cls self <> SecondChanceTable ->
   PageTable.round_robin_index self1 = PageTable.round_robin_index self) /\
  (PageTable.cls self = SecondChanceTable ->
   0 <= PageTable.round_robin_index self1 < n).
Proof.
  intros (Hsize & Hlen & _) Hev. unfold PageTable.evict in Hev.
  destruct (PageTable.cls self) eqn:Hcls.
  - split; [intros _|discriminate].
    unfold PageTable.OptimalTable.evict in Hev. inv_bind Hev as v Hv.
    apply clearEntry_Ok in Hev as (e & _ & ->).
    destruct (PageTableEntry.dirty e); reflexivity.
  - split; [intros _|discriminate].
    unfold PageTable.LRUTable.evict in Hev. inv_bind Hev as v Hv.
    apply clearEntry_Ok in Hev as (e & _ & ->).
    destruct (PageTableEntry.dirty e); reflexivity.
  - split; [contradiction|intros _].
    assert (PageTable.table self <> []) as Hne.
    { unfold PageTable.SecondChanceTable.evict, run_loop in Hev.
      destruct (PageTable.SecondChanceTable.evict_loop _ self) as [res|] eqn:Hloop;
        [|discriminate].
      subst res. eapply second_chance_loop_nonempty, Hloop. }
    assert (sized self) as Hsized.
    { unfold sized. destruct (PageTable.table self) eqn:Ht; [contradiction|].
      simpl in *. split; lia. }
    destruct (second_chance_evict_spec self index Hsized)
      as (k & self' & Hout & Hev' & _).
    rewrite Hev' in Hev. injection Hev as <-.
    destruct Hout as (_ & _ & _ & -> & _).
    pose proof (cursor_lt self k Hsized). lia.
Qed.

Lemma query_cursor off n pt address access_type index pt' :
  table_ok off n pt ->
  PageTable.query pt address access_type index = Ok pt' ->
  PageTable.round_robin_index pt' = PageTable.round_robin_index pt \/
  PageTable.cls pt = SecondChanceTable /\
  0 <= PageTable.round_robin_index pt' < n.
Proof.
  intros Hok Hq.
  pose proof (query_offset off n pt address access_type index pt' Hok Hq) as Hoff.
  destruct (query_cases off n pt address access_type index pt' Hok Hoff Hq)
    as [(i & e & e1 & _ & _ & ->)
       |(_ & self1 & i & e & e1 & Hcase & _ & _ & ->)].
  - left. reflexivity.
  - simpl. destruct Hcase as [(_ & ->)|(_ & Hev & _)]; [left; reflexivity|].
    destruct (evict_cursor off n pt index self1 Hok Hev) as [Hother Hsecond].
    destruct (PageTable.cls pt) eqn:Hc.
    + left. apply Hother. discriminate.
    + left. apply Hother. discriminate.
    + right. auto.
Qed.

(** X26.  The cursor [round_robin_index] stays in range: in every
    table of a run it is still the -1 of [__init__] or, under
    ['second'] only, a position of the table. *)
Theorem cursor_stays_in_range (file : list mem_access) (num_frames : Z)
    (mode : string) (offset_bits : Z) (done : list mem_access)
    (pt : PageTable.t) :
  replayed file num_frames mode offset_bits done pt ->
  PageTable.round_robin_index pt = -1 \/
  mode = "second"%string /\
  0 <= PageTable.round_robin_index pt < Z.of_nat (length (PageTable.table pt)).
Proof.
  intros Hrep. pattern done, pt. revert done pt Hrep. apply replayed_ind.
  - intros sim Hinit.
    destruct (replayed_start _ _ _ _ _ Hinit) as (c & ti & ->).
    left. reflexivity.
  - intros done [ty a] pt pt' Hpt IH Hpt' Hq. simpl in Hq.
    pose proof (replayed_ok _ _ _ _ _ _ Hpt) as Hok.
    pose proof (replayed_ok _ _ _ _ _ _ Hpt') as (_ & Hlen' & _).
    pose proof (replayed_ok _ _ _ _ _ _ Hpt) as (_ & Hlen & _).
    destruct (between_queries_cls _ _ _ _ _
                (replayed_between_queries _ _ _ _ _ _ Hpt)) as (_ & _ & Hsecond).
    destruct (query_cursor offset_bits num_frames pt a ty _ pt' Hok Hq)
      as [-> |(Hc & Hr)].
    + destruct IH as [IH|(Hm & IH)]; [left; exact IH|right].
      split; [exact Hm|]. rewrite Hlen'. rewrite Hlen in IH. exact IH.
    + right. split; [apply Hsecond, Hc|]. rewrite Hlen'. lia.
Qed.

Lemma cursor_stays_in_range_witness :
  PageTable.round_robin_index two_loaded = -1 \/
  "lru"%string = "second"%string /\
  0 <= PageTable.round_robin_index two_loaded
    < Z.of_nat (length (PageTable.table two_loaded)).
Proof.
  apply (cursor_stays_in_range scenario 2 "lru" 12 (take 2 scenario) two_loaded
           scenario_replayed).
Defined.


(** ** Second chance: the pages it spares *)

Lemma cursor_reaches self p :
  sized self -> (p < length (PageTable.table self))%nat ->
  exists j, (j < length (PageTable.table self))%nat /\ cursor self j = p.
Proof.
  intros [Hsize Hpos] Hp.
  set (n := Z.of_nat (length (PageTable.table self))).
  assert (0 < n) as Hn by (unfold n; lia).
  pose proof (Z.mod_pos_bound
                (Z.of_nat p - (PageTable.round_robin_index self + 1)) n Hn) as Hj.
  exists (Z.to_nat ((Z.of_nat p - (PageTable.round_robin_index self + 1)) mod n)).
  split; [unfold n in *; lia|].
  unfold cursor. rewrite Hsize. fold n. rewrite Z2Nat.id by lia.
  rewrite Zplus_mod_idemp_r.
  replace (PageTable.round_robin_index self + 1
           + (Z.of_nat p - (PageTable.round_robin_index self + 1)))
    with (Z.of_nat p) by lia.
  rewrite Z.mod_small by (unfold n; lia). apply Nat2Z.id.
Qed.

(** X27.  Second chance spares the entries whose flag is set.
    [SecondChanceTable.evict] leaves the cursor on one entry, empties
    that entry (its page is taken, its attributes reset, its flag not
    set) and empties no other frame.  That entry had its flag not set,
    unless the flag of every entry of the table was set; in that case
    it is the entry next to where the cursor was, the first one the
    scan reached, and after the lap no entry of the table has its flag
    set. *)
Theorem second_chance_spares_flagged (self : PageTable.t) (index : Z) :
  sized self ->
  exists v e self',
    PageTable.SecondChanceTable.evict self index = Ok self' /\
    PageTable.round_robin_index self' = Z.of_nat v /\
    PageTable.table self !! v = Some e /\
    PageTable.table self' !! v = Some (freed e false) /\
    frames self' = <[v := None]> (frames self) /\
    (PageTableEntry.hasSecondChance e = true ->
     v = cursor self 0 /\
     (forall p e', PageTable.table self !! p = Some e' ->
        PageTableEntry.hasSecondChance e' = true) /\
     (forall p e', PageTable.table self' !! p = Some e' ->
        e' = freed e false /\ p = v \/
        exists e0, PageTable.table self !! p = Some e0 /\ e' = unflagged e0)).
Proof.
  intros Hsized.
  destruct (second_chance_evict_spec self index Hsized)
    as (k & self' & Hout & Hev & _).
  pose proof (scan_outcome_frames self k self' Hout) as Hfr.
  destruct Hout as (Hk & Hskipped & Hstop & Hrr & Hlen & (e & He & He' & _)
                    & Hpassed & _).
  exists (cursor self k), e, self'.
  split; [exact Hev|]. split; [exact Hrr|]. split; [exact He|].
  split; [exact He'|]. split; [exact Hfr|].
  intros Hflag.
  assert (k = length (PageTable.table self)) as ->.
  { destruct (decide (k < length (PageTable.table self))%nat) as [Hlt|Hge];
      [|lia].
    specialize (Hstop Hlt). unfold chance in Hstop. rewrite He in Hstop.
    congruence. }
  split; [apply cursor_lap, Hsized|]. split.
  - intros p e' Hp.
    destruct (cursor_reaches self p Hsized (lookup_lt_Some _ _ _ Hp))
      as (j & Hj & Hcur).
    specialize (Hskipped j Hj). unfold chance in Hskipped.
    rewrite Hcur, Hp in Hskipped. exact Hskipped.
  - intros p e' Hp.
    destruct (decide (p = cursor self (length (PageTable.table self))))
      as [->|Hne].
    { left. rewrite He' in Hp. injection Hp as <-. auto. }
    right.
    assert (p < length (PageTable.table self))%nat as Hlt
      by (rewrite <- Hlen; eapply lookup_lt_Some, Hp).
    destruct (cursor_reaches self p Hsized Hlt) as (j & Hj & <-).
    rewrite (Hpassed j Hj Hne) in Hp.
    destruct (PageTable.table self !! cursor self j) as [e0|]; [|discriminate].
    injection Hp as <-. exists e0. auto.
Qed.

Lemma all_flagged_example_sized : sized all_flagged_example.
Proof. split; [reflexivity|simpl; lia]. Defined.

Lemma second_chance_spares_flagged_witness :
  (exists v e self',
     PageTable.SecondChanceTable.evict second_chance_example 7 = Ok self' /\
     PageTable.round_robin_index self' = Z.of_nat v /\
     PageTable.table second_chance_example !! v = Some e /\
     PageTable.table self' !! v = Some (freed e false) /\
     frames self' = <[v := None]> (frames second_chance_example)) /\
  (exists v e self',
     PageTable.SecondChanceTable.evict all_flagged_example 3 = Ok self' /\
     PageTable.round_robin_index self' = Z.of_nat v /\
     PageTableEntry.hasSecondChance e = true /\
     PageTable.table self' !! v = Some (freed e false) /\
     v = 1%nat).
Proof.
  split.
  - destruct (second_chance_spares_flagged second_chance_example 7)
      as (v & e & self' & Hev & Hrr & He & He' & Hfr & _).
    { split; [reflexivity|simpl; lia]. }
    exists v, e, self'. auto.
  - destruct (second_chance_spares_flagged all_flagged_example 3
                all_flagged_example_sized)
      as (v & e & self' & Hev & Hrr & He & He' & Hfr & Hall).
    assert (PageTableEntry.hasSecondChance e = true) as Hflag.
    { destruct v as [|[|v]]; simpl in He; [| |discriminate];
        injection He as <-; reflexivity. }
    destruct (Hall Hflag) as (Hv & _).
    exists v, e, self'. split; [exact Hev|]. split; [exact Hrr|].
    split; [exact Hflag|]. split; [exact He'|]. rewrite Hv. reflexivity.
Defined.

(** ** When a run returns *)

Lemma replayed_valid file n mode off done pt :
  replayed file n mode off done pt -> Forall valid_access done.
Proof.
  intros Hrep. pattern done, pt. revert done pt Hrep. apply replayed_ind.
  - intros sim _. constructor.
  - intros done [ty a] pt pt' Hpt IH Hpt' Hq. simpl in Hq.
    pose proof (replayed_ok _ _ _ _ _ _ Hpt) as Hok.
    pose proof (replayed_offset _ _ _ _ _ _ _ Hpt') as Hoff.
    destruct (query_entries off n pt a ty _ pt' Hok Hoff Hq)
      as (i & e1 & _ & _ & _ & _ & Hty & _).
    apply Forall_app. split; [exact IH|]. constructor; [exact Hty|constructor].
Qed.

(** X28.  A run returns its statistics exactly when the eviction type
    is one of ['opt'], ['lru'] and ['second'] and either the trace is
    empty, or there is at least one frame, the offset width is not
    negative and every record is a load or a store; in every other
    case it raises. *)
Theorem run_returns_iff (file : list mem_access) (num_frames : Z)
    (mode : string) (offset_bits : Z) :
  (exists stats,
     VirtualMemorySimulator.simulate file num_frames mode offset_bits = Ok stats)
  <->
  (mode = "opt"%string \/ mode = "lru"%string \/ mode = "second"%string) /\
  (file = [] \/
   0 < num_frames /\ 0 <= offset_bits /\ Forall valid_access file).
Proof.
  split.
  - intros (stats & (pt & Hrep & _)%simulate_replayed).
    split.
    + destruct Hrep as (sim & _ & Hinit & _).
      apply init_Ok in Hinit as (c & _ & _ & _ & _ & _ & Hopt & Hlru & Hsecond).
      destruct c; [left; apply Hopt|right; left; apply Hlru
                  |right; right; apply Hsecond]; reflexivity.
    + destruct file as [|r0 file0] eqn:Hfile; [left; reflexivity|right].
      rewrite <- Hfile in *.
      assert (exists done r, file = done ++ [r]) as (done & r & Hsnoc).
      { destruct (last file) as [r|] eqn:Hlast.
        - apply last_Some in Hlast as (done & ->). eauto.
        - apply last_None in Hlast. congruence. }
      rewrite Hsnoc in Hrep.
      pose proof (replayed_offset _ _ _ _ _ _ _ Hrep) as Hoff.
      pose proof (replayed_valid _ _ _ _ _ _ Hrep) as Hvalid.
      pose proof (replayed_ok _ _ _ _ _ _ Hrep) as (_ & Hlen & _).
      rewrite <- Hsnoc in Hvalid. split; [|auto].
      destruct Hrep as (sim & rest & Hinit & _ & Hrep).
      rewrite replay_app in Hrep. inv_bind Hrep as pt1 Hrep1.
      destruct r as [ty a]. simpl in Hrep. inv_bind Hrep as pt2 Hq.
      injection Hrep as <-.
      destruct (replayed_start _ _ _ _ _ Hinit) as (c & ti & Hpt).
      rewrite Hpt in Hrep1.
      destruct (replay_counters offset_bits num_frames done 0 _ pt1
                  (init_table_ok c num_frames offset_bits ti) Hrep1) as (Hok1 & _).
      destruct (query_entries offset_bits num_frames pt1 a ty _ pt2 Hok1 Hoff Hq)
        as (i & e1 & He1 & _).
      apply lookup_lt_Some in He1. lia.
  - intros (Hmode & [-> |(Hn & Hoff & Hvalid)]).
    + destruct Hmode as [-> |[-> | ->]]; eexists; reflexivity.
    + apply simulate_completes; assumption.
Qed.

(** ** Termination of every run *)

Lemma terminates_Ok {A : Type} (a : A) : terminates (Ok a).
Proof. discriminate. Qed.

Lemma terminates_Raise {A : Type} (e : exn) :
  e <> OutOfFuel -> terminates (@Raise A e).
Proof. intros He [= H]. contradiction. Qed.

Lemma terminates_bind {A B : Type} (c : result A) (k : A -> result B) :
  terminates c -> (forall a, c = Ok a -> terminates (k a)) ->
  terminates (bind c k).
Proof.
  intros Hc Hk. destruct c as [a|e]; simpl.
  - apply Hk. reflexivity.
  - intros [= ->]. apply Hc. reflexivity.
Qed.

Lemma terminates_rshift a n : terminates (rshift a n).
Proof. unfold rshift. destruct (n <? 0); discriminate. Qed.

Lemma terminates_getitem {A : Type} (l : list A) (i : Z) : terminates (getitem l i).
Proof.
  destruct (getitem l i) as [x|e] eqn:Hget; [discriminate|].
  apply getitem_Raise in Hget as ->. discriminate.
Qed.

Lemma terminates_pymax l : terminates (pymax l).
Proof. destruct l; discriminate. Qed.

Lemma terminates_pyindex l x : terminates (pyindex l x).
Proof.
  induction l as [|y l IH]; simpl; [discriminate|].
  destruct (y =? x); [discriminate|].
  apply terminates_bind; [exact IH|]. intros; apply terminates_Ok.
Qed.

Lemma terminates_mapM {A B : Type} (f : A -> result B) (l : list A) :
  (forall x, terminates (f x)) -> terminates (mapM f l).
Proof.
  intros Hf. induction l as [|x l IH]; simpl; [discriminate|].
  apply terminates_bind; [apply Hf|]. intros y _.
  apply terminates_bind; [exact IH|]. intros; apply terminates_Ok.
Qed.

Lemma terminates_filterM {A : Type} (f : A -> result bool) (l : list A) :
  (forall x, terminates (f x)) -> terminates (filterM f l).
Proof.
  intros Hf. induction l as [|x l IH]; simpl; [discriminate|].
  apply terminates_bind; [apply Hf|]. intros y _.
  apply terminates_bind; [exact IH|]. intros; apply terminates_Ok.
Qed.

Lemma terminates_contains p address : terminates (Page.contains p address).
Proof.
  unfold Page.contains. apply terminates_bind; [apply terminates_rshift|].
  intros; apply terminates_Ok.
Qed.

Lemma terminates_setPage e address : terminates (PageTableEntry.setPage e address).
Proof.
  unfold PageTableEntry.setPage, Page.init.
  repeat (apply terminates_bind; [|intros; try apply terminates_Ok]).
  apply terminates_rshift.
Qed.

Lemma terminates_access e access_type index :
  terminates (PageTableEntry.access e access_type index).
Proof.
  unfold PageTableEntry.access.
  destruct (String.eqb access_type "l"); [discriminate|].
  destruct (String.eqb access_type "s"); discriminate.
Qed.

Lemma terminates_entry_at self i : terminates (PageTable.entry_at self i).
Proof. unfold PageTable.entry_at. destruct (_ !! i); discriminate. Qed.

Lemma terminates_scan_for_address tbl address i :
  terminates (PageTable.scan_for_address tbl address i).
Proof.
  revert i. induction tbl as [|e tbl IH]; intros i; simpl; [discriminate|].
  destruct (PageTableEntry.getPage e) as [p|]; [|apply IH].
  apply terminates_bind; [apply terminates_contains|].
  intros [|] _; [discriminate|apply IH].
Qed.

Lemma terminates_load_scan tbl address i :
  terminates (PageTable.load_scan tbl address i).
Proof.
  revert i. induction tbl as [|e tbl IH]; intros i; simpl; [discriminate|].
  destruct (negb (PageTableEntry.hasPage e)).
  - apply terminates_bind; [apply terminates_setPage|]. intros; apply terminates_Ok.
  - apply terminates_bind; [apply IH|]. intros [tbl' j] _. apply terminates_Ok.
Qed.

Lemma terminates_load self address : terminates (PageTable.load self address).
Proof.
  unfold PageTable.load. apply terminates_bind; [apply terminates_load_scan|].
  intros [tbl i] _. apply terminates_Ok.
Qed.

Lemma terminates_clearEntry self i : terminates (PageTable.clearEntry self i).
Proof.
  unfold PageTable.clearEntry. apply terminates_bind; [apply terminates_entry_at|].
  intros; apply terminates_Ok.
Qed.

Lemma terminates_page_used_at self e : terminates (PageTable.page_used_at self e).
Proof.
  unfold PageTable.page_used_at.
  destruct (PageTableEntry.getPage e) as [p|]; [|discriminate].
  destruct (_ !! _); discriminate.
Qed.

Lemma terminates_entryNextUsedAt self e index :
  terminates (PageTable.entryNextUsedAt self e index).
Proof.
  unfold PageTable.entryNextUsedAt.
  apply terminates_bind; [apply terminates_page_used_at|]. intros used _.
  apply terminates_bind; [apply findFirstElementGreaterThan_terminates|].
  intros first _. destruct (first =? -1); [discriminate|].
  apply terminates_bind; [apply findFirstElementGreaterThan_terminates|].
  intros; apply terminates_getitem.
Qed.

Lemma terminates_entryIsNotUsedAgain self e index :
  terminates (PageTable.entryIsNotUsedAgain self e index).
Proof.
  unfold PageTable.entryIsNotUsedAgain.
  apply terminates_bind; [apply terminates_page_used_at|]. intros used _.
  apply terminates_bind; [apply terminates_getitem|]. intros; apply terminates_Ok.
Qed.

Lemma terminates_evict self index : terminates (PageTable.evict self index).
Proof.
  unfold PageTable.evict. destruct (PageTable.cls self).
  - unfold PageTable.OptimalTable.evict, PageTable.OptimalTable.victim.
    apply terminates_bind; [|intros; apply terminates_clearEntry].
    apply terminates_bind.
    { apply terminates_filterM. intros; apply terminates_entryIsNotUsedAgain. }
    intros [|first rest] _; [|apply terminates_Ok].
    apply terminates_bind.
    { apply terminates_mapM. intros; apply terminates_entryNextUsedAt. }
    intros next_used _.
    apply terminates_bind; [apply terminates_pymax|].
    intros; apply terminates_pyindex.
  - unfold PageTable.LRUTable.evict, PageTable.LRUTable.victim.
    apply terminates_bind; [|intros; apply terminates_clearEntry].
    destruct (PageTable.entries self); discriminate.
  - apply second_chance_evict_terminates.
Qed.

Lemma terminates_query self address access_type index :
  terminates (PageTable.query self address access_type index).
Proof.
  unfold PageTable.query, PageTable.getTableEntryByAddress.
  apply terminates_bind; [apply terminates_scan_for_address|].
  intros [i|] _.
  - apply terminates_bind; [apply terminates_entry_at|]. intros entry _.
    apply terminates_bind; [apply terminates_access|]. intros; apply terminates_Ok.
  - apply terminates_bind.
    { unfold PageTable.evictAndLoad. destruct (PageTable.tableIsFull self).
      - apply terminates_bind; [apply terminates_evict|].
        intros; apply terminates_load.
      - apply terminates_load. }
    intros [self1 i] _.
    apply terminates_bind; [apply terminates_entry_at|]. intros entry _.
    apply terminates_bind; [apply terminates_access|]. intros; apply terminates_Ok.
Qed.

Lemma terminates_replay file index pt :
  terminates (VirtualMemorySimulator.replay file index pt).
Proof.
  revert index pt. induction file as [|[ty a] file IH]; intros index pt; simpl.
  - apply terminates_Ok.
  - apply terminates_bind; [apply terminates_query|]. intros; apply IH.
Qed.

Lemma terminates_index_trace opt off file index m ti :
  terminates (VirtualMemorySimulator.index_trace opt off file index m ti).
Proof.
  revert index m ti. induction file as [|[ty a] file IH]; intros index m ti.
  - apply terminates_Ok.
  - cbn [VirtualMemorySimulator.index_trace]. destruct opt; [|apply IH].
    apply terminates_bind; [apply terminates_rshift|]. intros; apply IH.
Qed.

(** X29.  Every run terminates, whatever the trace, the number of
    frames, the eviction type and the offset width: the binary search
    ends within [len(array) + 1] iterations and the second-chance scan
    within one more than the number of entries, in every query of every
    run, so that the run either returns its statistics or raises a
    Python exception. *)
Theorem every_run_terminates (file : list mem_access) (num_frames : Z)
    (mode : string) (offset_bits : Z) :
  terminates (VirtualMemorySimulator.simulate file num_frames mode offset_bits) /\
  (forall array index,
     terminates (PageTable.findFirstElementGreaterThan array index)) /\
  (forall pt index, terminates (PageTable.evict pt index)) /\
  (forall pt address access_type index,
     terminates (PageTable.query pt address access_type index)).
Proof.
  split; [|split; [|split]].
  - unfold VirtualMemorySimulator.simulate, VirtualMemorySimulator.init,
      VirtualMemorySimulator.run.
    apply terminates_bind.
    + apply terminates_bind; [apply terminates_index_trace|].
      intros [m ti] _. apply terminates_bind; [|intros; apply terminates_Ok].
      unfold VirtualMemorySimulator.createPageTable.
      repeat destruct (String.eqb mode _); discriminate.
    + intros sim _. apply terminates_bind; [apply terminates_replay|].
      intros; apply terminates_Ok.
  - apply findFirstElementGreaterThan_terminates.
  - apply terminates_evict.
  - apply terminates_query.
Qed.

